(** * DanzmannGameplayMessages: the gameplay-message subsystem

    A shallow embedding of [UDanzmannGameplayMessagesSubsystem]
    (register / unregister / broadcast over a map from gameplay-tag
    channels to listener lists) and the properties of its dispatch,
    handle issuing and pruning. *)

From Stdlib Require Import ZArith Lia.
From stdpp Require Import gmap strings list fin_maps sorting.

Local Open Scope Z_scope.

(** ** Engine types the subsystem consumes *)

(** Modelled from the spec: the engine's [FGameplayTag] is not among the
    sources.  It is "an opaque hierarchical identifier composed of
    dot-separated segments" used through equality/hashing and "parent
    of" (strip the last segment; the root has no parent).  A tag is kept
    as its list of segments with the LEAF FIRST, so that the direct
    parent is the tail and the empty list is the empty (invalid) tag
    [FGameplayTag()].  [RequestGameplayTag] builds a tag from the
    segments in written order: "A.B.C" is
    [RequestGameplayTag ["A"; "B"; "C"]] = ["C"; "B"; "A"]. *)
Abbreviation FGameplayTag := (list string) (only parsing).

Definition RequestGameplayTag (segments : list string) : FGameplayTag :=
  reverse segments.

Definition TagIsValid (Tag : FGameplayTag) : bool :=
  match Tag with [] => false | _ :: _ => true end.

Definition RequestDirectParent (Tag : FGameplayTag) : FGameplayTag :=
  tail Tag.

(** Modelled from the spec: the engine's [UScriptStruct] is not among
    the sources.  It is the payload type descriptor, "an opaque handle
    to a structural type" with equality and a subtype ("is-a")
    relation.  A struct is identified by its name and its chain of super
    structs ([GetSuperStruct]). *)
Inductive UScriptStruct : Type :=
| BaseStruct (StructName : string)
| DerivedStruct (StructName : string) (SuperStruct : UScriptStruct).

Definition GetSuperStruct (Struct : UScriptStruct) : option UScriptStruct :=
  match Struct with
  | BaseStruct _ => None
  | DerivedStruct _ Super => Some Super
  end.

Fixpoint UScriptStruct_eqb (A B : UScriptStruct) : bool :=
  match A, B with
  | BaseStruct a, BaseStruct b => String.eqb a b
  | DerivedStruct a SA, DerivedStruct b SB =>
      String.eqb a b && UScriptStruct_eqb SA SB
  | _, _ => false
  end.

(** Modelled from the spec: [UStruct::IsChildOf(SomeBase)], the "same
    as or a descendant (is-a) of" test: false for a null base,
    otherwise walk the super chain starting at the struct itself and
    compare. *)
Fixpoint IsChildOfStruct (This SomeBase : UScriptStruct) : bool :=
  UScriptStruct_eqb This SomeBase ||
  match This with
  | BaseStruct _ => false
  | DerivedStruct _ Super => IsChildOfStruct Super SomeBase
  end.

Definition IsChildOf (This : UScriptStruct) (SomeBase : option UScriptStruct) : bool :=
  match SomeBase with
  | None => false
  | Some Base => IsChildOfStruct This Base
  end.

(** The payload travels as [const void*]: an address nobody in the
    subsystem dereferences. *)
Abbreviation VoidPtr := Z (only parsing).

(** A [TFunction] stored in a listener is named by an identifier; what
    running it does is given by the environment of a broadcast. *)
Abbreviation TFunctionId := nat (only parsing).

(** ** DanzmannGameplayMessagesListener.h *)

Inductive EDanzmannGameplayMessagesMatchCriteria : Type :=
| ExactMatch
| PartialMatch.

Definition MatchCriteria_eqb (a b : EDanzmannGameplayMessagesMatchCriteria) : bool :=
  match a, b with
  | ExactMatch, ExactMatch | PartialMatch, PartialMatch => true
  | _, _ => false
  end.

Record FDanzmannGameplayMessagesListenerHandle : Type := MakeHandle {
  Channel : FGameplayTag;
  Id : Z
}.

(** The default-constructed handle: [Channel = FGameplayTag()], [Id = 0]. *)
Definition DefaultHandle : FDanzmannGameplayMessagesListenerHandle :=
  {| Channel := []; Id := 0 |}.

Definition IsValid (Handle : FDanzmannGameplayMessagesListenerHandle) : bool :=
  negb (Id Handle =? 0).

Record FDanzmannGameplayMessagesListenerData : Type := MakeListenerData {
  HandleId : Z;
  Callback : TFunctionId;
  (* TWeakObjectPtr<const UScriptStruct>; None is the null pointer *)
  GameplayMessageStructType : option UScriptStruct;
  bHasValidType : bool;
  MatchCriteria : EDanzmannGameplayMessagesMatchCriteria
}.

(** ** DanzmannGameplayMessagesSubsystem.h *)

Record FDanzmannChannelListenerList : Type := MakeListenerList {
  Listeners : list FDanzmannGameplayMessagesListenerData;
  AvailableHandleId : Z
}.

(** A default-constructed list, as [TMap::FindOrAdd] creates it. *)
Definition DefaultListenerList : FDanzmannChannelListenerList :=
  {| Listeners := []; AvailableHandleId := 0 |}.

(** [TMap<FGameplayTag, FDanzmannChannelListenerList> ListenerMap]. *)
Abbreviation TListenerMap := (gmap (list string) FDanzmannChannelListenerList) (only parsing).

(** ** int32 arithmetic *)

Definition INT32_MAX : Z := 2147483647.

(** Two's complement wrap-around of an [int32] result. *)
Definition wrap_int32 (x : Z) : Z := (x + 2 ^ 31) mod 2 ^ 32 - 2 ^ 31.

(** ** TArray operations used by the subsystem *)

(** [TArray::IndexOfByPredicate]: the first index whose element
    satisfies the predicate; [None] stands for [INDEX_NONE]. *)
Fixpoint IndexOfByPredicate {A : Type} (Pred : A -> bool) (Array : list A) : option nat :=
  match Array with
  | [] => None
  | x :: rest =>
      if Pred x then Some 0%nat
      else match IndexOfByPredicate Pred rest with
           | Some i => Some (S i)
           | None => None
           end
  end.

(** [TArray::RemoveAtSwap(Index)]: the last element is moved into the
    hole and the array shrinks by one, so the order is not preserved. *)
Definition RemoveAtSwap {A : Type} (Index : nat) (Array : list A) : list A :=
  match last Array with
  | Some Last => take (length Array - 1)%nat (<[Index := Last]> Array)
  | None => Array
  end.

(** ** Diagnostics and the instrumented trace of a broadcast *)

Inductive Event : Type :=
(* Listener.Callback(Channel, GameplayMessageStructType, GameplayMessagePayload),
   tagged with the level [Tag] whose list held [Listener] *)
| CallbackInvoked (Tag : FGameplayTag) (Listener : FDanzmannGameplayMessagesListenerData)
    (Channel : FGameplayTag) (StructType : UScriptStruct) (Payload : VoidPtr)
(* Warning: "struct type has gone invalid on channel %s. Removing listener from list." *)
| WarningStaleListener (Channel : FGameplayTag)
(* Error: "struct type mismatch on channel %s. Broadcast type %s, listener at %s
   was expecting type %s." *)
| ErrorTypeMismatch (Channel : FGameplayTag) (BroadcastType : UScriptStruct)
    (Tag : FGameplayTag) (ExpectedType : option UScriptStruct)
(* Warning: "Trying to unregister an invalid handle." *)
| WarningInvalidHandle.

(** ** The subsystem's operations *)

(** [RegisterListener_Internal]: find or add the channel's list, append
    an entry whose id is the pre-incremented counter of that list. *)
Definition RegisterListener_Internal (ListenerMap : TListenerMap)
    (Channel : FGameplayTag) (Callback : TFunctionId)
    (GameplayMessageStructType : option UScriptStruct)
    (ChannelMatchCriteria : EDanzmannGameplayMessagesMatchCriteria)
  : TListenerMap * FDanzmannGameplayMessagesListenerHandle :=
  let ListenersList := default DefaultListenerList (ListenerMap !! Channel) in
  let NewId := wrap_int32 (AvailableHandleId ListenersList + 1) in
  let Entry :=
    {| HandleId := NewId;
       Callback := Callback;
       GameplayMessageStructType := GameplayMessageStructType;
       bHasValidType := bool_decide (GameplayMessageStructType <> None);
       MatchCriteria := ChannelMatchCriteria |} in
  (<[Channel := {| Listeners := Listeners ListenersList ++ [Entry];
                   AvailableHandleId := NewId |}]> ListenerMap,
   {| Channel := Channel; Id := NewId |}).

(** [UnregisterListener_Internal]: remove the first entry with that id
    from the channel's list, then drop the channel when its list is
    empty. *)
Definition UnregisterListener_Internal (ListenerMap : TListenerMap)
    (Channel : FGameplayTag) (HandleId' : Z) : TListenerMap :=
  match ListenerMap !! Channel with
  | Some ListenersList =>
      let Remaining :=
        match IndexOfByPredicate (fun Other => HandleId Other =? HandleId')
                (Listeners ListenersList) with
        | Some MatchIndex => RemoveAtSwap MatchIndex (Listeners ListenersList)
        | None => Listeners ListenersList
        end in
      match Remaining with
      | [] => delete Channel ListenerMap
      | _ :: _ =>
          <[Channel := {| Listeners := Remaining;
                          AvailableHandleId := AvailableHandleId ListenersList |}]>
            ListenerMap
      end
  | None => ListenerMap
  end.

(** [UnregisterListener]: the public entry point; an invalid handle is
    only logged. *)
Definition UnregisterListener (ListenerMap : TListenerMap)
    (Handle : FDanzmannGameplayMessagesListenerHandle)
  : TListenerMap * list Event :=
  if IsValid Handle
  then (UnregisterListener_Internal ListenerMap (Channel Handle) (Id Handle), [])
  else (ListenerMap, [WarningInvalidHandle]).

Section Broadcast.

(** [TWeakObjectPtr::IsValid] of a weak pointer to the given struct:
    whether the struct object is still alive.  Struct objects are not
    collected while a broadcast is on the stack. *)
Variable StructIsAlive : UScriptStruct -> bool.

(** What the body of a stored [TFunction] does to the subsystem when
    it is called with (channel, struct type, payload): callbacks reach
    the subsystem again and register, unregister or broadcast. *)
Variable Invoke :
  TFunctionId -> FGameplayTag -> UScriptStruct -> VoidPtr -> TListenerMap -> TListenerMap.

Definition WeakPtrIsValid (Ptr : option UScriptStruct) : bool :=
  match Ptr with
  | Some Struct => StructIsAlive Struct
  | None => false
  end.

(** [TWeakObjectPtr::Get]: the pointer when it is valid, else null. *)
Definition WeakPtrGet (Ptr : option UScriptStruct) : option UScriptStruct :=
  if WeakPtrIsValid Ptr then Ptr else None.

(** The body of the inner range-for, for one [Listener] of the copy.
    The broadcast's struct type and payload are called
    [MessageStructType] and [MessagePayload] here, the field of the
    listener keeps the name [GameplayMessageStructType]. *)
Definition BroadcastToListener (Channel : FGameplayTag)
    (MessageStructType : UScriptStruct) (MessagePayload : VoidPtr)
    (Tag : FGameplayTag) (bOnInitialTag : bool)
    (State : TListenerMap * list Event)
    (Listener : FDanzmannGameplayMessagesListenerData)
  : TListenerMap * list Event :=
  let '(ListenerMap, Log) := State in
  if bOnInitialTag || MatchCriteria_eqb (MatchCriteria Listener) PartialMatch then
    if bHasValidType Listener && negb (WeakPtrIsValid (GameplayMessageStructType Listener))
    then
      (UnregisterListener_Internal ListenerMap Channel (HandleId Listener),
       Log ++ [WarningStaleListener Channel])
    else if negb (bHasValidType Listener)
            || IsChildOf MessageStructType
                 (WeakPtrGet (GameplayMessageStructType Listener))
    then
      (Invoke (Callback Listener) Channel MessageStructType
         MessagePayload ListenerMap,
       Log ++ [CallbackInvoked Tag Listener Channel MessageStructType
                 MessagePayload])
    else
      (ListenerMap,
       Log ++ [ErrorTypeMismatch Channel MessageStructType Tag
                 (GameplayMessageStructType Listener)])
  else State.

(** One iteration of the outer loop: look the tag up, copy its
    listeners, run the inner loop over the copy. *)
Definition BroadcastAtTag (Channel : FGameplayTag)
    (MessageStructType : UScriptStruct) (MessagePayload : VoidPtr)
    (Tag : FGameplayTag) (bOnInitialTag : bool)
    (State : TListenerMap * list Event)
  : TListenerMap * list Event :=
  match State.1 !! Tag with
  | Some ListenersList =>
      let ListenersCopy := Listeners ListenersList in
      foldl (BroadcastToListener Channel MessageStructType
               MessagePayload Tag bOnInitialTag)
            State ListenersCopy
  | None => State
  end.

(** The outer loop
    [for (Tag = Channel; Tag.IsValid(); Tag = Tag.RequestDirectParent())]. *)
Fixpoint BroadcastFromTag (Channel : FGameplayTag)
    (MessageStructType : UScriptStruct) (MessagePayload : VoidPtr)
    (Tag : FGameplayTag) (bOnInitialTag : bool)
    (State : TListenerMap * list Event)
  : TListenerMap * list Event :=
  match Tag with
  | [] => State
  | _ :: DirectParent =>
      BroadcastFromTag Channel MessageStructType MessagePayload
        DirectParent false
        (BroadcastAtTag Channel MessageStructType MessagePayload
           Tag bOnInitialTag State)
  end.

Definition BroadcastGameplayMessage_Internal (ListenerMap : TListenerMap)
    (Channel : FGameplayTag) (MessageStructType : UScriptStruct)
    (MessagePayload : VoidPtr)
  : TListenerMap * list Event :=
  BroadcastFromTag Channel MessageStructType MessagePayload
    Channel true (ListenerMap, []).

End Broadcast.


(** ** The public wrappers and the teardown *)

(** [Deinitialize]: [ListenerMap.Reset()] before the base class is torn
    down. *)
Definition Deinitialize (ListenerMap : TListenerMap) : TListenerMap := ∅.

(** [BroadcastGameplayMessage<TGameplayMessage>]: the struct of the
    message type is [TBaseStructure<TGameplayMessage>::Get()], the
    payload the address of the message. *)
Definition BroadcastGameplayMessage (StructIsAlive : UScriptStruct -> bool)
    (Invoke : TFunctionId -> FGameplayTag -> UScriptStruct -> VoidPtr ->
              TListenerMap -> TListenerMap)
    (ListenerMap : TListenerMap) (Channel : FGameplayTag)
    (MessageStruct : UScriptStruct) (GameplayMessage : VoidPtr)
  : TListenerMap * list Event :=
  BroadcastGameplayMessage_Internal StructIsAlive Invoke ListenerMap Channel
    MessageStruct GameplayMessage.

(** [RegisterListener<TGameplayMessage>] with a lambda: the stored
    callback is the [GenericCallback] closure and the expected type is
    [TBaseStructure<TGameplayMessage>::Get()], never null. *)
Definition RegisterListener (ListenerMap : TListenerMap)
    (Channel : FGameplayTag) (GenericCallback : TFunctionId)
    (GameplayMessageStructType : UScriptStruct)
    (ChannelMatchCriteria : EDanzmannGameplayMessagesMatchCriteria)
  : TListenerMap * FDanzmannGameplayMessagesListenerHandle :=
  RegisterListener_Internal ListenerMap Channel GenericCallback
    (Some GameplayMessageStructType) ChannelMatchCriteria.

(** The closure [GenericCallback] of [RegisterListener]: it drops the
    struct type and hands channel and payload (cast to the message
    type) to the registered callback. *)
Definition GenericCallback
    (RegisteredCallback : FGameplayTag -> VoidPtr -> TListenerMap -> TListenerMap)
  : FGameplayTag -> UScriptStruct -> VoidPtr -> TListenerMap -> TListenerMap :=
  fun ChannelToRegister _ GameplayMessagePayload ListenerMap =>
    RegisteredCallback ChannelToRegister GameplayMessagePayload ListenerMap.

(** A [UObject] is named by an identifier; [ObjectIsValid] below is
    [TWeakObjectPtr::IsValid] of a weak pointer to it. *)
Abbreviation UObject := nat (only parsing).

(** The closure of the member-function overload of [RegisterListener]:
    the member function runs only while the weak pointer to the
    listening object is valid. *)
Definition MemberFunctionCallback (ObjectIsValid : UObject -> bool)
    (WeakListener : UObject)
    (Callback : UObject -> FGameplayTag -> VoidPtr -> TListenerMap -> TListenerMap)
  : FGameplayTag -> VoidPtr -> TListenerMap -> TListenerMap :=
  fun ChannelToRegister GameplayMessage ListenerMap =>
    if ObjectIsValid WeakListener
    then Callback WeakListener ChannelToRegister GameplayMessage ListenerMap
    else ListenerMap.

(** ** Notions the properties are stated with *)

(** "Same as or derived from": [S] is [Base] or [Base] occurs in the
    chain of super structs of [S]. *)
Inductive IsA : UScriptStruct -> UScriptStruct -> Prop :=
| IsA_same (Struct : UScriptStruct) : IsA Struct Struct
| IsA_derived (Name : string) (Super Base : UScriptStruct) :
    IsA Super Base -> IsA (DerivedStruct Name Super) Base.

(** The listeners stored under a key (none when the key is absent). *)
Definition ListenersAt (ListenerMap : TListenerMap) (Tag : FGameplayTag)
  : list FDanzmannGameplayMessagesListenerData :=
  match ListenerMap !! Tag with
  | Some ListenersList => Listeners ListenersList
  | None => []
  end.

(** The registry as it is when the walk that starts at [From] with the
    flag [bOnInitialTag] reaches [Target]: the levels below [Target]
    have run, callbacks and purges included, and [Target] itself has
    not. *)
Fixpoint RegistryOnReaching (StructIsAlive : UScriptStruct -> bool)
    (Invoke : TFunctionId -> FGameplayTag -> UScriptStruct -> VoidPtr ->
              TListenerMap -> TListenerMap)
    (Channel : FGameplayTag) (MessageStructType : UScriptStruct)
    (MessagePayload : VoidPtr) (From : FGameplayTag) (bOnInitialTag : bool)
    (ListenerMap : TListenerMap) (Target : FGameplayTag) : TListenerMap :=
  match From with
  | [] => ListenerMap
  | Segment :: DirectParent =>
      if decide (Segment :: DirectParent = Target) then ListenerMap
      else
        RegistryOnReaching StructIsAlive Invoke Channel MessageStructType
          MessagePayload DirectParent false
          (BroadcastAtTag StructIsAlive Invoke Channel MessageStructType
             MessagePayload (Segment :: DirectParent) bOnInitialTag
             (ListenerMap, [])).1
          Target
  end.

(** The list a broadcast on [Channel] copies at the level [Tag]: what is
    stored under [Tag] when the walk reaches it. *)
Definition CopyAt (StructIsAlive : UScriptStruct -> bool)
    (Invoke : TFunctionId -> FGameplayTag -> UScriptStruct -> VoidPtr ->
              TListenerMap -> TListenerMap)
    (ListenerMap : TListenerMap) (Channel : FGameplayTag)
    (MessageStructType : UScriptStruct) (MessagePayload : VoidPtr)
    (Tag : FGameplayTag) : list FDanzmannGameplayMessagesListenerData :=
  ListenersAt
    (RegistryOnReaching StructIsAlive Invoke Channel MessageStructType
       MessagePayload Channel true ListenerMap Tag)
    Tag.

(** The type test of the inner loop in words: the entry is a wildcard,
    or the broadcast type is its expected type or derived from it. *)
Definition Compatible (MessageStructType : UScriptStruct)
    (Listener : FDanzmannGameplayMessagesListenerData) : Prop :=
  bHasValidType Listener = false
  \/ exists Expected, GameplayMessageStructType Listener = Some Expected
                      /\ IsA MessageStructType Expected.

(** The counter of a key (0 when the key is absent, as a fresh list). *)
Definition CounterAt (ListenerMap : TListenerMap) (Tag : FGameplayTag) : Z :=
  AvailableHandleId (default DefaultListenerList (ListenerMap !! Tag)).

(** The level gate of the inner loop. *)
Definition Eligible (bOnInitialTag : bool)
    (Listener : FDanzmannGameplayMessagesListenerData) : bool :=
  bOnInitialTag || MatchCriteria_eqb (MatchCriteria Listener) PartialMatch.

(** The staleness test of the inner loop. *)
Definition Stale (StructIsAlive : UScriptStruct -> bool)
    (Listener : FDanzmannGameplayMessagesListenerData) : bool :=
  bHasValidType Listener
  && negb (WeakPtrIsValid StructIsAlive (GameplayMessageStructType Listener)).

(** What a broadcast emits for one entry of a copied list, as a function
    of the entry alone. *)
Definition EntryVerdict (StructIsAlive : UScriptStruct -> bool)
    (Channel : FGameplayTag) (MessageStructType : UScriptStruct)
    (MessagePayload : VoidPtr) (Tag : FGameplayTag) (bOnInitialTag : bool)
    (Listener : FDanzmannGameplayMessagesListenerData) : list Event :=
  if Eligible bOnInitialTag Listener then
    if Stale StructIsAlive Listener then [WarningStaleListener Channel]
    else if negb (bHasValidType Listener)
            || IsChildOf MessageStructType
                 (WeakPtrGet StructIsAlive (GameplayMessageStructType Listener))
    then [CallbackInvoked Tag Listener Channel MessageStructType MessagePayload]
    else [ErrorTypeMismatch Channel MessageStructType Tag
            (GameplayMessageStructType Listener)]
  else [].

(** The callback invocations of a trace: level and entry, in order. *)
Definition DeliveryOf (E : Event)
  : option (FGameplayTag * FDanzmannGameplayMessagesListenerData) :=
  match E with
  | CallbackInvoked Tag Listener _ _ _ => Some (Tag, Listener)
  | _ => None
  end.

Definition Deliveries (Trace : list Event)
  : list (FGameplayTag * FDanzmannGameplayMessagesListenerData) :=
  omap DeliveryOf Trace.

(** The values [Tag] takes in the outer loop of a broadcast. *)
Fixpoint VisitedTags (Tag : FGameplayTag) : list FGameplayTag :=
  match Tag with
  | [] => []
  | _ :: DirectParent => Tag :: VisitedTags DirectParent
  end.

(** [Ancestor] is [Tag] itself or one of its ancestors. *)
Definition IsAncestorOrSelf (Ancestor Tag : FGameplayTag) : Prop :=
  Ancestor <> [] /\ Ancestor `suffix_of` Tag.

(** Registry invariants. *)

(** A key is present if and only if its listener list is non-empty. *)
Definition PresenceInvariant (ListenerMap : TListenerMap) : Prop :=
  forall Tag : FGameplayTag,
    is_Some (ListenerMap !! Tag) <-> ListenersAt ListenerMap Tag <> [].

(** No empty list is stored. *)
Definition NoEmptyList (ListenerMap : TListenerMap) : Prop :=
  forall (Tag : FGameplayTag) (ListenersList : FDanzmannChannelListenerList),
    ListenerMap !! Tag = Some ListenersList -> Listeners ListenersList <> [].

(** Whether a broadcast calls the entry: level gate, staleness test and
    type test of the inner loop. *)
Definition Receives (StructIsAlive : UScriptStruct -> bool)
    (MessageStructType : UScriptStruct) (bOnInitialTag : bool)
    (Listener : FDanzmannGameplayMessagesListenerData) : bool :=
  Eligible bOnInitialTag Listener
  && negb (Stale StructIsAlive Listener)
  && (negb (bHasValidType Listener)
      || IsChildOf MessageStructType
           (WeakPtrGet StructIsAlive (GameplayMessageStructType Listener))).

(** The list [UnregisterListener_Internal] leaves behind. *)
Definition RemainingAfter (HandleId' : Z)
    (Entries : list FDanzmannGameplayMessagesListenerData)
  : list FDanzmannGameplayMessagesListenerData :=
  match IndexOfByPredicate (fun Other => HandleId Other =? HandleId') Entries with
  | Some MatchIndex => RemoveAtSwap MatchIndex Entries
  | None => Entries
  end.

(** Handle ids are pairwise distinct within each list. *)
Definition UniqueHandleIds (ListenerMap : TListenerMap) : Prop :=
  forall (Tag : FGameplayTag) (ListenersList : FDanzmannChannelListenerList),
    ListenerMap !! Tag = Some ListenersList ->
    NoDup (HandleId <$> Listeners ListenersList).

(** Every id of a list was issued by the counter of that list. *)
Definition IdsWithinCounter (ListenerMap : TListenerMap) : Prop :=
  forall (Tag : FGameplayTag) (ListenersList : FDanzmannChannelListenerList),
    ListenerMap !! Tag = Some ListenersList ->
    Forall (fun Entry => 1 <= HandleId Entry <= AvailableHandleId ListenersList)
      (Listeners ListenersList).

(** The registries the operations produce: no empty list, distinct
    ids issued by the counters, counters between 0 and [Bound]. *)
Definition WellFormed (Bound : Z) (ListenerMap : TListenerMap) : Prop :=
  NoEmptyList ListenerMap
  /\ UniqueHandleIds ListenerMap
  /\ IdsWithinCounter ListenerMap
  /\ forall Tag : FGameplayTag, 0 <= CounterAt ListenerMap Tag <= Bound.

(** Sequences of registrations and unregistrations. *)
Inductive Operation : Type :=
| OpRegister (Channel : FGameplayTag) (Callback : TFunctionId)
    (StructType : option UScriptStruct)
    (Criteria : EDanzmannGameplayMessagesMatchCriteria)
| OpUnregister (Handle : FDanzmannGameplayMessagesListenerHandle).

Definition ApplyOperation (Op : Operation) (ListenerMap : TListenerMap)
  : TListenerMap * list FDanzmannGameplayMessagesListenerHandle :=
  match Op with
  | OpRegister C Cb T Crit =>
      let R := RegisterListener_Internal ListenerMap C Cb T Crit in (R.1, [R.2])
  | OpUnregister H => ((UnregisterListener ListenerMap H).1, [])
  end.

(** Runs the operations in order and collects the handles returned. *)
Fixpoint RunOperations (Ops : list Operation) (ListenerMap : TListenerMap)
  : TListenerMap * list FDanzmannGameplayMessagesListenerHandle :=
  match Ops with
  | [] => (ListenerMap, [])
  | Op :: Rest =>
      let R := ApplyOperation Op ListenerMap in
      let R' := RunOperations Rest R.1 in
      (R'.1, R.2 ++ R'.2)
  end.

(** Callbacks that reach the subsystem through its operations: each
    call runs a script of registrations and unregistrations, chosen
    from the arguments and the registry it finds. *)
Definition ScriptedInvoke
    (Script : TFunctionId -> FGameplayTag -> UScriptStruct -> VoidPtr ->
              TListenerMap -> list Operation)
  : TFunctionId -> FGameplayTag -> UScriptStruct -> VoidPtr ->
    TListenerMap -> TListenerMap :=
  fun Cb C T P ListenerMap => (RunOperations (Script Cb C T P ListenerMap) ListenerMap).1.

(** The callbacks a run registers on one channel, in order. *)
Fixpoint RegisteredCallbacks (Tag : FGameplayTag) (Ops : list Operation)
  : list TFunctionId :=
  match Ops with
  | [] => []
  | OpRegister C Cb _ _ :: Rest =>
      if decide (C = Tag) then Cb :: RegisteredCallbacks Tag Rest
      else RegisteredCallbacks Tag Rest
  | OpUnregister _ :: Rest => RegisteredCallbacks Tag Rest
  end.

(** The ids issued on one channel by a run. *)
Definition IssuedIds (Tag : FGameplayTag)
    (Handles : list FDanzmannGameplayMessagesListenerHandle) : list Z :=
  Id <$> filter (fun H => Channel H = Tag) Handles.

(** No step of the run drops the key of the channel from the map. *)
Fixpoint ChannelKept (Tag : FGameplayTag) (Ops : list Operation)
    (ListenerMap : TListenerMap) : Prop :=
  match Ops with
  | [] => True
  | Op :: Rest =>
      let Next := (ApplyOperation Op ListenerMap).1 in
      (is_Some (ListenerMap !! Tag) -> is_Some (Next !! Tag))
      /\ ChannelKept Tag Rest Next
  end.

(** ** A small world used for the concrete instances below *)

Module World.

Definition TagA : FGameplayTag := RequestGameplayTag ["A"].
Definition TagAB : FGameplayTag := RequestGameplayTag ["A"; "B"].
Definition TagABC : FGameplayTag := RequestGameplayTag ["A"; "B"; "C"].

Definition Death : UScriptStruct := BaseStruct "Death".
Definition Kill : UScriptStruct := BaseStruct "Kill".
Definition HeroDeath : UScriptStruct := DerivedStruct "HeroDeath" Death.

Definition AllAlive (Struct : UScriptStruct) : bool := true.

(** [Kill] has been destroyed, every other struct is alive. *)
Definition KillIsDead (Struct : UScriptStruct) : bool :=
  negb (UScriptStruct_eqb Struct Kill).

(** Callbacks that leave the subsystem alone. *)
Definition Quiet (Cb : TFunctionId) (C : FGameplayTag) (T : UScriptStruct)
    (P : VoidPtr) (ListenerMap : TListenerMap) : TListenerMap :=
  ListenerMap.

(** Callback 1 registers callback 7 on "A" with PartialMatch; every
    other callback leaves the subsystem alone. *)
Definition RegistersOnParent (Cb : TFunctionId) (C : FGameplayTag)
    (T : UScriptStruct) (P : VoidPtr) (ListenerMap : TListenerMap)
  : TListenerMap :=
  match Cb with
  | 1%nat => (RegisterListener_Internal ListenerMap TagA 7%nat None PartialMatch).1
  | _ => ListenerMap
  end.

(** The script of [RegistersOnParent]: one registration for callback 1,
    nothing for the others. *)
Definition RegistersOnParentScript (Cb : TFunctionId) (C : FGameplayTag)
    (T : UScriptStruct) (P : VoidPtr) (ListenerMap : TListenerMap)
  : list Operation :=
  match Cb with
  | 1%nat => [OpRegister TagA 7%nat None PartialMatch]
  | _ => []
  end.

(** Callback 1 unregisters handle ("A.B", 1), its own registration in
    the registries below. *)
Definition UnregistersItself (Cb : TFunctionId) (C : FGameplayTag)
    (T : UScriptStruct) (P : VoidPtr) (ListenerMap : TListenerMap)
  : TListenerMap :=
  match Cb with
  | 1%nat => (UnregisterListener ListenerMap {| Channel := TagAB; Id := 1 |}).1
  | _ => ListenerMap
  end.

(** One Death listener on "A.B". *)
Definition OneOnAB : TListenerMap :=
  (RegisterListener_Internal ∅ TagAB 1%nat (Some Death) ExactMatch).1.

(** A PartialMatch Kill listener on "A" and an ExactMatch Death
    listener on "A.B"; both carry handle id 1 in their own list. *)
Definition ParentAndChild : TListenerMap :=
  (RegisterListener_Internal
     (RegisterListener_Internal ∅ TagA 0%nat (Some Kill) PartialMatch).1
     TagAB 1%nat (Some Death) ExactMatch).1.

End World.

(** * Properties *)

(** ** int32, struct types *)

Lemma wrap_int32_in_range (x : Z) :
  - 2 ^ 31 <= x <= INT32_MAX -> wrap_int32 x = x.
Proof.
  unfold wrap_int32, INT32_MAX. intros Hx.
  rewrite Z.mod_small by lia. lia.
Qed.

Lemma UScriptStruct_eqb_eq (A B : UScriptStruct) :
  UScriptStruct_eqb A B = true <-> A = B.
Proof.
  revert B. induction A as [a | a SA IH]; intros [b | b SB]; simpl;
    try (split; [discriminate | congruence]).
  - rewrite String.eqb_eq. split; congruence.
  - rewrite andb_true_iff, String.eqb_eq, IH. split.
    + intros [-> ->]. reflexivity.
    + intros Heq. injection Heq as -> ->. split; reflexivity.
Qed.

Lemma UScriptStruct_eqb_refl (A : UScriptStruct) : UScriptStruct_eqb A A = true.
Proof. apply UScriptStruct_eqb_eq. reflexivity. Qed.

Lemma IsChildOfStruct_IsA (This Base : UScriptStruct) :
  IsChildOfStruct This Base = true <-> IsA This Base.
Proof.
  split.
  - induction This as [a | a Super IH]; cbn [IsChildOfStruct];
      rewrite orb_true_iff; intros [Heq | Hup].
    + apply UScriptStruct_eqb_eq in Heq as <-. constructor.
    + discriminate.
    + apply UScriptStruct_eqb_eq in Heq as <-. constructor.
    + constructor. apply IH, Hup.
  - induction 1 as [Struct | Name Super Base' _ IH].
    + destruct Struct; cbn [IsChildOfStruct];
        rewrite UScriptStruct_eqb_refl; reflexivity.
    + cbn [IsChildOfStruct]. rewrite IH. apply orb_true_r.
Qed.

Lemma IsChildOfStruct_GetSuperStruct (This Base : UScriptStruct) :
  IsChildOfStruct This Base =
  UScriptStruct_eqb This Base
  || match GetSuperStruct This with
     | Some Super => IsChildOfStruct Super Base
     | None => false
     end.
Proof. destruct This; reflexivity. Qed.

(** ** TArray operations *)

Lemma IndexOfByPredicate_None {A : Type} (Pred : A -> bool) (Array : list A) :
  IndexOfByPredicate Pred Array = None <-> Forall (fun x => Pred x = false) Array.
Proof.
  induction Array as [| x rest IH]; simpl.
  - split; [constructor | reflexivity].
  - destruct (Pred x) eqn:Hx.
    + split; [discriminate |]. intros H. apply Forall_cons in H as [H _]. congruence.
    + destruct (IndexOfByPredicate Pred rest) eqn:Hrest.
      * split; [discriminate |]. intros H. apply Forall_cons in H as [_ H].
        apply IH in H. discriminate.
      * split; [| reflexivity]. intros _. constructor; [assumption |].
        apply IH. reflexivity.
Qed.

Lemma IndexOfByPredicate_Some {A : Type} (Pred : A -> bool) (Array : list A) (i : nat) :
  IndexOfByPredicate Pred Array = Some i ->
  exists x, Array !! i = Some x /\ Pred x = true.
Proof.
  revert i. induction Array as [| x rest IH]; simpl; intros i Hi.
  - discriminate.
  - destruct (Pred x) eqn:Hx.
    + injection Hi as <-. exists x. split; [reflexivity | assumption].
    + destruct (IndexOfByPredicate Pred rest) as [j |] eqn:Hrest; [| discriminate].
      injection Hi as <-. destruct (IH j eq_refl) as (y & Hy & Hp).
      exists y. split; assumption.
Qed.

(** Removing by swap keeps exactly the other elements. *)
Lemma RemoveAtSwap_Permutation {A : Type} (Index : nat) (Array : list A) (x : A) :
  Array !! Index = Some x ->
  x :: RemoveAtSwap Index Array ≡ₚ Array.
Proof.
  intros Hx. unfold RemoveAtSwap.
  destruct (list_elem_of_split_length Array Index x Hx) as (l1 & l2 & -> & Hlen).
  destruct (decide (l2 = [])) as [-> | Hne].
  - rewrite last_snoc. rewrite list_insert_id by assumption.
    rewrite length_app. simpl.
    replace (length l1 + 1 - 1)%nat with (length l1) by lia.
    rewrite take_app_length. apply Permutation_cons_append.
  - destruct (exists_last Hne) as (l2' & y & ->).
    replace (l1 ++ x :: l2' ++ [y]) with ((l1 ++ x :: l2') ++ [y])
      by (rewrite <- app_assoc; reflexivity).
    rewrite last_snoc.
    rewrite insert_app_l by (rewrite length_app; simpl; lia).
    subst Index. rewrite insert_app_r_alt by lia.
    rewrite Nat.sub_diag. simpl.
    rewrite length_app.
    replace (length (l1 ++ x :: l2') + length [y] - 1)%nat
      with (length (l1 ++ y :: l2'))
      by (rewrite !length_app; simpl; lia).
    rewrite take_app_length.
    rewrite <- app_assoc. simpl.
    rewrite <- (Permutation_middle l1 (l2' ++ [y]) x).
    apply perm_skip, Permutation_app_head, Permutation_cons_append.
Qed.

Lemma PresenceInvariant_NoEmptyList (ListenerMap : TListenerMap) :
  PresenceInvariant ListenerMap <-> NoEmptyList ListenerMap.
Proof.
  unfold PresenceInvariant, NoEmptyList, ListenersAt. split.
  - intros Hpres Tag L HL. specialize (Hpres Tag). rewrite HL in Hpres.
    apply Hpres. eexists. reflexivity.
  - intros Hne Tag. destruct (ListenerMap !! Tag) as [L |] eqn:HL.
    + split; [intros _; eapply Hne, HL | intros _; eexists; reflexivity].
    + split; [intros [? ?]; discriminate | intros Hnil; contradiction].
Qed.

Example RemoveAtSwap_middle : RemoveAtSwap 1 [10; 20; 30; 40] = [10; 40; 30].
Proof. reflexivity. Qed.

Example RemoveAtSwap_last : RemoveAtSwap 2 [10; 20; 30] = [10; 20].
Proof. reflexivity. Qed.

Example IsChildOf_direction :
  IsChildOf World.HeroDeath (Some World.Death) = true
  /\ IsChildOf World.Death (Some World.HeroDeath) = false
  /\ IsChildOf World.Death (Some World.Kill) = false
  /\ IsChildOf World.Death None = false.
Proof. repeat split. Qed.

(** Sub-multisets inherit distinctness and pointwise properties. *)
Lemma NoDup_of_submseteq {A : Type} (l k : list A) :
  l ⊆+ k -> NoDup k -> NoDup l.
Proof.
  intros Hsub Hnd. apply submseteq_Permutation in Hsub as [k' Hk'].
  rewrite Hk' in Hnd. apply NoDup_app in Hnd as [Hl _]. exact Hl.
Qed.

Lemma Forall_of_submseteq {A : Type} (P : A -> Prop) (l k : list A) :
  l ⊆+ k -> Forall P k -> Forall P l.
Proof.
  intros Hsub Hall. rewrite Forall_forall in *.
  intros x Hx. apply Hall. eapply elem_of_submseteq; eassumption.
Qed.

(** ** Unregistration *)

Lemma RemainingAfter_cases (k : Z) (Entries : list FDanzmannGameplayMessagesListenerData) :
  (Forall (fun E => HandleId E <> k) Entries /\ RemainingAfter k Entries = Entries)
  \/ (exists E, HandleId E = k /\ E :: RemainingAfter k Entries ≡ₚ Entries).
Proof.
  unfold RemainingAfter.
  destruct (IndexOfByPredicate _ Entries) as [i |] eqn:Hidx.
  - right. apply IndexOfByPredicate_Some in Hidx as (E & HE & Hk).
    exists E. split; [lia |]. apply RemoveAtSwap_Permutation, HE.
  - left. split; [| reflexivity].
    apply IndexOfByPredicate_None in Hidx.
    eapply Forall_impl; [exact Hidx |]. simpl. intros E HE. lia.
Qed.

Lemma RemainingAfter_submseteq (k : Z) (Entries : list FDanzmannGameplayMessagesListenerData) :
  RemainingAfter k Entries ⊆+ Entries.
Proof.
  destruct (RemainingAfter_cases k Entries) as [[_ ->] | (E & _ & Hperm)].
  - reflexivity.
  - transitivity (E :: RemainingAfter k Entries).
    + apply submseteq_cons. reflexivity.
    + apply Permutation_submseteq, Hperm.
Qed.

Lemma RemainingAfter_no_match (k : Z) (Entries : list FDanzmannGameplayMessagesListenerData) :
  Forall (fun E => HandleId E <> k) Entries -> RemainingAfter k Entries = Entries.
Proof.
  intros Hall. destruct (RemainingAfter_cases k Entries) as [[_ ->] | (E & Hk & Hperm)].
  - reflexivity.
  - exfalso. rewrite Forall_forall in Hall. apply (Hall E); [| assumption].
    rewrite <- Hperm. left.
Qed.

Lemma RemainingAfter_NoDup (k : Z) (Entries : list FDanzmannGameplayMessagesListenerData) :
  NoDup (HandleId <$> Entries) -> NoDup (HandleId <$> RemainingAfter k Entries).
Proof.
  intros Hnd. eapply NoDup_of_submseteq; [| exact Hnd].
  apply fmap_submseteq, RemainingAfter_submseteq.
Qed.

(** With distinct ids, the id is gone from the list after removal. *)
Lemma RemainingAfter_id_gone (k : Z) (Entries : list FDanzmannGameplayMessagesListenerData) :
  NoDup (HandleId <$> Entries) ->
  Forall (fun E => HandleId E <> k) (RemainingAfter k Entries).
Proof.
  intros Hnd. destruct (RemainingAfter_cases k Entries) as [[Hall ->] | (E & Hk & Hperm)].
  - assumption.
  - rewrite <- Hperm in Hnd. rewrite fmap_cons in Hnd.
    apply NoDup_cons in Hnd as [Hnotin _].
    rewrite Forall_forall. intros E' HE' Heq. apply Hnotin.
    replace (HandleId E) with (HandleId E') by congruence.
    apply list_elem_of_fmap_2, HE'.
Qed.

Lemma UnregisterListener_Internal_unfold (ListenerMap : TListenerMap)
    (Tag : FGameplayTag) (k : Z) :
  UnregisterListener_Internal ListenerMap Tag k =
  match ListenerMap !! Tag with
  | Some ListenersList =>
      match RemainingAfter k (Listeners ListenersList) with
      | [] => delete Tag ListenerMap
      | Remaining =>
          <[Tag := {| Listeners := Remaining;
                      AvailableHandleId := AvailableHandleId ListenersList |}]>
            ListenerMap
      end
  | None => ListenerMap
  end.
Proof.
  unfold UnregisterListener_Internal, RemainingAfter.
  destruct (ListenerMap !! Tag) as [L |]; [| reflexivity].
  destruct (IndexOfByPredicate _ (Listeners L)) as [i |].
  - destruct (RemoveAtSwap i (Listeners L)); reflexivity.
  - destruct (Listeners L); reflexivity.
Qed.

(** Other keys are not touched. *)
Lemma UnregisterListener_Internal_lookup_ne (ListenerMap : TListenerMap)
    (Tag Other : FGameplayTag) (k : Z) :
  Tag <> Other ->
  UnregisterListener_Internal ListenerMap Tag k !! Other = ListenerMap !! Other.
Proof.
  intros Hne. rewrite UnregisterListener_Internal_unfold.
  destruct (ListenerMap !! Tag) as [L |]; [| reflexivity].
  destruct (RemainingAfter k (Listeners L)).
  - apply lookup_delete_ne, Hne.
  - apply lookup_insert_ne, Hne.
Qed.

(** What is stored under the key afterwards. *)
Lemma UnregisterListener_Internal_lookup_eq (ListenerMap : TListenerMap)
    (Tag : FGameplayTag) (k : Z) (Stored : FDanzmannChannelListenerList) :
  UnregisterListener_Internal ListenerMap Tag k !! Tag = Some Stored ->
  exists ListenersList,
    ListenerMap !! Tag = Some ListenersList
    /\ AvailableHandleId Stored = AvailableHandleId ListenersList
    /\ (Listeners Stored = RemainingAfter k (Listeners ListenersList)
        \/ (Listeners ListenersList = [] /\ Stored = ListenersList)).
Proof.
  rewrite UnregisterListener_Internal_unfold.
  destruct (ListenerMap !! Tag) as [L |] eqn:HL.
  - destruct (RemainingAfter k (Listeners L)) as [| E Rest] eqn:Hrem.
    + rewrite lookup_delete_eq. discriminate.
    + rewrite lookup_insert_eq. intros [= <-]. exists L. simpl. auto.
  - rewrite HL. discriminate.
Qed.

(** A handle that matches no entry: nothing changes, provided no empty
    list is stored. *)
Lemma UnregisterListener_Internal_no_match (ListenerMap : TListenerMap)
    (Tag : FGameplayTag) (k : Z) :
  NoEmptyList ListenerMap ->
  Forall (fun E => HandleId E <> k) (ListenersAt ListenerMap Tag) ->
  UnregisterListener_Internal ListenerMap Tag k = ListenerMap.
Proof.
  intros Hpres Hall. rewrite UnregisterListener_Internal_unfold.
  unfold ListenersAt in Hall.
  destruct (ListenerMap !! Tag) as [L |] eqn:HL; [| reflexivity].
  rewrite (RemainingAfter_no_match _ _ Hall).
  destruct (Listeners L) as [| E Rest] eqn:HLs.
  - exfalso. exact (Hpres _ _ HL HLs).
  - apply insert_id. rewrite HL, <- HLs. destruct L; reflexivity.
Qed.

Lemma UnregisterListener_Internal_NoEmptyList (ListenerMap : TListenerMap)
    (Tag : FGameplayTag) (k : Z) :
  NoEmptyList ListenerMap ->
  NoEmptyList (UnregisterListener_Internal ListenerMap Tag k).
Proof.
  intros Hpres Other Stored Hlook.
  destruct (decide (Tag = Other)) as [<- | Hne].
  - rewrite UnregisterListener_Internal_unfold in Hlook.
    destruct (ListenerMap !! Tag) as [L |] eqn:HL.
    + destruct (RemainingAfter k (Listeners L)) as [| E Rest].
      * rewrite lookup_delete_eq in Hlook. discriminate.
      * rewrite lookup_insert_eq in Hlook. injection Hlook as <-. discriminate.
    + rewrite HL in Hlook. discriminate.
  - rewrite UnregisterListener_Internal_lookup_ne in Hlook by assumption.
    eapply Hpres, Hlook.
Qed.

Lemma UnregisterListener_Internal_Unique (ListenerMap : TListenerMap)
    (Tag : FGameplayTag) (k : Z) :
  UniqueHandleIds ListenerMap ->
  UniqueHandleIds (UnregisterListener_Internal ListenerMap Tag k).
Proof.
  intros Huniq Other Stored Hlook.
  destruct (decide (Tag = Other)) as [<- | Hne].
  - apply UnregisterListener_Internal_lookup_eq in Hlook
      as (L & HL & _ & [-> | [_ ->]]).
    + apply RemainingAfter_NoDup. eapply Huniq, HL.
    + eapply Huniq, HL.
  - rewrite UnregisterListener_Internal_lookup_ne in Hlook by assumption.
    eapply Huniq, Hlook.
Qed.

Lemma UnregisterListener_Internal_Within (ListenerMap : TListenerMap)
    (Tag : FGameplayTag) (k : Z) :
  IdsWithinCounter ListenerMap ->
  IdsWithinCounter (UnregisterListener_Internal ListenerMap Tag k).
Proof.
  intros Hin Other Stored Hlook.
  destruct (decide (Tag = Other)) as [<- | Hne].
  - apply UnregisterListener_Internal_lookup_eq in Hlook
      as (L & HL & Hcnt & [-> | [_ ->]]).
    + rewrite Hcnt. eapply Forall_of_submseteq; [| eapply Hin, HL].
      apply RemainingAfter_submseteq.
    + eapply Hin, HL.
  - rewrite UnregisterListener_Internal_lookup_ne in Hlook by assumption.
    eapply Hin, Hlook.
Qed.

(** ** Registration *)

Lemma RegisterListener_Internal_handle (ListenerMap : TListenerMap)
    (Tag : FGameplayTag) (Cb : TFunctionId) (T : option UScriptStruct)
    (Crit : EDanzmannGameplayMessagesMatchCriteria) :
  (RegisterListener_Internal ListenerMap Tag Cb T Crit).2 =
  {| Channel := Tag; Id := wrap_int32 (CounterAt ListenerMap Tag + 1) |}.
Proof. reflexivity. Qed.

Lemma RegisterListener_Internal_lookup_eq (ListenerMap : TListenerMap)
    (Tag : FGameplayTag) (Cb : TFunctionId) (T : option UScriptStruct)
    (Crit : EDanzmannGameplayMessagesMatchCriteria) :
  (RegisterListener_Internal ListenerMap Tag Cb T Crit).1 !! Tag =
  Some {| Listeners :=
            ListenersAt ListenerMap Tag ++
            [{| HandleId := wrap_int32 (CounterAt ListenerMap Tag + 1);
                Callback := Cb;
                GameplayMessageStructType := T;
                bHasValidType := bool_decide (T <> None);
                MatchCriteria := Crit |}];
          AvailableHandleId := wrap_int32 (CounterAt ListenerMap Tag + 1) |}.
Proof.
  unfold RegisterListener_Internal, ListenersAt, CounterAt. simpl.
  rewrite lookup_insert_eq. destruct (ListenerMap !! Tag); reflexivity.
Qed.

Lemma RegisterListener_Internal_lookup_ne (ListenerMap : TListenerMap)
    (Tag Other : FGameplayTag) (Cb : TFunctionId) (T : option UScriptStruct)
    (Crit : EDanzmannGameplayMessagesMatchCriteria) :
  Tag <> Other ->
  (RegisterListener_Internal ListenerMap Tag Cb T Crit).1 !! Other =
  ListenerMap !! Other.
Proof. intros Hne. simpl. apply lookup_insert_ne, Hne. Qed.

Lemma RegisterListener_Internal_NoEmptyList (ListenerMap : TListenerMap)
    (Tag : FGameplayTag) (Cb : TFunctionId) (T : option UScriptStruct)
    (Crit : EDanzmannGameplayMessagesMatchCriteria) :
  NoEmptyList ListenerMap ->
  NoEmptyList (RegisterListener_Internal ListenerMap Tag Cb T Crit).1.
Proof.
  intros Hpres Other Stored Hlook.
  destruct (decide (Tag = Other)) as [<- | Hne].
  - rewrite RegisterListener_Internal_lookup_eq in Hlook.
    injection Hlook as <-. simpl. intros Hnil.
    apply app_eq_nil in Hnil as [_ Hnil]. discriminate.
  - rewrite RegisterListener_Internal_lookup_ne in Hlook by assumption.
    eapply Hpres, Hlook.
Qed.

Lemma ListenersAt_Within (ListenerMap : TListenerMap) (Tag : FGameplayTag) :
  IdsWithinCounter ListenerMap ->
  Forall (fun Entry => 1 <= HandleId Entry <= CounterAt ListenerMap Tag)
    (ListenersAt ListenerMap Tag).
Proof.
  intros Hin. unfold ListenersAt, CounterAt.
  destruct (ListenerMap !! Tag) as [L |] eqn:HL; [| constructor].
  simpl. eapply Hin, HL.
Qed.

Lemma ListenersAt_Unique (ListenerMap : TListenerMap) (Tag : FGameplayTag) :
  UniqueHandleIds ListenerMap -> NoDup (HandleId <$> ListenersAt ListenerMap Tag).
Proof.
  intros Huniq. unfold ListenersAt.
  destruct (ListenerMap !! Tag) as [L |] eqn:HL; [| constructor].
  eapply Huniq, HL.
Qed.

Lemma RegisterListener_Internal_Within (ListenerMap : TListenerMap)
    (Tag : FGameplayTag) (Cb : TFunctionId) (T : option UScriptStruct)
    (Crit : EDanzmannGameplayMessagesMatchCriteria) :
  0 <= CounterAt ListenerMap Tag < INT32_MAX ->
  IdsWithinCounter ListenerMap ->
  IdsWithinCounter (RegisterListener_Internal ListenerMap Tag Cb T Crit).1.
Proof.
  intros Hrange Hin Other Stored Hlook.
  destruct (decide (Tag = Other)) as [<- | Hne].
  - rewrite RegisterListener_Internal_lookup_eq in Hlook.
    injection Hlook as <-. simpl.
    rewrite wrap_int32_in_range by (unfold INT32_MAX in *; lia).
    apply Forall_app. split.
    + eapply Forall_impl; [apply ListenersAt_Within, Hin |].
      simpl. intros E HE. lia.
    + constructor; [simpl; lia | constructor].
  - rewrite RegisterListener_Internal_lookup_ne in Hlook by assumption.
    eapply Hin, Hlook.
Qed.

Lemma RegisterListener_Internal_Unique (ListenerMap : TListenerMap)
    (Tag : FGameplayTag) (Cb : TFunctionId) (T : option UScriptStruct)
    (Crit : EDanzmannGameplayMessagesMatchCriteria) :
  0 <= CounterAt ListenerMap Tag < INT32_MAX ->
  IdsWithinCounter ListenerMap ->
  UniqueHandleIds ListenerMap ->
  UniqueHandleIds (RegisterListener_Internal ListenerMap Tag Cb T Crit).1.
Proof.
  intros Hrange Hin Huniq Other Stored Hlook.
  destruct (decide (Tag = Other)) as [<- | Hne].
  - rewrite RegisterListener_Internal_lookup_eq in Hlook.
    injection Hlook as <-. simpl.
    rewrite wrap_int32_in_range by (unfold INT32_MAX in *; lia).
    rewrite fmap_app. apply NoDup_app. split; [| split].
    + apply ListenersAt_Unique, Huniq.
    + intros k Hk Hnew. simpl in Hnew. apply list_elem_of_singleton in Hnew.
      apply list_elem_of_fmap in Hk as (E & -> & HE).
      pose proof (ListenersAt_Within _ Tag Hin) as Hall.
      rewrite Forall_forall in Hall. specialize (Hall E HE). lia.
    + simpl. apply NoDup_singleton.
  - rewrite RegisterListener_Internal_lookup_ne in Hlook by assumption.
    eapply Huniq, Hlook.
Qed.

(** C9 -- Every registration returns a valid handle: the id is the
    pre-incremented counter of the channel's list, so it is at least 1,
    the handle passes [IsValid] and differs from the default handle.
    The counter is a non-negative [int32] below [INT32_MAX], the range
    in which the increment does not overflow; a channel that has no
    list yet counts from 0. *)
Theorem register_returns_valid_handle (ListenerMap : TListenerMap)
    (Tag : FGameplayTag) (Cb : TFunctionId) (T : option UScriptStruct)
    (Crit : EDanzmannGameplayMessagesMatchCriteria) :
  0 <= CounterAt ListenerMap Tag < INT32_MAX ->
  let Handle := (RegisterListener_Internal ListenerMap Tag Cb T Crit).2 in
  Id Handle = CounterAt ListenerMap Tag + 1
  /\ 1 <= Id Handle
  /\ IsValid Handle = true
  /\ Handle <> DefaultHandle.
Proof.
  intros Hrange Handle. subst Handle.
  rewrite RegisterListener_Internal_handle. simpl.
  rewrite wrap_int32_in_range by (unfold INT32_MAX in *; lia).
  repeat split; try lia.
  - unfold IsValid. simpl. apply negb_true_iff, Z.eqb_neq. lia.
  - unfold DefaultHandle. intros Heq. injection Heq as _ Hid. lia.
Qed.

Lemma register_returns_valid_handle_witness :
  let Handle :=
    (RegisterListener_Internal World.OneOnAB World.TagAB 2%nat None PartialMatch).2 in
  Id Handle = 2 /\ 1 <= Id Handle /\ IsValid Handle = true /\ Handle <> DefaultHandle.
Proof.
  apply (register_returns_valid_handle World.OneOnAB World.TagAB 2%nat None PartialMatch).
  vm_compute. split; [discriminate | reflexivity].
Defined.

(** ** The broadcast, one listener and one level at a time *)

Section BroadcastFacts.

Variable StructIsAlive : UScriptStruct -> bool.
Variable Invoke :
  TFunctionId -> FGameplayTag -> UScriptStruct -> VoidPtr -> TListenerMap -> TListenerMap.
Variable Channel : FGameplayTag.
Variable MessageStructType : UScriptStruct.
Variable MessagePayload : VoidPtr.

Local Abbreviation ToListener :=
  (BroadcastToListener StructIsAlive Invoke Channel MessageStructType MessagePayload).
Local Abbreviation AtTag :=
  (BroadcastAtTag StructIsAlive Invoke Channel MessageStructType MessagePayload).
Local Abbreviation FromTag :=
  (BroadcastFromTag StructIsAlive Invoke Channel MessageStructType MessagePayload).
Local Abbreviation Verdict :=
  (EntryVerdict StructIsAlive Channel MessageStructType MessagePayload).

(** The log only grows, by the verdict on the entry, and the registry
    does not depend on the log. *)
Lemma BroadcastToListener_split (Tag : FGameplayTag) (b : bool)
    (ListenerMap : TListenerMap) (Log : list Event)
    (Listener : FDanzmannGameplayMessagesListenerData) :
  ToListener Tag b (ListenerMap, Log) Listener =
  ((ToListener Tag b (ListenerMap, []) Listener).1, Log ++ Verdict Tag b Listener).
Proof.
  unfold BroadcastToListener, EntryVerdict, Eligible, Stale.
  destruct (b || MatchCriteria_eqb (MatchCriteria Listener) PartialMatch);
    [| simpl; rewrite app_nil_r; reflexivity].
  destruct (bHasValidType Listener
            && negb (WeakPtrIsValid StructIsAlive (GameplayMessageStructType Listener)));
    [reflexivity |].
  destruct (negb (bHasValidType Listener)
            || IsChildOf MessageStructType
                 (WeakPtrGet StructIsAlive (GameplayMessageStructType Listener)));
    reflexivity.
Qed.

Lemma BroadcastListeners_split (Tag : FGameplayTag) (b : bool)
    (Copy : list FDanzmannGameplayMessagesListenerData)
    (ListenerMap : TListenerMap) (Log : list Event) :
  foldl (ToListener Tag b) (ListenerMap, Log) Copy =
  ((foldl (ToListener Tag b) (ListenerMap, []) Copy).1,
   Log ++ (Copy ≫= Verdict Tag b)).
Proof.
  revert ListenerMap Log. induction Copy as [| L Rest IH]; intros m Log.
  - simpl. rewrite app_nil_r. reflexivity.
  - cbn [foldl]. rewrite (BroadcastToListener_split Tag b m Log L).
    rewrite IH. rewrite (BroadcastToListener_split Tag b m [] L).
    rewrite (IH _ ([] ++ _)). cbn [fst snd].
    rewrite bind_cons, app_assoc. reflexivity.
Qed.

Lemma BroadcastAtTag_split (Tag : FGameplayTag) (b : bool)
    (ListenerMap : TListenerMap) (Log : list Event) :
  AtTag Tag b (ListenerMap, Log) =
  ((AtTag Tag b (ListenerMap, [])).1,
   Log ++ (ListenersAt ListenerMap Tag ≫= Verdict Tag b)).
Proof.
  unfold BroadcastAtTag, ListenersAt. cbn [fst].
  destruct (ListenerMap !! Tag) as [L |].
  - apply BroadcastListeners_split.
  - simpl. rewrite app_nil_r. reflexivity.
Qed.

Lemma BroadcastFromTag_split (Tag : FGameplayTag) (b : bool)
    (ListenerMap : TListenerMap) (Log : list Event) :
  FromTag Tag b (ListenerMap, Log) =
  ((FromTag Tag b (ListenerMap, [])).1,
   Log ++ (FromTag Tag b (ListenerMap, [])).2).
Proof.
  revert b ListenerMap Log. induction Tag as [| Seg Parent IH]; intros b m Log.
  - simpl. rewrite app_nil_r. reflexivity.
  - cbn [BroadcastFromTag].
    rewrite (BroadcastAtTag_split (Seg :: Parent) b m Log).
    rewrite (BroadcastAtTag_split (Seg :: Parent) b m []).
    rewrite IH. rewrite (IH _ _ ([] ++ _)). cbn [fst snd].
    rewrite app_assoc. reflexivity.
Qed.

(** One turn of the outer loop: the level's events come from the copy
    of the level's list as it is when the level is reached; the walk
    goes on from the direct parent in the registry the level left. *)
Lemma BroadcastFromTag_cons (Seg : string) (Parent : FGameplayTag) (b : bool)
    (ListenerMap : TListenerMap) :
  FromTag (Seg :: Parent) b (ListenerMap, []) =
  let After := (AtTag (Seg :: Parent) b (ListenerMap, [])).1 in
  ((FromTag Parent false (After, [])).1,
   (ListenersAt ListenerMap (Seg :: Parent) ≫= Verdict (Seg :: Parent) b)
   ++ (FromTag Parent false (After, [])).2).
Proof.
  cbn [BroadcastFromTag].
  rewrite (BroadcastAtTag_split (Seg :: Parent) b ListenerMap []).
  rewrite BroadcastFromTag_split. reflexivity.
Qed.

(** The callback invocations a copied list gives rise to. *)
Lemma Deliveries_Verdict (Tag : FGameplayTag) (b : bool)
    (Copy : list FDanzmannGameplayMessagesListenerData) :
  Deliveries (Copy ≫= Verdict Tag b) =
  (fun L => (Tag, L)) <$> filter (fun L => Receives StructIsAlive MessageStructType b L = true) Copy.
Proof.
  unfold Deliveries. induction Copy as [| L Rest IH]; [reflexivity |].
  rewrite bind_cons, omap_app, IH, filter_cons.
  unfold EntryVerdict, Receives.
  destruct (Eligible b L); [| rewrite decide_False by (simpl; discriminate); reflexivity].
  destruct (Stale StructIsAlive L);
    [rewrite decide_False by (simpl; discriminate); reflexivity |].
  destruct (negb (bHasValidType L)
            || IsChildOf MessageStructType
                 (WeakPtrGet StructIsAlive (GameplayMessageStructType L))).
  - rewrite decide_True by reflexivity. reflexivity.
  - rewrite decide_False by (simpl; discriminate). reflexivity.
Qed.

(** Invariants that unregistration and the callbacks keep are kept by
    the whole broadcast. *)
Section Preservation.

Variable Inv : TListenerMap -> Prop.
Hypothesis Inv_unregister :
  forall (m : TListenerMap) (Tag : FGameplayTag) (k : Z),
    Inv m -> Inv (UnregisterListener_Internal m Tag k).
Hypothesis Inv_invoke :
  forall (Cb : TFunctionId) (C : FGameplayTag) (T : UScriptStruct) (P : VoidPtr)
         (m : TListenerMap),
    Inv m -> Inv (Invoke Cb C T P m).

Lemma BroadcastToListener_preserves (Tag : FGameplayTag) (b : bool)
    (State : TListenerMap * list Event)
    (Listener : FDanzmannGameplayMessagesListenerData) :
  Inv State.1 -> Inv (ToListener Tag b State Listener).1.
Proof.
  destruct State as [m Log]. cbn [fst]. intros Hm.
  unfold BroadcastToListener.
  repeat match goal with
         | |- context [if ?c then _ else _] => destruct c
         end; cbn [fst]; auto.
Qed.

Lemma BroadcastListeners_preserves (Tag : FGameplayTag) (b : bool)
    (Copy : list FDanzmannGameplayMessagesListenerData)
    (State : TListenerMap * list Event) :
  Inv State.1 -> Inv (foldl (ToListener Tag b) State Copy).1.
Proof.
  revert State. induction Copy as [| L Rest IH]; intros State HState.
  - exact HState.
  - cbn [foldl]. apply IH, BroadcastToListener_preserves, HState.
Qed.

Lemma BroadcastAtTag_preserves (Tag : FGameplayTag) (b : bool)
    (State : TListenerMap * list Event) :
  Inv State.1 -> Inv (AtTag Tag b State).1.
Proof.
  intros HState. unfold BroadcastAtTag.
  destruct (State.1 !! Tag) as [L |]; [| exact HState].
  apply BroadcastListeners_preserves, HState.
Qed.

Lemma BroadcastFromTag_preserves (Tag : FGameplayTag) (b : bool)
    (State : TListenerMap * list Event) :
  Inv State.1 -> Inv (FromTag Tag b State).1.
Proof.
  revert b State. induction Tag as [| Seg Parent IH]; intros b State HState.
  - exact HState.
  - cbn [BroadcastFromTag]. apply IH, BroadcastAtTag_preserves, HState.
Qed.

End Preservation.

End BroadcastFacts.

(** ** The type gate *)

(** One step of the inner loop, for an entry that passes the level gate
    and is not stale: if its expected type is absent (wildcard) or the
    broadcast type is the expected type or derived from it, the callback
    is invoked with (channel, broadcast type, payload); otherwise the
    callback is not invoked, a type-mismatch error naming the channel,
    the broadcast type, the listener's level and the expected type is
    logged and the registry is left as it was.  In both cases the inner
    loop goes on: the log of a copied list is the verdicts of its
    entries in order. *)
Lemma BroadcastToListener_type_gate
    (StructIsAlive : UScriptStruct -> bool)
    (Invoke : TFunctionId -> FGameplayTag -> UScriptStruct -> VoidPtr ->
              TListenerMap -> TListenerMap)
    (Channel : FGameplayTag) (MessageStructType : UScriptStruct)
    (MessagePayload : VoidPtr) (Tag : FGameplayTag) (b : bool)
    (ListenerMap : TListenerMap) (Log : list Event)
    (Listener : FDanzmannGameplayMessagesListenerData) :
  Eligible b Listener = true ->
  Stale StructIsAlive Listener = false ->
  let Compatible :=
    bHasValidType Listener = false
    \/ exists Expected, GameplayMessageStructType Listener = Some Expected
                        /\ IsA MessageStructType Expected in
  let Step := BroadcastToListener StructIsAlive Invoke Channel MessageStructType
                MessagePayload Tag b in
  (Compatible ->
   Step (ListenerMap, Log) Listener =
   (Invoke (Callback Listener) Channel MessageStructType MessagePayload ListenerMap,
    Log ++ [CallbackInvoked Tag Listener Channel MessageStructType MessagePayload]))
  /\ (~ Compatible ->
      Step (ListenerMap, Log) Listener =
      (ListenerMap,
       Log ++ [ErrorTypeMismatch Channel MessageStructType Tag
                 (GameplayMessageStructType Listener)]))
  /\ (forall Before After,
        (foldl Step (ListenerMap, Log) (Before ++ Listener :: After)).2 =
        Log
        ++ (Before ≫= EntryVerdict StructIsAlive Channel MessageStructType
                        MessagePayload Tag b)
        ++ EntryVerdict StructIsAlive Channel MessageStructType MessagePayload
             Tag b Listener
        ++ (After ≫= EntryVerdict StructIsAlive Channel MessageStructType
                       MessagePayload Tag b)).
Proof.
  intros Helig Hfresh Compatible Step.
  assert (Hgate : negb (bHasValidType Listener)
                  || IsChildOf MessageStructType
                       (WeakPtrGet StructIsAlive (GameplayMessageStructType Listener))
                  = true <-> Compatible).
  { subst Compatible. unfold Stale in Hfresh.
    destruct (bHasValidType Listener) eqn:Hvalid; simpl in *.
    - apply negb_false_iff in Hfresh. unfold WeakPtrGet. rewrite Hfresh.
      destruct (GameplayMessageStructType Listener) as [Expected |];
        [| discriminate]. simpl. rewrite IsChildOfStruct_IsA. split.
      + intros Hisa. right. exists Expected. split; [reflexivity | exact Hisa].
      + intros [Hfalse | (E & [= <-] & Hisa)]; [discriminate | exact Hisa].
    - split; [intros _; left; reflexivity | reflexivity]. }
  subst Step. unfold BroadcastToListener. unfold Eligible in Helig.
  rewrite Helig. unfold Stale in Hfresh. rewrite Hfresh.
  split; [| split].
  - intros Hc. apply Hgate in Hc. rewrite Hc. reflexivity.
  - intros Hc.
    destruct (negb (bHasValidType Listener)
              || IsChildOf MessageStructType
                   (WeakPtrGet StructIsAlive (GameplayMessageStructType Listener)))
      eqn:Hg; [| reflexivity].
    exfalso. apply Hc, Hgate. reflexivity.
  - intros Before After. fold (BroadcastToListener StructIsAlive Invoke Channel
                                 MessageStructType MessagePayload Tag b).
    rewrite BroadcastListeners_split. cbn [snd].
    rewrite bind_app, bind_cons. reflexivity.
Qed.

Lemma BroadcastToListener_type_gate_example :
  let Listener :=
    {| HandleId := 1; Callback := 1%nat;
       GameplayMessageStructType := Some World.Death;
       bHasValidType := true; MatchCriteria := ExactMatch |} in
  BroadcastToListener World.AllAlive World.Quiet World.TagAB World.HeroDeath 0
    World.TagAB true (World.OneOnAB, []) Listener =
  (World.OneOnAB,
   [CallbackInvoked World.TagAB Listener World.TagAB World.HeroDeath 0]).
Proof.
  intros Listener.
  refine (proj1 (BroadcastToListener_type_gate World.AllAlive World.Quiet World.TagAB
                   World.HeroDeath 0 World.TagAB true World.OneOnAB [] Listener
                   _ _) _).
  - reflexivity.
  - reflexivity.
  - right. exists World.Death. split; [reflexivity |].
    apply IsA_derived, IsA_same.
Defined.

(** ** Stale listeners *)

(** A stale entry that passes the level gate is unregistered under the
    broadcast channel, whatever the level [Tag] it was found at, and is
    not called. *)
Lemma stale_listener_unregistered_on_channel
    (StructIsAlive : UScriptStruct -> bool)
    (Invoke : TFunctionId -> FGameplayTag -> UScriptStruct -> VoidPtr ->
              TListenerMap -> TListenerMap)
    (Channel : FGameplayTag) (MessageStructType : UScriptStruct)
    (MessagePayload : VoidPtr) (Tag : FGameplayTag) (b : bool)
    (ListenerMap : TListenerMap) (Log : list Event)
    (Listener : FDanzmannGameplayMessagesListenerData) :
  Eligible b Listener = true ->
  Stale StructIsAlive Listener = true ->
  BroadcastToListener StructIsAlive Invoke Channel MessageStructType
    MessagePayload Tag b (ListenerMap, Log) Listener =
  (UnregisterListener_Internal ListenerMap Channel (HandleId Listener),
   Log ++ [WarningStaleListener Channel]).
Proof.
  intros Helig Hstale. unfold BroadcastToListener.
  unfold Eligible in Helig. unfold Stale in Hstale.
  rewrite Helig, Hstale. reflexivity.
Qed.

(** On the initial level the stale entry is the one removed: with
    distinct ids its id is gone from the channel's list and every other
    entry of the list stays. *)
Lemma stale_listener_purged_on_initial_tag
    (StructIsAlive : UScriptStruct -> bool)
    (Invoke : TFunctionId -> FGameplayTag -> UScriptStruct -> VoidPtr ->
              TListenerMap -> TListenerMap)
    (Channel : FGameplayTag) (MessageStructType : UScriptStruct)
    (MessagePayload : VoidPtr) (b : bool)
    (ListenerMap : TListenerMap) (Log : list Event)
    (Listener : FDanzmannGameplayMessagesListenerData) :
  UniqueHandleIds ListenerMap ->
  Listener ∈ ListenersAt ListenerMap Channel ->
  Eligible b Listener = true ->
  Stale StructIsAlive Listener = true ->
  let After :=
    (BroadcastToListener StructIsAlive Invoke Channel MessageStructType
       MessagePayload Channel b (ListenerMap, Log) Listener).1 in
  Listener :: ListenersAt After Channel ≡ₚ ListenersAt ListenerMap Channel
  /\ (forall Other, Other <> Channel -> After !! Other = ListenerMap !! Other).
Proof.
  intros Huniq Hin Helig Hstale After. subst After.
  rewrite stale_listener_unregistered_on_channel by assumption. cbn [fst].
  split.
  - rewrite UnregisterListener_Internal_unfold. unfold ListenersAt in *.
    destruct (ListenerMap !! Channel) as [L |] eqn:HL; [| inversion Hin].
    pose proof (Huniq _ _ HL) as Hnd.
    destruct (RemainingAfter_cases (HandleId Listener) (Listeners L))
      as [[Hall _] | (E & Hk & Hperm)].
    + exfalso. rewrite Forall_forall in Hall. exact (Hall _ Hin eq_refl).
    + assert (E = Listener) as ->.
      { apply list_elem_of_lookup in Hin as [i Hi].
        assert (HE : E ∈ Listeners L) by (rewrite <- Hperm; left).
        apply list_elem_of_lookup in HE as [j Hj].
        assert (i = j).
        { eapply NoDup_lookup; [exact Hnd | |];
            rewrite list_lookup_fmap; [rewrite Hi | rewrite Hj]; simpl;
            [reflexivity | congruence]. }
        subst j. congruence. }
      destruct (RemainingAfter (HandleId Listener) (Listeners L)) as [| E' Rest].
      * rewrite lookup_delete_eq. exact Hperm.
      * rewrite lookup_insert_eq. exact Hperm.
  - intros Other Hne. apply UnregisterListener_Internal_lookup_ne. congruence.
Qed.

(** On any other level the list that holds the stale entry is left as
    it is. *)
Lemma stale_listener_on_other_level_stays
    (StructIsAlive : UScriptStruct -> bool)
    (Invoke : TFunctionId -> FGameplayTag -> UScriptStruct -> VoidPtr ->
              TListenerMap -> TListenerMap)
    (Channel : FGameplayTag) (MessageStructType : UScriptStruct)
    (MessagePayload : VoidPtr) (Tag : FGameplayTag) (b : bool)
    (ListenerMap : TListenerMap) (Log : list Event)
    (Listener : FDanzmannGameplayMessagesListenerData) :
  Tag <> Channel ->
  Eligible b Listener = true ->
  Stale StructIsAlive Listener = true ->
  (BroadcastToListener StructIsAlive Invoke Channel MessageStructType
     MessagePayload Tag b (ListenerMap, Log) Listener).1 !! Tag =
  ListenerMap !! Tag.
Proof.
  intros Hne Helig Hstale.
  rewrite stale_listener_unregistered_on_channel by assumption. cbn [fst].
  apply UnregisterListener_Internal_lookup_ne. congruence.
Qed.

(** C5 -- A stale entry found on a strict ancestor is not removed from
    the ancestor's list: the removal is asked for under the broadcast
    channel.  Here "A" holds a stale PartialMatch listener with id 1 and
    "A.B" a live listener with id 1; a broadcast on "A.B" calls the live
    listener, then removes it in place of the stale one, and "A" keeps
    the stale entry. *)
Theorem stale_ancestor_listener_not_purged :
  let Result :=
    BroadcastGameplayMessage_Internal World.KillIsDead World.Quiet
      World.ParentAndChild World.TagAB World.Death 0 in
  let StaleEntry :=
    {| HandleId := 1; Callback := 0%nat;
       GameplayMessageStructType := Some World.Kill;
       bHasValidType := true; MatchCriteria := PartialMatch |} in
  let LiveEntry :=
    {| HandleId := 1; Callback := 1%nat;
       GameplayMessageStructType := Some World.Death;
       bHasValidType := true; MatchCriteria := ExactMatch |} in
  ListenersAt World.ParentAndChild World.TagA = [StaleEntry]
  /\ ListenersAt World.ParentAndChild World.TagAB = [LiveEntry]
  /\ Stale World.KillIsDead StaleEntry = true
  /\ Stale World.KillIsDead LiveEntry = false
  /\ ListenersAt Result.1 World.TagA = [StaleEntry]
  /\ Result.1 !! World.TagAB = None
  /\ Result.2 = [CallbackInvoked World.TagAB LiveEntry World.TagAB World.Death 0;
                 WarningStaleListener World.TagAB].
Proof. vm_compute. repeat split. Qed.

(** ** The shape of the trace *)

Lemma VisitedTags_spec (Tag Channel : FGameplayTag) :
  Tag ∈ VisitedTags Channel <-> IsAncestorOrSelf Tag Channel.
Proof.
  unfold IsAncestorOrSelf. induction Channel as [| Seg Parent IH].
  - simpl. split; [intros H; inversion H |].
    intros [Hne Hsuf]. apply suffix_nil_inv in Hsuf. contradiction.
  - cbn [VisitedTags]. rewrite elem_of_cons, IH. split.
    + intros [-> | [Hne Hsuf]].
      * split; [discriminate | reflexivity].
      * split; [exact Hne | apply suffix_cons_r, Hsuf].
    + intros [Hne Hsuf]. destruct Tag as [| Seg' Rest]; [contradiction |].
      apply suffix_cons_inv in Hsuf as [-> | Hsuf].
      * left. reflexivity.
      * right. split; assumption.
Qed.

(** Nearest first: every later tag is a strictly shorter suffix of every
    earlier one. *)
Lemma VisitedTags_sorted (Channel : FGameplayTag) :
  StronglySorted (fun Near Far => Far `suffix_of` Near /\ Far <> Near)
    (VisitedTags Channel).
Proof.
  induction Channel as [| Seg Parent IH]; cbn [VisitedTags]; constructor.
  - exact IH.
  - rewrite Forall_forall. intros Far HFar.
    apply VisitedTags_spec in HFar as [_ Hsuf]. split.
    + apply suffix_cons_r, Hsuf.
    + intros ->. exact (suffix_cons_not _ _ Hsuf).
Qed.

Lemma VisitedTags_NoDup (Channel : FGameplayTag) : NoDup (VisitedTags Channel).
Proof.
  induction Channel as [| Seg Parent IH]; cbn [VisitedTags]; constructor.
  - intros Hin. apply VisitedTags_spec in Hin as [_ Hsuf].
    exact (suffix_cons_not _ _ Hsuf).
  - exact IH.
Qed.

Lemma VisitedTags_last (Channel : FGameplayTag) :
  last (VisitedTags Channel) = (fun Root => [Root]) <$> last Channel.
Proof.
  induction Channel as [| Seg Parent IH]; [reflexivity |].
  cbn [VisitedTags]. destruct Parent as [| Seg' Parent'].
  - reflexivity.
  - rewrite !last_cons_cons in *. exact IH.
Qed.

Section TraceFacts.

Variable StructIsAlive : UScriptStruct -> bool.
Variable Invoke :
  TFunctionId -> FGameplayTag -> UScriptStruct -> VoidPtr -> TListenerMap -> TListenerMap.
Variable Channel : FGameplayTag.
Variable MessageStructType : UScriptStruct.
Variable MessagePayload : VoidPtr.

Local Abbreviation AtTag :=
  (BroadcastAtTag StructIsAlive Invoke Channel MessageStructType MessagePayload).
Local Abbreviation FromTag :=
  (BroadcastFromTag StructIsAlive Invoke Channel MessageStructType MessagePayload).
Local Abbreviation Verdict :=
  (EntryVerdict StructIsAlive Channel MessageStructType MessagePayload).

(** A callback invocation in the verdicts of a copied list. *)
Lemma Verdict_invoked (Tag : FGameplayTag) (b : bool)
    (Copy : list FDanzmannGameplayMessagesListenerData)
    (T : FGameplayTag) (L : FDanzmannGameplayMessagesListenerData)
    (C : FGameplayTag) (S : UScriptStruct) (P : VoidPtr) :
  CallbackInvoked T L C S P ∈ Copy ≫= Verdict Tag b ->
  T = Tag /\ L ∈ Copy /\ Receives StructIsAlive MessageStructType b L = true
  /\ C = Channel /\ S = MessageStructType /\ P = MessagePayload.
Proof.
  intros Hin. apply list_elem_of_bind in Hin as (L0 & Hin & HL0).
  unfold EntryVerdict, Receives in *.
  destruct (Eligible b L0) eqn:He; [| inversion Hin].
  destruct (Stale StructIsAlive L0) eqn:Hs;
    [apply list_elem_of_singleton in Hin; discriminate |].
  destruct (negb (bHasValidType L0)
            || IsChildOf MessageStructType
                 (WeakPtrGet StructIsAlive (GameplayMessageStructType L0))) eqn:Hg;
    apply list_elem_of_singleton in Hin; [| discriminate].
  injection Hin as -> -> -> -> ->.
  rewrite He, Hs, Hg. repeat split; try reflexivity. exact HL0.
Qed.

(** Where and why a callback is invoked by the walk from [Tag]. *)
Lemma BroadcastFromTag_invoked (Tag : FGameplayTag) (b : bool)
    (ListenerMap : TListenerMap)
    (T : FGameplayTag) (L : FDanzmannGameplayMessagesListenerData)
    (C : FGameplayTag) (S : UScriptStruct) (P : VoidPtr) :
  CallbackInvoked T L C S P ∈ (FromTag Tag b (ListenerMap, [])).2 ->
  IsAncestorOrSelf T Tag
  /\ ((b = true /\ T = Tag) \/ MatchCriteria L = PartialMatch)
  /\ C = Channel /\ S = MessageStructType /\ P = MessagePayload.
Proof.
  revert b ListenerMap. induction Tag as [| Seg Parent IH]; intros b m Hin.
  - inversion Hin.
  - rewrite BroadcastFromTag_cons in Hin. cbn [snd] in Hin.
    apply elem_of_app in Hin as [Hin | Hin].
    + apply Verdict_invoked in Hin as (-> & _ & Hrecv & -> & -> & ->).
      split; [split; [discriminate | reflexivity] |].
      split; [| repeat split].
      unfold Receives, Eligible in Hrecv.
      apply andb_true_iff in Hrecv as [Hrecv _].
      apply andb_true_iff in Hrecv as [Hrecv _].
      apply orb_true_iff in Hrecv as [-> | Hcrit].
      * left. split; reflexivity.
      * right. destruct (MatchCriteria L); [discriminate | reflexivity].
    + apply IH in Hin as ([Hne Hsuf] & [[Hb _] | Hcrit] & Hargs);
        [discriminate |].
      split; [split; [exact Hne | apply suffix_cons_r, Hsuf] |].
      split; [right; exact Hcrit | exact Hargs].
Qed.

(** The levels of the callback invocations of the walk from [Tag]. *)
Lemma BroadcastFromTag_delivery_levels (Tag : FGameplayTag) (b : bool)
    (ListenerMap : TListenerMap) :
  Forall (fun D => IsAncestorOrSelf D.1 Tag)
    (Deliveries (FromTag Tag b (ListenerMap, [])).2).
Proof.
  rewrite Forall_forall. intros [T L] HD.
  apply list_elem_of_omap in HD as (E & HE & HDE).
  destruct E as [T' L' C S P | | |]; try discriminate.
  injection HDE as -> ->.
  apply BroadcastFromTag_invoked in HE as [Hanc _]. exact Hanc.
Qed.

(** Callback invocations come level by level, deeper levels first. *)
Lemma BroadcastFromTag_deliveries_sorted (Tag : FGameplayTag) (b : bool)
    (ListenerMap : TListenerMap) :
  StronglySorted (fun Earlier Later => Later.1 `suffix_of` Earlier.1)
    (Deliveries (FromTag Tag b (ListenerMap, [])).2).
Proof.
  revert b ListenerMap. induction Tag as [| Seg Parent IH]; intros b m.
  - constructor.
  - rewrite BroadcastFromTag_cons. cbn [snd]. unfold Deliveries.
    rewrite omap_app. fold (Deliveries (ListenersAt m (Seg :: Parent)
                                          ≫= Verdict (Seg :: Parent) b)).
    rewrite Deliveries_Verdict. apply StronglySorted_app_2.
    + intros [T1 L1] [T2 L2] H1 H2.
      apply list_elem_of_fmap in H1 as (L & [= -> ->] & _).
      pose proof (BroadcastFromTag_delivery_levels Parent false
                    (AtTag (Seg :: Parent) b (m, [])).1) as Hlev.
      rewrite Forall_forall in Hlev. apply Hlev in H2 as [_ Hsuf].
      simpl in *. apply suffix_cons_r, Hsuf.
    + induction (filter _ (ListenersAt m (Seg :: Parent))) as [| L Rest IHR];
        [constructor |].
      rewrite fmap_cons. constructor; [exact IHR |].
      rewrite Forall_forall. intros [T2 L2] H2.
      apply list_elem_of_fmap in H2 as (L' & [= -> ->] & _). reflexivity.
    + apply IH.
Qed.

(** The walk is the fold of the level step over the visited tags; the
    flag [bOnInitialTag] is set exactly at the channel itself. *)
Lemma BroadcastFromTag_fold (Tag : FGameplayTag) (b : bool)
    (State : TListenerMap * list Event) :
  (length Tag <= length Channel)%nat ->
  b = bool_decide (Tag = Channel) ->
  FromTag Tag b State =
  foldl (fun St T => AtTag T (bool_decide (T = Channel)) St) State (VisitedTags Tag).
Proof.
  revert b State. induction Tag as [| Seg Parent IH]; intros b State Hlen Hb.
  - reflexivity.
  - cbn [BroadcastFromTag VisitedTags foldl]. rewrite <- Hb.
    apply IH.
    + simpl in Hlen. lia.
    + rewrite bool_decide_eq_false_2; [reflexivity |].
      intros ->. simpl in Hlen. lia.
Qed.

(** The walk in the words of the loop header: test [IsValid], run the
    body, go to [RequestDirectParent]. *)
Lemma BroadcastFromTag_loop (Tag : FGameplayTag) (b : bool)
    (State : TListenerMap * list Event) :
  FromTag Tag b State =
  if TagIsValid Tag
  then FromTag (RequestDirectParent Tag) false (AtTag Tag b State)
  else State.
Proof. destruct Tag; reflexivity. Qed.

(** The tags of the walk are the iterates of [RequestDirectParent]. *)
Lemma VisitedTags_loop (Tag : FGameplayTag) :
  VisitedTags Tag =
  if TagIsValid Tag then Tag :: VisitedTags (RequestDirectParent Tag) else [].
Proof. destruct Tag; reflexivity. Qed.

(** Nothing registered along the chain: nothing happens. *)
Lemma BroadcastFromTag_nobody (Tag : FGameplayTag) (b : bool)
    (State : TListenerMap * list Event) :
  (forall T, IsAncestorOrSelf T Tag -> State.1 !! T = None) ->
  FromTag Tag b State = State.
Proof.
  revert b State. induction Tag as [| Seg Parent IH]; intros b State Hnone.
  - reflexivity.
  - cbn [BroadcastFromTag]. unfold BroadcastAtTag.
    rewrite (Hnone (Seg :: Parent)) by (split; [discriminate | reflexivity]).
    apply IH. intros T [Hne Hsuf]. apply Hnone.
    split; [exact Hne | apply suffix_cons_r, Hsuf].
Qed.

End TraceFacts.

(** An end-to-end scenario: an ExactMatch Death listener and an
    ExactMatch Kill listener on "A.B", a PartialMatch Death listener on
    "A".  A Death broadcast on "A.B" calls the first,
    logs a mismatch for the second and then calls the third. *)
Example broadcast_scenario :
  let R1 := RegisterListener_Internal ∅ World.TagAB 1%nat (Some World.Death) ExactMatch in
  let R2 := RegisterListener_Internal R1.1 World.TagA 2%nat (Some World.Death) PartialMatch in
  let R3 := RegisterListener_Internal R2.1 World.TagAB 3%nat (Some World.Kill) ExactMatch in
  (R1.2, R2.2, R3.2) =
    ({| Channel := World.TagAB; Id := 1 |},
     {| Channel := World.TagA; Id := 1 |},
     {| Channel := World.TagAB; Id := 2 |})
  /\ Callback ∘ snd <$>
       Deliveries (BroadcastGameplayMessage_Internal World.AllAlive World.Quiet R3.1
                     World.TagAB World.Death 0).2 = [1%nat; 2%nat]
  /\ ErrorTypeMismatch World.TagAB World.Death World.TagAB (Some World.Kill)
     ∈ (BroadcastGameplayMessage_Internal World.AllAlive World.Quiet R3.1
          World.TagAB World.Death 0).2.
Proof.
  vm_compute. repeat split. right. left.
Qed.

(** A PartialMatch listener on "A" receives a broadcast on "A.B.C"; an
    ExactMatch listener on "A.B" does not. *)
Example partial_match_propagates :
  Callback ∘ snd <$>
    Deliveries (BroadcastGameplayMessage_Internal World.AllAlive World.Quiet
                  World.ParentAndChild World.TagABC World.Kill 0).2 = [0%nat].
Proof. vm_compute. reflexivity. Qed.

(** ** Which listeners a broadcast reaches *)

(** C1 -- In a broadcast on [Channel], a callback invoked for an entry
    found at level [Tag] has [Tag] equal to [Channel] or the entry
    registered with PartialMatch; [Tag] is [Channel] or one of its
    ancestors, so an ExactMatch listener on a strict ancestor and any
    listener on a strict descendant are never invoked. *)
Theorem delivery_requires_initial_tag_or_partial_match
    (StructIsAlive : UScriptStruct -> bool)
    (Invoke : TFunctionId -> FGameplayTag -> UScriptStruct -> VoidPtr ->
              TListenerMap -> TListenerMap)
    (ListenerMap : TListenerMap) (Channel : FGameplayTag)
    (MessageStructType : UScriptStruct) (MessagePayload : VoidPtr)
    (Tag : FGameplayTag) (Listener : FDanzmannGameplayMessagesListenerData)
    (C : FGameplayTag) (S : UScriptStruct) (P : VoidPtr) :
  CallbackInvoked Tag Listener C S P ∈
    (BroadcastGameplayMessage_Internal StructIsAlive Invoke ListenerMap Channel
       MessageStructType MessagePayload).2 ->
  (Tag = Channel \/ MatchCriteria Listener = PartialMatch)
  /\ IsAncestorOrSelf Tag Channel
  /\ (MatchCriteria Listener = ExactMatch -> Tag = Channel)
  /\ ~ (Channel `suffix_of` Tag /\ Tag <> Channel)
  /\ (C, S, P) = (Channel, MessageStructType, MessagePayload).
Proof.
  unfold BroadcastGameplayMessage_Internal. intros Hin.
  apply BroadcastFromTag_invoked in Hin
    as (Hanc & Hwhy & -> & -> & ->).
  assert (Hgate : Tag = Channel \/ MatchCriteria Listener = PartialMatch).
  { destruct Hwhy as [[_ ->] | Hcrit]; [left | right]; auto. }
  repeat split; try (apply Hanc); try exact Hgate.
  - intros Hexact. destruct Hgate as [-> | Hcrit]; [reflexivity | congruence].
  - intros [Hdesc Hne]. destruct Hanc as [_ Hsuf]. apply Hne.
    apply (anti_symm suffix); assumption.
Qed.

Lemma delivery_requires_initial_tag_or_partial_match_witness :
  let Listener :=
    {| HandleId := 1; Callback := 1%nat;
       GameplayMessageStructType := Some World.Death;
       bHasValidType := true; MatchCriteria := ExactMatch |} in
  (World.TagAB = World.TagAB \/ MatchCriteria Listener = PartialMatch)
  /\ IsAncestorOrSelf World.TagAB World.TagAB
  /\ (MatchCriteria Listener = ExactMatch -> World.TagAB = World.TagAB)
  /\ ~ (World.TagAB `suffix_of` World.TagAB /\ World.TagAB <> World.TagAB)
  /\ (World.TagAB, World.Death, 0) = (World.TagAB, World.Death, 0).
Proof.
  intros Listener.
  apply (delivery_requires_initial_tag_or_partial_match World.KillIsDead World.Quiet
           World.ParentAndChild World.TagAB World.Death 0).
  vm_compute. left.
Defined.

(** ** Copy before iterate *)

(** C3 as stated fails: the listener invoked at level "A" was not
    registered when the broadcast began; the callback of the listener on
    "A.B" registered it during the broadcast, before the walk reached
    "A". *)
Lemma listener_registered_on_ancestor_during_broadcast_receives :
  let Result :=
    BroadcastGameplayMessage_Internal World.AllAlive World.RegistersOnParent
      World.OneOnAB World.TagAB World.Death 0 in
  ~ (forall D, D ∈ Deliveries Result.2 -> D.2 ∈ ListenersAt World.OneOnAB D.1).
Proof.
  intros Result Hall.
  specialize (Hall (World.TagA,
                    {| HandleId := 1; Callback := 7%nat;
                       GameplayMessageStructType := None;
                       bHasValidType := false; MatchCriteria := PartialMatch |})).
  assert (Hnone : ListenersAt World.OneOnAB World.TagA = []) by (vm_compute; reflexivity).
  cbn [fst snd] in Hall. rewrite Hnone in Hall.
  assert (Hin : (World.TagA,
                 {| HandleId := 1; Callback := 7%nat;
                    GameplayMessageStructType := None;
                    bHasValidType := false; MatchCriteria := PartialMatch |})
                ∈ Deliveries Result.2).
  { vm_compute. right. left. }
  apply Hall in Hin. inversion Hin.
Qed.

(** ** Order of the levels *)

(** C8 -- A broadcast is the level step folded over the channel and its
    ancestors, nearest ancestor first and the root last, each key once;
    callback invocations therefore come level by level, those of the
    initial channel before those of any strict ancestor; and when no key
    of the chain is registered the broadcast changes nothing and logs
    nothing. *)
Theorem levels_are_visited_nearest_first
    (StructIsAlive : UScriptStruct -> bool)
    (Invoke : TFunctionId -> FGameplayTag -> UScriptStruct -> VoidPtr ->
              TListenerMap -> TListenerMap)
    (ListenerMap : TListenerMap) (Channel : FGameplayTag)
    (MessageStructType : UScriptStruct) (MessagePayload : VoidPtr) :
  let Result :=
    BroadcastGameplayMessage_Internal StructIsAlive Invoke ListenerMap Channel
      MessageStructType MessagePayload in
  Result =
    foldl (fun State Tag =>
             BroadcastAtTag StructIsAlive Invoke Channel MessageStructType
               MessagePayload Tag (bool_decide (Tag = Channel)) State)
          (ListenerMap, []) (VisitedTags Channel)
  /\ (forall Tag, Tag ∈ VisitedTags Channel <-> IsAncestorOrSelf Tag Channel)
  /\ NoDup (VisitedTags Channel)
  /\ StronglySorted (fun Near Far => Far `suffix_of` Near /\ Far <> Near)
       (VisitedTags Channel)
  /\ head (VisitedTags Channel) = (fun _ => Channel) <$> head Channel
  /\ last (VisitedTags Channel) = (fun Root => [Root]) <$> last Channel
  /\ StronglySorted (fun Earlier Later => Later.1 `suffix_of` Earlier.1)
       (Deliveries Result.2)
  /\ (forall Before D After,
        Deliveries Result.2 = Before ++ D :: After ->
        D.1 = Channel -> Forall (fun D' => D'.1 = Channel) Before)
  /\ ((forall Tag, IsAncestorOrSelf Tag Channel -> ListenerMap !! Tag = None) ->
      Result = (ListenerMap, [])).
Proof.
  intros Result. subst Result. unfold BroadcastGameplayMessage_Internal.
  pose proof (BroadcastFromTag_deliveries_sorted StructIsAlive Invoke Channel
                MessageStructType MessagePayload Channel true ListenerMap) as Hsorted.
  pose proof (BroadcastFromTag_delivery_levels StructIsAlive Invoke Channel
                MessageStructType MessagePayload Channel true ListenerMap) as Hlevels.
  repeat match goal with |- _ /\ _ => split end.
  - apply BroadcastFromTag_fold; [lia |].
    rewrite bool_decide_eq_true_2; reflexivity.
  - intros Tag. apply VisitedTags_spec.
  - apply VisitedTags_NoDup.
  - apply VisitedTags_sorted.
  - destruct Channel; reflexivity.
  - apply VisitedTags_last.
  - exact Hsorted.
  - intros Before D After Hsplit HD. rewrite Hsplit in Hsorted, Hlevels.
    rewrite Forall_forall. intros D' HD'.
    assert (Hsuf : D.1 `suffix_of` D'.1).
    { apply StronglySorted_app in Hsorted as [Hcross _].
      apply (Hcross D' D); [exact HD' | left]. }
    apply Forall_app in Hlevels as [Hbefore _].
    rewrite Forall_forall in Hbefore. destruct (Hbefore D' HD') as [_ Hsuf'].
    rewrite HD in Hsuf. apply (anti_symm suffix); assumption.
  - intros Hnone. apply BroadcastFromTag_nobody. exact Hnone.
Qed.

Lemma levels_are_visited_nearest_first_witness :
  BroadcastGameplayMessage_Internal World.AllAlive World.Quiet World.OneOnAB
    World.TagA World.Death 0 = (World.OneOnAB, []).
Proof.
  apply (levels_are_visited_nearest_first World.AllAlive World.Quiet World.OneOnAB
           World.TagA World.Death 0).
  intros Tag [Hne Hsuf]. destruct Tag as [| Seg Rest]; [contradiction |].
  apply suffix_cons_inv in Hsuf as [[= -> ->] | Hsuf].
  - vm_compute. reflexivity.
  - apply suffix_nil_inv in Hsuf. discriminate.
Defined.

(** ** At most one call per listener *)

Lemma BroadcastFromTag_deliveries_NoDup
    (StructIsAlive : UScriptStruct -> bool)
    (Invoke : TFunctionId -> FGameplayTag -> UScriptStruct -> VoidPtr ->
              TListenerMap -> TListenerMap)
    (Channel : FGameplayTag) (MessageStructType : UScriptStruct)
    (MessagePayload : VoidPtr) :
  (forall Cb C T P m, UniqueHandleIds m -> UniqueHandleIds (Invoke Cb C T P m)) ->
  forall (Tag : FGameplayTag) (b : bool) (ListenerMap : TListenerMap),
    UniqueHandleIds ListenerMap ->
    NoDup ((fun D => (D.1, HandleId D.2)) <$>
             Deliveries (BroadcastFromTag StructIsAlive Invoke Channel
                           MessageStructType MessagePayload Tag b
                           (ListenerMap, [])).2).
Proof.
  intros Hinvoke. induction Tag as [| Seg Parent IH]; intros b m Huniq.
  - constructor.
  - rewrite BroadcastFromTag_cons. cbn [snd]. unfold Deliveries.
    rewrite omap_app.
    fold (Deliveries (ListenersAt m (Seg :: Parent)
                        ≫= EntryVerdict StructIsAlive Channel MessageStructType
                             MessagePayload (Seg :: Parent) b)).
    rewrite Deliveries_Verdict, fmap_app. apply NoDup_app. split; [| split].
    + rewrite <- list_fmap_compose.
      rewrite (list_fmap_compose HandleId (pair (Seg :: Parent))).
      apply (NoDup_fmap_2 _).
      eapply sublist_NoDup; [apply ListenersAt_Unique, Huniq |].
      apply fmap_sublist, sublist_filter.
    + intros Key HKey HKey'.
      apply list_elem_of_fmap in HKey as ([T L] & -> & HD).
      apply list_elem_of_fmap in HD as (L' & [= -> ->] & _).
      apply list_elem_of_fmap in HKey' as ([T' L''] & [= <- _] & HD').
      pose proof (BroadcastFromTag_delivery_levels StructIsAlive Invoke Channel
                    MessageStructType MessagePayload Parent false
                    (BroadcastAtTag StructIsAlive Invoke Channel MessageStructType
                       MessagePayload (Seg :: Parent) b (m, [])).1) as Hlev.
      rewrite Forall_forall in Hlev. apply Hlev in HD' as [_ Hsuf].
      exact (suffix_cons_not _ _ Hsuf).
    + apply IH.
      apply (BroadcastAtTag_preserves StructIsAlive Invoke Channel MessageStructType
               MessagePayload UniqueHandleIds);
        [intros; apply UnregisterListener_Internal_Unique; assumption
        | exact Hinvoke | exact Huniq].
Qed.

Lemma UnregisterListener_Unique (ListenerMap : TListenerMap)
    (Handle : FDanzmannGameplayMessagesListenerHandle) :
  UniqueHandleIds ListenerMap ->
  UniqueHandleIds (UnregisterListener ListenerMap Handle).1.
Proof.
  intros Huniq. unfold UnregisterListener. destruct (IsValid Handle); cbn [fst].
  - apply UnregisterListener_Internal_Unique, Huniq.
  - exact Huniq.
Qed.

Lemma UniqueHandleIds_empty : UniqueHandleIds ∅.
Proof. intros Tag L HL. rewrite lookup_empty in HL. discriminate. Qed.

Lemma IdsWithinCounter_empty : IdsWithinCounter ∅.
Proof. intros Tag L HL. rewrite lookup_empty in HL. discriminate. Qed.

Lemma NoEmptyList_empty : NoEmptyList ∅.
Proof. intros Tag L HL. rewrite lookup_empty in HL. discriminate. Qed.

Lemma ParentAndChild_Unique : UniqueHandleIds World.ParentAndChild.
Proof.
  unfold World.ParentAndChild.
  apply RegisterListener_Internal_Unique.
  - vm_compute. split; [discriminate | reflexivity].
  - apply RegisterListener_Internal_Within;
      [vm_compute; split; [discriminate | reflexivity] | apply IdsWithinCounter_empty].
  - apply RegisterListener_Internal_Unique;
      [vm_compute; split; [discriminate | reflexivity]
      | apply IdsWithinCounter_empty | apply UniqueHandleIds_empty].
Defined.

(** ** The presence invariant *)

Lemma UnregisterListener_NoEmptyList (ListenerMap : TListenerMap)
    (Handle : FDanzmannGameplayMessagesListenerHandle) :
  NoEmptyList ListenerMap -> NoEmptyList (UnregisterListener ListenerMap Handle).1.
Proof.
  intros Hne. unfold UnregisterListener. destruct (IsValid Handle); cbn [fst].
  - apply UnregisterListener_Internal_NoEmptyList, Hne.
  - exact Hne.
Qed.

(** C6 -- A key is in the map if and only if its listener list is
    non-empty: this holds of the empty registry and is kept by
    registering, by unregistering and by a broadcast whose callbacks
    keep it; unregistering the only entry of a channel removes the key,
    and after registering the channel is present with a non-empty
    list. *)
Theorem presence_invariant_is_maintained :
  PresenceInvariant ∅
  /\ (forall (ListenerMap : TListenerMap) Tag Cb T Crit,
        PresenceInvariant ListenerMap ->
        PresenceInvariant (RegisterListener_Internal ListenerMap Tag Cb T Crit).1)
  /\ (forall (ListenerMap : TListenerMap) Handle,
        PresenceInvariant ListenerMap ->
        PresenceInvariant (UnregisterListener ListenerMap Handle).1)
  /\ (forall StructIsAlive Invoke (ListenerMap : TListenerMap) Channel Struct Payload,
        (forall Cb C T P (m : TListenerMap),
            PresenceInvariant m -> PresenceInvariant (Invoke Cb C T P m)) ->
        PresenceInvariant ListenerMap ->
        PresenceInvariant
          (BroadcastGameplayMessage_Internal StructIsAlive Invoke ListenerMap
             Channel Struct Payload).1)
  /\ (forall (ListenerMap : TListenerMap) Handle Entry,
        IsValid Handle = true ->
        ListenersAt ListenerMap (Channel Handle) = [Entry] ->
        HandleId Entry = Id Handle ->
        (UnregisterListener ListenerMap Handle).1 !! Channel Handle = None)
  /\ (forall (ListenerMap : TListenerMap) Tag Cb T Crit,
        is_Some ((RegisterListener_Internal ListenerMap Tag Cb T Crit).1 !! Tag)
        /\ ListenersAt (RegisterListener_Internal ListenerMap Tag Cb T Crit).1 Tag
           <> []).
Proof.
  repeat match goal with |- _ /\ _ => split end.
  - apply PresenceInvariant_NoEmptyList, NoEmptyList_empty.
  - intros m Tag Cb T Crit Hm. apply PresenceInvariant_NoEmptyList.
    apply RegisterListener_Internal_NoEmptyList, PresenceInvariant_NoEmptyList, Hm.
  - intros m Handle Hm. apply PresenceInvariant_NoEmptyList.
    apply UnregisterListener_NoEmptyList, PresenceInvariant_NoEmptyList, Hm.
  - intros alive Invoke m Channel' Struct Payload Hinvoke Hm.
    unfold BroadcastGameplayMessage_Internal.
    apply (BroadcastFromTag_preserves alive Invoke Channel' Struct Payload
             PresenceInvariant).
    + intros m' Tag k Hm'. apply PresenceInvariant_NoEmptyList.
      apply UnregisterListener_Internal_NoEmptyList, PresenceInvariant_NoEmptyList, Hm'.
    + exact Hinvoke.
    + exact Hm.
  - intros m Handle Entry Hvalid Hlist Hid.
    unfold UnregisterListener. rewrite Hvalid. cbn [fst].
    unfold UnregisterListener_Internal, ListenersAt in *.
    destruct (m !! Channel Handle) as [L |] eqn:HL; [| exact HL].
    rewrite Hlist. cbn [IndexOfByPredicate]. rewrite Hid, Z.eqb_refl.
    cbn. apply lookup_delete_eq.
  - intros m Tag Cb T Crit. unfold ListenersAt.
    rewrite RegisterListener_Internal_lookup_eq. split.
    + eexists. reflexivity.
    + cbn [Listeners]. intros Hnil. apply app_eq_nil in Hnil as [_ Hnil].
      discriminate.
Qed.

Lemma presence_invariant_is_maintained_witness :
  (UnregisterListener World.OneOnAB {| Channel := World.TagAB; Id := 1 |}).1
    !! World.TagAB = None.
Proof.
  refine (proj1 (proj2 (proj2 (proj2 (proj2 presence_invariant_is_maintained))))
            World.OneOnAB {| Channel := World.TagAB; Id := 1 |}
            {| HandleId := 1; Callback := 1%nat;
               GameplayMessageStructType := Some World.Death;
               bHasValidType := true; MatchCriteria := ExactMatch |} _ _ _).
  - reflexivity.
  - vm_compute. reflexivity.
  - reflexivity.
Defined.

(** ** Unregistering *)

(** C7 -- [UnregisterListener] always returns: with an invalid handle,
    such as the default one, it logs a warning and returns the registry
    as it was; with a valid handle that names no entry of its channel's
    list it returns the registry as it was and logs nothing; so a second
    call with the same handle changes nothing.  The registry stores no
    empty list and its ids are distinct within each list. *)
Theorem unregister_is_a_noop_when_nothing_matches
    (ListenerMap : TListenerMap)
    (Handle : FDanzmannGameplayMessagesListenerHandle) :
  PresenceInvariant ListenerMap ->
  UniqueHandleIds ListenerMap ->
  UnregisterListener ListenerMap DefaultHandle = (ListenerMap, [WarningInvalidHandle])
  /\ (IsValid Handle = false ->
      UnregisterListener ListenerMap Handle = (ListenerMap, [WarningInvalidHandle]))
  /\ (IsValid Handle = true ->
      Forall (fun Entry => HandleId Entry <> Id Handle)
        (ListenersAt ListenerMap (Channel Handle)) ->
      UnregisterListener ListenerMap Handle = (ListenerMap, []))
  /\ (IsValid Handle = true ->
      UnregisterListener (UnregisterListener ListenerMap Handle).1 Handle =
      ((UnregisterListener ListenerMap Handle).1, [])).
Proof.
  intros Hpres Huniq. apply PresenceInvariant_NoEmptyList in Hpres.
  assert (Hnomatch :
            forall m : TListenerMap,
              NoEmptyList m -> IsValid Handle = true ->
              Forall (fun Entry => HandleId Entry <> Id Handle)
                (ListenersAt m (Channel Handle)) ->
              UnregisterListener m Handle = (m, [])).
  { intros m Hm Hvalid Hall. unfold UnregisterListener. rewrite Hvalid.
    rewrite UnregisterListener_Internal_no_match by assumption. reflexivity. }
  repeat match goal with |- _ /\ _ => split end.
  - reflexivity.
  - intros Hinvalid. unfold UnregisterListener. rewrite Hinvalid. reflexivity.
  - intros Hvalid Hall. apply Hnomatch; assumption.
  - intros Hvalid. apply Hnomatch.
    + apply UnregisterListener_NoEmptyList, Hpres.
    + exact Hvalid.
    + unfold UnregisterListener. rewrite Hvalid. cbn [fst]. unfold ListenersAt.
      destruct (UnregisterListener_Internal ListenerMap (Channel Handle) (Id Handle)
                  !! Channel Handle) as [Stored |] eqn:HStored; [| constructor].
      apply UnregisterListener_Internal_lookup_eq in HStored
        as (L & HL & _ & [-> | [Hnil _]]).
      * apply RemainingAfter_id_gone. eapply Huniq, HL.
      * exfalso. exact (Hpres _ _ HL Hnil).
Qed.

Lemma OneOnAB_Presence : PresenceInvariant World.OneOnAB.
Proof.
  apply PresenceInvariant_NoEmptyList, RegisterListener_Internal_NoEmptyList,
    NoEmptyList_empty.
Defined.

Lemma OneOnAB_Unique : UniqueHandleIds World.OneOnAB.
Proof.
  apply RegisterListener_Internal_Unique;
    [vm_compute; split; [discriminate | reflexivity]
    | apply IdsWithinCounter_empty | apply UniqueHandleIds_empty].
Defined.

Lemma unregister_is_a_noop_when_nothing_matches_witness :
  let Handle := {| Channel := World.TagAB; Id := 1 |} in
  UnregisterListener (UnregisterListener World.OneOnAB Handle).1 Handle =
  ((UnregisterListener World.OneOnAB Handle).1, []).
Proof.
  intros Handle.
  refine (proj2 (proj2 (proj2 (unregister_is_a_noop_when_nothing_matches
                                 World.OneOnAB Handle _ _))) _).
  - exact OneOnAB_Presence.
  - exact OneOnAB_Unique.
  - reflexivity.
Defined.

(** ** Handle ids over a run of registrations and unregistrations *)

Lemma seqZ_sorted (Start : Z) (Count : nat) :
  StronglySorted Z.lt (seqZ Start (Z.of_nat Count)).
Proof.
  revert Start. induction Count as [| Count IH]; intros Start.
  - rewrite seqZ_nil by lia. constructor.
  - rewrite seqZ_cons by lia.
    replace (Z.pred (Z.of_nat (S Count))) with (Z.of_nat Count) by lia.
    constructor; [apply IH |].
    rewrite Forall_forall. intros k Hk. apply elem_of_seqZ in Hk. lia.
Qed.

Lemma IssuedIds_app (Tag : FGameplayTag)
    (Hs1 Hs2 : list FDanzmannGameplayMessagesListenerHandle) :
  IssuedIds Tag (Hs1 ++ Hs2) = IssuedIds Tag Hs1 ++ IssuedIds Tag Hs2.
Proof. unfold IssuedIds. rewrite filter_app, fmap_app. reflexivity. Qed.

Lemma CounterAt_register_eq (ListenerMap : TListenerMap) (Tag : FGameplayTag)
    (Cb : TFunctionId) (T : option UScriptStruct)
    (Crit : EDanzmannGameplayMessagesMatchCriteria) :
  CounterAt (RegisterListener_Internal ListenerMap Tag Cb T Crit).1 Tag =
  wrap_int32 (CounterAt ListenerMap Tag + 1).
Proof.
  unfold CounterAt at 1. rewrite RegisterListener_Internal_lookup_eq. reflexivity.
Qed.

Lemma CounterAt_register_ne (ListenerMap : TListenerMap) (Tag Other : FGameplayTag)
    (Cb : TFunctionId) (T : option UScriptStruct)
    (Crit : EDanzmannGameplayMessagesMatchCriteria) :
  Tag <> Other ->
  CounterAt (RegisterListener_Internal ListenerMap Tag Cb T Crit).1 Other =
  CounterAt ListenerMap Other.
Proof.
  intros Hne. unfold CounterAt.
  rewrite RegisterListener_Internal_lookup_ne by assumption. reflexivity.
Qed.

(** Unregistering keeps the counter of a channel unless it drops the
    channel. *)
Lemma CounterAt_unregister_kept (ListenerMap : TListenerMap)
    (Handle : FDanzmannGameplayMessagesListenerHandle) (Tag : FGameplayTag) :
  (is_Some (ListenerMap !! Tag) ->
   is_Some ((UnregisterListener ListenerMap Handle).1 !! Tag)) ->
  CounterAt (UnregisterListener ListenerMap Handle).1 Tag = CounterAt ListenerMap Tag.
Proof.
  unfold UnregisterListener. destruct (IsValid Handle); cbn [fst]; [| reflexivity].
  intros Hkept. unfold CounterAt.
  destruct (decide (Channel Handle = Tag)) as [<- | Hne].
  - destruct (ListenerMap !! Channel Handle) as [L |] eqn:HL.
    + destruct (Hkept (ex_intro _ L eq_refl)) as [Stored HStored].
      rewrite HStored.
      apply UnregisterListener_Internal_lookup_eq in HStored
        as (L' & HL' & Hcnt & _).
      rewrite HL in HL'. injection HL' as <-. exact Hcnt.
    + rewrite UnregisterListener_Internal_unfold, HL, HL. reflexivity.
  - rewrite UnregisterListener_Internal_lookup_ne by assumption. reflexivity.
Qed.

Lemma IssuedIds_register_eq (ListenerMap : TListenerMap) (Tag : FGameplayTag)
    (Cb : TFunctionId) (T : option UScriptStruct)
    (Crit : EDanzmannGameplayMessagesMatchCriteria) :
  IssuedIds Tag [(RegisterListener_Internal ListenerMap Tag Cb T Crit).2] =
  [wrap_int32 (CounterAt ListenerMap Tag + 1)].
Proof.
  unfold IssuedIds. rewrite RegisterListener_Internal_handle.
  rewrite filter_cons, decide_True by reflexivity. reflexivity.
Qed.

Lemma IssuedIds_register_ne (ListenerMap : TListenerMap) (Tag Other : FGameplayTag)
    (Cb : TFunctionId) (T : option UScriptStruct)
    (Crit : EDanzmannGameplayMessagesMatchCriteria) :
  Tag <> Other ->
  IssuedIds Other [(RegisterListener_Internal ListenerMap Tag Cb T Crit).2] = [].
Proof.
  intros Hne. unfold IssuedIds. rewrite RegisterListener_Internal_handle.
  rewrite filter_cons, decide_False by exact Hne. reflexivity.
Qed.

Lemma RunOperations_issued (Tag : FGameplayTag) (Ops : list Operation) :
  forall ListenerMap : TListenerMap,
    0 <= CounterAt ListenerMap Tag ->
    CounterAt ListenerMap Tag
    + Z.of_nat (length (IssuedIds Tag (RunOperations Ops ListenerMap).2))
    <= INT32_MAX ->
    ChannelKept Tag Ops ListenerMap ->
    IssuedIds Tag (RunOperations Ops ListenerMap).2 =
    seqZ (CounterAt ListenerMap Tag + 1)
      (Z.of_nat (length (IssuedIds Tag (RunOperations Ops ListenerMap).2)))
    /\ CounterAt (RunOperations Ops ListenerMap).1 Tag =
       CounterAt ListenerMap Tag
       + Z.of_nat (length (IssuedIds Tag (RunOperations Ops ListenerMap).2)).
Proof.
  induction Ops as [| Op Rest IH]; intros m Hlow Hhigh Hkept.
  - cbn. split; [reflexivity | lia].
  - cbn [RunOperations ChannelKept snd fst] in *. destruct Hkept as [Hstep Hkept].
    rewrite IssuedIds_app in *. rewrite length_app in *.
    destruct Op as [C Cb T Crit | H]; cbn [ApplyOperation fst snd] in *.
    + destruct (decide (C = Tag)) as [-> | Hne].
      * rewrite IssuedIds_register_eq in *. cbn [length app] in *.
        assert (Hid : wrap_int32 (CounterAt m Tag + 1) = CounterAt m Tag + 1)
          by (apply wrap_int32_in_range; unfold INT32_MAX in *; lia).
        rewrite Hid in *.
        destruct (IH (RegisterListener_Internal m Tag Cb T Crit).1) as [Hids Hcnt].
        -- rewrite CounterAt_register_eq, Hid. lia.
        -- rewrite CounterAt_register_eq, Hid. lia.
        -- exact Hkept.
        -- rewrite CounterAt_register_eq, Hid in Hids, Hcnt. split.
           ++ rewrite (seqZ_cons (CounterAt m Tag + 1)) by lia. f_equal.
              rewrite Hids at 1. f_equal; lia.
           ++ rewrite Hcnt. lia.
      * rewrite IssuedIds_register_ne in * by exact Hne. cbn [length app] in *.
        rewrite <- (CounterAt_register_ne m C Tag Cb T Crit Hne).
        apply IH.
        -- rewrite CounterAt_register_ne by assumption. exact Hlow.
        -- rewrite CounterAt_register_ne by assumption. exact Hhigh.
        -- exact Hkept.
    + change (IssuedIds Tag []) with (@nil Z) in *. cbn [length app] in *.
      rewrite <- (CounterAt_unregister_kept m H Tag Hstep).
      apply IH.
      * rewrite CounterAt_unregister_kept by assumption. exact Hlow.
      * rewrite CounterAt_unregister_kept by assumption. exact Hhigh.
      * exact Hkept.
Qed.

(** Registering never drops a key. *)
Lemma RegisterListener_Internal_keeps (ListenerMap : TListenerMap)
    (Tag Other : FGameplayTag) (Cb : TFunctionId) (T : option UScriptStruct)
    (Crit : EDanzmannGameplayMessagesMatchCriteria) :
  is_Some (ListenerMap !! Other) ->
  is_Some ((RegisterListener_Internal ListenerMap Tag Cb T Crit).1 !! Other).
Proof.
  intros Hsome. destruct (decide (Tag = Other)) as [<- | Hne].
  - rewrite RegisterListener_Internal_lookup_eq. eexists. reflexivity.
  - rewrite RegisterListener_Internal_lookup_ne by assumption. exact Hsome.
Qed.

(** A run of registrations alone keeps every key. *)
Lemma ChannelKept_registrations (Tag : FGameplayTag) (Ops : list Operation) :
  Forall (fun Op => match Op with OpRegister _ _ _ _ => True | _ => False end) Ops ->
  forall ListenerMap : TListenerMap, ChannelKept Tag Ops ListenerMap.
Proof.
  induction 1 as [| Op Rest HOp _ IH]; intros m; cbn [ChannelKept].
  - exact I.
  - split; [| apply IH].
    destruct Op as [C Cb T Crit | H]; [| contradiction].
    apply RegisterListener_Internal_keeps.
Qed.

(** C4 -- As long as no step drops the channel's key from the map, the
    ids issued on the channel by a run of registrations and
    unregistrations are the consecutive values after the channel's
    counter: strictly increasing, pairwise distinct, and larger than the
    id of every entry the list held before and than every id issued
    before, so none is issued twice.  The counter stays within [int32].
    A channel whose key is absent -- never registered, or dropped when
    its list became empty -- is numbered from 1 again. *)
Theorem handle_ids_increase_while_channel_is_kept
    (Tag : FGameplayTag) (Ops : list Operation) (ListenerMap : TListenerMap) :
  IdsWithinCounter ListenerMap ->
  0 <= CounterAt ListenerMap Tag ->
  CounterAt ListenerMap Tag
  + Z.of_nat (length (IssuedIds Tag (RunOperations Ops ListenerMap).2))
  <= INT32_MAX ->
  ChannelKept Tag Ops ListenerMap ->
  let Ids := IssuedIds Tag (RunOperations Ops ListenerMap).2 in
  Ids = seqZ (CounterAt ListenerMap Tag + 1) (Z.of_nat (length Ids))
  /\ StronglySorted Z.lt Ids
  /\ NoDup Ids
  /\ (forall NewId, NewId ∈ Ids -> CounterAt ListenerMap Tag < NewId)
  /\ (forall NewId Entry,
        NewId ∈ Ids -> Entry ∈ ListenersAt ListenerMap Tag ->
        HandleId Entry < NewId)
  /\ (forall Cb T Crit,
        ListenerMap !! Tag = None ->
        Id (RegisterListener_Internal ListenerMap Tag Cb T Crit).2 = 1).
Proof.
  intros Hwithin Hlow Hhigh Hkept Ids.
  destruct (RunOperations_issued Tag Ops ListenerMap Hlow Hhigh Hkept) as [Hids _].
  fold Ids in Hids.
  assert (Hnew : forall NewId, NewId ∈ Ids -> CounterAt ListenerMap Tag < NewId).
  { intros NewId HNew. rewrite Hids in HNew. apply elem_of_seqZ in HNew. lia. }
  repeat match goal with |- _ /\ _ => split end.
  - exact Hids.
  - rewrite Hids. apply seqZ_sorted.
  - rewrite Hids. apply NoDup_seqZ.
  - exact Hnew.
  - intros NewId Entry HNew HEntry. apply Hnew in HNew.
    pose proof (ListenersAt_Within _ Tag Hwithin) as Hall.
    rewrite Forall_forall in Hall. specialize (Hall Entry HEntry). lia.
  - intros Cb T Crit Habsent. rewrite RegisterListener_Internal_handle.
    unfold CounterAt. rewrite Habsent. reflexivity.
Qed.

Lemma handle_ids_increase_while_channel_is_kept_witness :
  let Ops :=
    [OpRegister World.TagAB 1%nat (Some World.Death) ExactMatch;
     OpRegister World.TagAB 2%nat (Some World.Death) ExactMatch;
     OpUnregister {| Channel := World.TagAB; Id := 1 |};
     OpRegister World.TagA 3%nat None PartialMatch;
     OpRegister World.TagAB 4%nat (Some World.Kill) ExactMatch] in
  IssuedIds World.TagAB (RunOperations Ops ∅).2 = [1; 2; 3]
  /\ StronglySorted Z.lt (IssuedIds World.TagAB (RunOperations Ops ∅).2).
Proof.
  intros Ops.
  assert (Hkept : ChannelKept World.TagAB Ops ∅).
  { repeat split; intros _; vm_compute; eexists; reflexivity. }
  destruct (handle_ids_increase_while_channel_is_kept World.TagAB Ops ∅
              IdsWithinCounter_empty) as (Hids & Hsorted & _).
  - vm_compute. discriminate.
  - vm_compute. discriminate.
  - exact Hkept.
  - split; [vm_compute; reflexivity | exact Hsorted].
Defined.

(** C4 as stated fails: the only listener of "A" has id 1; unregistering
    it drops the key of "A" together with its counter, and the next
    listener registered on "A" is issued id 1 again. *)
Lemma handle_id_reused_after_channel_emptied :
  let First := RegisterListener_Internal ∅ World.TagA 0%nat None ExactMatch in
  let Emptied := (UnregisterListener First.1 First.2).1 in
  let Second := RegisterListener_Internal Emptied World.TagA 1%nat None ExactMatch in
  Id First.2 = 1
  /\ Emptied !! World.TagA = None
  /\ Second.2 = First.2
  /\ ~ NoDup (IssuedIds World.TagA
                (RunOperations
                   [OpRegister World.TagA 0%nat None ExactMatch;
                    OpUnregister First.2;
                    OpRegister World.TagA 1%nat None ExactMatch] ∅).2).
Proof.
  repeat split.
  intros Hnd. vm_compute in Hnd. apply NoDup_cons in Hnd as [Hnotin _].
  apply Hnotin. left.
Qed.

(** ** Registries reached from the empty one *)

Lemma CounterAt_unregister_cases (ListenerMap : TListenerMap)
    (Handle : FDanzmannGameplayMessagesListenerHandle) (Tag : FGameplayTag) :
  CounterAt (UnregisterListener ListenerMap Handle).1 Tag = CounterAt ListenerMap Tag
  \/ CounterAt (UnregisterListener ListenerMap Handle).1 Tag = 0.
Proof.
  destruct ((UnregisterListener ListenerMap Handle).1 !! Tag) as [Stored |] eqn:HS.
  - left. apply CounterAt_unregister_kept. intros _. exists Stored. exact HS.
  - right. unfold CounterAt. rewrite HS. reflexivity.
Qed.

Lemma UnregisterListener_Within (ListenerMap : TListenerMap)
    (Handle : FDanzmannGameplayMessagesListenerHandle) :
  IdsWithinCounter ListenerMap ->
  IdsWithinCounter (UnregisterListener ListenerMap Handle).1.
Proof.
  intros Hin. unfold UnregisterListener. destruct (IsValid Handle); cbn [fst].
  - apply UnregisterListener_Internal_Within, Hin.
  - exact Hin.
Qed.

Lemma WellFormed_empty : WellFormed 0 ∅.
Proof.
  repeat split;
    [apply NoEmptyList_empty | apply UniqueHandleIds_empty
    | apply IdsWithinCounter_empty | | ];
    unfold CounterAt; rewrite lookup_empty; simpl; lia.
Qed.

Lemma WellFormed_step (Bound : Z) (Op : Operation) (ListenerMap : TListenerMap) :
  Bound < INT32_MAX ->
  WellFormed Bound ListenerMap ->
  WellFormed (Bound + 1) (ApplyOperation Op ListenerMap).1.
Proof.
  intros Hbound (Hne & Huniq & Hin & Hcnt).
  destruct Op as [C Cb T Crit | H]; cbn [ApplyOperation fst].
  - assert (Hrange : 0 <= CounterAt ListenerMap C < INT32_MAX)
      by (specialize (Hcnt C); lia).
    repeat split.
    + apply RegisterListener_Internal_NoEmptyList, Hne.
    + apply RegisterListener_Internal_Unique; assumption.
    + apply RegisterListener_Internal_Within; assumption.
    + destruct (decide (C = Tag)) as [<- | Hdiff].
      * rewrite CounterAt_register_eq, wrap_int32_in_range;
          unfold INT32_MAX in *; lia.
      * rewrite CounterAt_register_ne by assumption. apply Hcnt.
    + destruct (decide (C = Tag)) as [<- | Hdiff].
      * rewrite CounterAt_register_eq, wrap_int32_in_range;
          [specialize (Hcnt C) | unfold INT32_MAX in *]; lia.
      * rewrite CounterAt_register_ne by assumption. specialize (Hcnt Tag). lia.
  - repeat split.
    + apply UnregisterListener_NoEmptyList, Hne.
    + apply UnregisterListener_Unique, Huniq.
    + apply UnregisterListener_Within, Hin.
    + destruct (CounterAt_unregister_cases ListenerMap H Tag) as [-> | ->];
        [apply Hcnt | lia].
    + specialize (Hcnt Tag).
      destruct (CounterAt_unregister_cases ListenerMap H Tag) as [-> | ->]; lia.
Qed.

Lemma WellFormed_run (Ops : list Operation) :
  forall (Bound : Z) (ListenerMap : TListenerMap),
    Bound + Z.of_nat (length Ops) <= INT32_MAX ->
    WellFormed Bound ListenerMap ->
    WellFormed (Bound + Z.of_nat (length Ops)) (RunOperations Ops ListenerMap).1.
Proof.
  induction Ops as [| Op Rest IH]; intros Bound m Hbound Hwf.
  - cbn [RunOperations fst length]. replace (Bound + Z.of_nat 0) with Bound by lia.
    exact Hwf.
  - cbn [RunOperations fst length] in *.
    replace (Bound + Z.of_nat (S (length Rest)))
      with (Bound + 1 + Z.of_nat (length Rest)) by lia.
    apply IH; [lia |]. apply WellFormed_step; [lia | exact Hwf].
Qed.

(** Every registration on a registry built from the empty one by fewer
    than [INT32_MAX] operations returns a valid handle. *)
Lemma registration_after_run_is_valid (Ops : list Operation)
    (Tag : FGameplayTag) (Cb : TFunctionId) (T : option UScriptStruct)
    (Crit : EDanzmannGameplayMessagesMatchCriteria) :
  Z.of_nat (length Ops) < INT32_MAX ->
  IsValid (RegisterListener_Internal (RunOperations Ops ∅).1 Tag Cb T Crit).2 = true.
Proof.
  intros Hlen.
  destruct (WellFormed_run Ops 0 ∅) as (_ & _ & _ & Hcnt);
    [lia | apply WellFormed_empty |].
  specialize (Hcnt Tag). rewrite RegisterListener_Internal_handle.
  unfold IsValid. cbn [Id].
  rewrite wrap_int32_in_range by (unfold INT32_MAX in *; lia).
  apply negb_true_iff, Z.eqb_neq. lia.
Qed.

(** * More of the subsystem *)

(** ** Registering and unregistering, composed *)

Lemma IndexOfByPredicate_snoc {A : Type} (Pred : A -> bool) (Array : list A) (x : A) :
  Forall (fun y => Pred y = false) Array ->
  Pred x = true ->
  IndexOfByPredicate Pred (Array ++ [x]) = Some (length Array).
Proof.
  intros Hall Hx. induction Hall as [| y rest Hy _ IH]; simpl.
  - rewrite Hx. reflexivity.
  - rewrite Hy, IH. reflexivity.
Qed.

Lemma RemoveAtSwap_snoc {A : Type} (Array : list A) (x : A) :
  RemoveAtSwap (length Array) (Array ++ [x]) = Array.
Proof.
  unfold RemoveAtSwap. rewrite last_snoc.
  rewrite insert_app_r_alt by lia. rewrite Nat.sub_diag. simpl.
  rewrite length_app. simpl.
  replace (length Array + 1 - 1)%nat with (length Array) by lia.
  apply take_app_length.
Qed.

(** What is stored under the channel after unregistering. *)
Lemma ListenersAt_unregister_eq (ListenerMap : TListenerMap)
    (Tag : FGameplayTag) (k : Z) :
  ListenersAt (UnregisterListener_Internal ListenerMap Tag k) Tag =
  RemainingAfter k (ListenersAt ListenerMap Tag).
Proof.
  rewrite UnregisterListener_Internal_unfold. unfold ListenersAt at 2.
  destruct (ListenerMap !! Tag) as [L |] eqn:HL.
  - destruct (RemainingAfter k (Listeners L)) as [| E Rest] eqn:Hrem;
      unfold ListenersAt.
    + rewrite lookup_delete_eq. reflexivity.
    + rewrite lookup_insert_eq. reflexivity.
  - unfold ListenersAt. rewrite HL. reflexivity.
Qed.

Lemma ListenersAt_unregister_ne (ListenerMap : TListenerMap)
    (Tag Other : FGameplayTag) (k : Z) :
  Tag <> Other ->
  ListenersAt (UnregisterListener_Internal ListenerMap Tag k) Other =
  ListenersAt ListenerMap Other.
Proof.
  intros Hne. unfold ListenersAt.
  rewrite UnregisterListener_Internal_lookup_ne by assumption. reflexivity.
Qed.

(** The entry a registration has just appended is the one its handle
    removes. *)
Lemma RemainingAfter_new_entry (Tag : FGameplayTag) (ListenerMap : TListenerMap)
    (Entry : FDanzmannGameplayMessagesListenerData) :
  Forall (fun E => HandleId E <> HandleId Entry) (ListenersAt ListenerMap Tag) ->
  RemainingAfter (HandleId Entry) (ListenersAt ListenerMap Tag ++ [Entry]) =
  ListenersAt ListenerMap Tag.
Proof.
  intros Hall. unfold RemainingAfter.
  rewrite IndexOfByPredicate_snoc.
  - apply RemoveAtSwap_snoc.
  - eapply Forall_impl; [exact Hall |]. simpl. intros E HE.
    apply Z.eqb_neq, HE.
  - apply Z.eqb_refl.
Qed.

(** X1 -- Registering and then unregistering with the handle just
    returned gives back the channel's listeners as they were, in the
    same order, and touches no other channel; a channel that had no key
    before has none after, so the registry is as it was.  Ids of the
    registry were issued by its counters and the counter of the channel
    can still be incremented. *)
Theorem register_then_unregister_restores (ListenerMap : TListenerMap)
    (Tag : FGameplayTag) (Cb : TFunctionId) (T : option UScriptStruct)
    (Crit : EDanzmannGameplayMessagesMatchCriteria) :
  IdsWithinCounter ListenerMap ->
  0 <= CounterAt ListenerMap Tag < INT32_MAX ->
  let Registered := RegisterListener_Internal ListenerMap Tag Cb T Crit in
  let Result := UnregisterListener Registered.1 Registered.2 in
  ListenersAt Result.1 Tag = ListenersAt ListenerMap Tag
  /\ (forall Other, Other <> Tag -> Result.1 !! Other = ListenerMap !! Other)
  /\ (ListenerMap !! Tag = None -> Result.1 = ListenerMap)
  /\ Result.2 = [].
Proof.
  intros Hwithin Hrange Registered Result.
  assert (Hid : wrap_int32 (CounterAt ListenerMap Tag + 1) = CounterAt ListenerMap Tag + 1)
    by (apply wrap_int32_in_range; unfold INT32_MAX in *; lia).
  assert (Hvalid : IsValid Registered.2 = true).
  { subst Registered. rewrite RegisterListener_Internal_handle.
    unfold IsValid. cbn [Id]. rewrite Hid. apply negb_true_iff, Z.eqb_neq. lia. }
  assert (Hres : Result =
                 (UnregisterListener_Internal Registered.1 Tag
                    (wrap_int32 (CounterAt ListenerMap Tag + 1)), [])).
  { subst Result. unfold UnregisterListener. rewrite Hvalid.
    subst Registered. rewrite RegisterListener_Internal_handle. reflexivity. }
  assert (Hlist : ListenersAt Result.1 Tag = ListenersAt ListenerMap Tag).
  { rewrite Hres. cbn [fst]. rewrite ListenersAt_unregister_eq.
    unfold ListenersAt at 1. subst Registered.
    rewrite RegisterListener_Internal_lookup_eq. cbn [Listeners].
    apply (RemainingAfter_new_entry Tag ListenerMap
             {| HandleId := wrap_int32 (CounterAt ListenerMap Tag + 1);
                Callback := Cb; GameplayMessageStructType := T;
                bHasValidType := bool_decide (T <> None);
                MatchCriteria := Crit |}).
    cbn [HandleId]. rewrite Hid.
    eapply Forall_impl; [apply ListenersAt_Within, Hwithin |].
    simpl. intros E HE. lia. }
  repeat match goal with |- _ /\ _ => split end.
  - exact Hlist.
  - intros Other Hne. rewrite Hres. cbn [fst].
    rewrite UnregisterListener_Internal_lookup_ne by congruence.
    subst Registered. apply RegisterListener_Internal_lookup_ne. congruence.
  - intros Habsent. apply map_eq. intros Key.
    destruct (decide (Key = Tag)) as [-> | Hne].
    + rewrite Habsent. unfold ListenersAt in Hlist. rewrite Habsent in Hlist.
      rewrite Hres in *. cbn [fst] in *.
      rewrite UnregisterListener_Internal_unfold in *.
      subst Registered. rewrite RegisterListener_Internal_lookup_eq in *.
      cbn [Listeners] in *.
      destruct (RemainingAfter _ _) as [| E Rest] eqn:Hrem.
      * apply lookup_delete_eq.
      * rewrite lookup_insert_eq in Hlist. discriminate.
    + rewrite Hres. cbn [fst].
      rewrite UnregisterListener_Internal_lookup_ne by congruence.
      subst Registered. apply RegisterListener_Internal_lookup_ne. congruence.
  - rewrite Hres. reflexivity.
Qed.

Lemma ParentAndChild_Within : IdsWithinCounter World.ParentAndChild.
Proof.
  unfold World.ParentAndChild.
  apply RegisterListener_Internal_Within;
    [vm_compute; split; [discriminate | reflexivity] |].
  apply RegisterListener_Internal_Within;
    [vm_compute; split; [discriminate | reflexivity] | apply IdsWithinCounter_empty].
Defined.

Lemma register_then_unregister_restores_witness :
  let Registered :=
    RegisterListener_Internal World.ParentAndChild World.TagAB 5%nat
      (Some World.Kill) PartialMatch in
  ListenersAt (UnregisterListener Registered.1 Registered.2).1 World.TagAB =
  ListenersAt World.ParentAndChild World.TagAB.
Proof.
  intros Registered.
  refine (proj1 (register_then_unregister_restores World.ParentAndChild World.TagAB
                   5%nat (Some World.Kill) PartialMatch _ _)).
  - exact ParentAndChild_Within.
  - vm_compute. split; [discriminate | reflexivity].
Defined.

(** With distinct ids, removal by the id of a stored entry takes out
    that entry. *)
Lemma RemainingAfter_removes (Entries : list FDanzmannGameplayMessagesListenerData)
    (Entry : FDanzmannGameplayMessagesListenerData) :
  NoDup (HandleId <$> Entries) ->
  Entry ∈ Entries ->
  Entry :: RemainingAfter (HandleId Entry) Entries ≡ₚ Entries.
Proof.
  intros Hnd Hin.
  destruct (RemainingAfter_cases (HandleId Entry) Entries)
    as [[Hall _] | (E & Hk & Hperm)].
  - exfalso. rewrite Forall_forall in Hall. exact (Hall _ Hin eq_refl).
  - assert (E = Entry) as ->; [| exact Hperm].
    apply list_elem_of_lookup in Hin as [i Hi].
    assert (HE : E ∈ Entries).
    { eapply elem_of_submseteq; [left | apply Permutation_submseteq, Hperm]. }
    apply list_elem_of_lookup in HE as [j Hj].
    assert (i = j).
    { eapply NoDup_lookup; [exact Hnd | |];
        rewrite list_lookup_fmap; [rewrite Hi | rewrite Hj]; simpl;
        [reflexivity | congruence]. }
    subst j. congruence.
Qed.

(** X2 -- Unregistering with a valid handle that names a stored entry
    removes that entry and no other: the channel's list is the old one
    without it (up to order), no entry with that id is left, other
    channels are untouched and the channel's counter stays while the
    channel keeps its key.  Ids are distinct within the list. *)
Theorem unregister_removes_exactly_the_named_entry (ListenerMap : TListenerMap)
    (Handle : FDanzmannGameplayMessagesListenerHandle)
    (Entry : FDanzmannGameplayMessagesListenerData) :
  UniqueHandleIds ListenerMap ->
  IsValid Handle = true ->
  Entry ∈ ListenersAt ListenerMap (Channel Handle) ->
  HandleId Entry = Id Handle ->
  let After := (UnregisterListener ListenerMap Handle).1 in
  Entry :: ListenersAt After (Channel Handle) ≡ₚ ListenersAt ListenerMap (Channel Handle)
  /\ Forall (fun E => HandleId E <> Id Handle) (ListenersAt After (Channel Handle))
  /\ (forall Other, Other <> Channel Handle -> After !! Other = ListenerMap !! Other)
  /\ (is_Some (After !! Channel Handle) ->
      CounterAt After (Channel Handle) = CounterAt ListenerMap (Channel Handle)).
Proof.
  intros Huniq Hvalid Hin Hid After.
  pose proof (ListenersAt_Unique _ (Channel Handle) Huniq) as Hnd.
  assert (HAfter : After =
                   UnregisterListener_Internal ListenerMap (Channel Handle) (Id Handle)).
  { subst After. unfold UnregisterListener. rewrite Hvalid. reflexivity. }
  repeat match goal with |- _ /\ _ => split end.
  - rewrite HAfter, ListenersAt_unregister_eq, <- Hid.
    apply RemainingAfter_removes; assumption.
  - rewrite HAfter, ListenersAt_unregister_eq.
    apply RemainingAfter_id_gone, Hnd.
  - intros Other Hne. rewrite HAfter.
    apply UnregisterListener_Internal_lookup_ne. congruence.
  - intros Hkept. subst After. apply CounterAt_unregister_kept.
    intros _. exact Hkept.
Qed.

Lemma unregister_removes_exactly_the_named_entry_witness :
  let Handle := {| Channel := World.TagA; Id := 1 |} in
  Forall (fun E => HandleId E <> 1)
    (ListenersAt (UnregisterListener World.ParentAndChild Handle).1 World.TagA).
Proof.
  intros Handle.
  refine (proj1 (proj2 (unregister_removes_exactly_the_named_entry
                          World.ParentAndChild Handle
                          {| HandleId := 1; Callback := 0%nat;
                             GameplayMessageStructType := Some World.Kill;
                             bHasValidType := true; MatchCriteria := PartialMatch |}
                          _ _ _ _))).
  - exact ParentAndChild_Unique.
  - reflexivity.
  - vm_compute. left.
  - reflexivity.
Defined.

(** Registering on a channel that has no key and unregistering again
    gives the registry back. *)
Lemma register_unregister_absent (ListenerMap : TListenerMap)
    (Tag : FGameplayTag) (Cb : TFunctionId) (T : option UScriptStruct)
    (Crit : EDanzmannGameplayMessagesMatchCriteria) :
  ListenerMap !! Tag = None ->
  (RegisterListener_Internal ListenerMap Tag Cb T Crit).2 = {| Channel := Tag; Id := 1 |}
  /\ (UnregisterListener (RegisterListener_Internal ListenerMap Tag Cb T Crit).1
        {| Channel := Tag; Id := 1 |}).1 = ListenerMap.
Proof.
  intros Habsent.
  assert (Hcnt : CounterAt ListenerMap Tag = 0)
    by (unfold CounterAt; rewrite Habsent; reflexivity).
  split.
  - rewrite RegisterListener_Internal_handle, Hcnt. reflexivity.
  - unfold UnregisterListener. cbn [IsValid Id Channel Z.eqb negb fst].
    unfold UnregisterListener_Internal.
    rewrite RegisterListener_Internal_lookup_eq.
    unfold ListenersAt. rewrite Habsent, Hcnt. cbn.
    apply delete_insert_id, Habsent.
Qed.

(** X3 -- A handle outlives its channel's counter: when a channel that
    had no key gets a listener, loses it again and gets a second one,
    the second registration returns the very handle of the first, and
    unregistering with the first handle removes the second listener. *)
Theorem old_handle_removes_listener_registered_later
    (ListenerMap : TListenerMap) (Tag : FGameplayTag)
    (Cb1 Cb2 : TFunctionId) (T1 T2 : option UScriptStruct)
    (Crit1 Crit2 : EDanzmannGameplayMessagesMatchCriteria) :
  ListenerMap !! Tag = None ->
  let First := RegisterListener_Internal ListenerMap Tag Cb1 T1 Crit1 in
  let Emptied := (UnregisterListener First.1 First.2).1 in
  let Second := RegisterListener_Internal Emptied Tag Cb2 T2 Crit2 in
  Second.2 = First.2
  /\ Callback <$> ListenersAt Second.1 Tag = [Cb2]
  /\ (UnregisterListener Second.1 First.2).1 !! Tag = None.
Proof.
  intros Habsent First Emptied Second.
  destruct (register_unregister_absent ListenerMap Tag Cb1 T1 Crit1 Habsent)
    as [HFirst HEmptied].
  assert (HE : Emptied = ListenerMap).
  { subst Emptied First. rewrite HFirst. exact HEmptied. }
  destruct (register_unregister_absent ListenerMap Tag Cb2 T2 Crit2 Habsent)
    as [HSecond HBack].
  subst Second. rewrite HE. fold First in HFirst. rewrite HFirst, HSecond.
  repeat match goal with |- _ /\ _ => split end.
  - reflexivity.
  - unfold ListenersAt. rewrite RegisterListener_Internal_lookup_eq.
    unfold ListenersAt. rewrite Habsent. reflexivity.
  - rewrite HBack. exact Habsent.
Qed.

Lemma old_handle_removes_listener_registered_later_witness :
  let First := RegisterListener_Internal World.OneOnAB World.TagA 3%nat None ExactMatch in
  let Emptied := (UnregisterListener First.1 First.2).1 in
  let Second := RegisterListener_Internal Emptied World.TagA 4%nat None PartialMatch in
  Second.2 = First.2
  /\ Callback <$> ListenersAt Second.1 World.TagA = [4%nat]
  /\ (UnregisterListener Second.1 First.2).1 !! World.TagA = None.
Proof.
  apply (old_handle_removes_listener_registered_later World.OneOnAB World.TagA
           3%nat 4%nat None None ExactMatch PartialMatch).
  vm_compute. reflexivity.
Defined.

(** ** Teardown *)

(** X4 -- After [Deinitialize] the registry is empty: unregistering with
    any handle leaves it empty, a broadcast on any channel calls nobody
    and logs nothing, and the next registration on any channel is
    issued id 1 again. *)
Theorem deinitialize_drops_every_registration
    (StructIsAlive : UScriptStruct -> bool)
    (Invoke : TFunctionId -> FGameplayTag -> UScriptStruct -> VoidPtr ->
              TListenerMap -> TListenerMap)
    (ListenerMap : TListenerMap)
    (Handle : FDanzmannGameplayMessagesListenerHandle)
    (Tag : FGameplayTag) (MessageStruct : UScriptStruct) (Payload : VoidPtr)
    (Cb : TFunctionId) (T : option UScriptStruct)
    (Crit : EDanzmannGameplayMessagesMatchCriteria) :
  let Torn := Deinitialize ListenerMap in
  (forall Key, ListenersAt Torn Key = [])
  /\ (UnregisterListener Torn Handle).1 = Torn
  /\ BroadcastGameplayMessage StructIsAlive Invoke Torn Tag MessageStruct Payload
     = (Torn, [])
  /\ (RegisterListener_Internal Torn Tag Cb T Crit).2 = {| Channel := Tag; Id := 1 |}.
Proof.
  intros Torn. subst Torn. unfold Deinitialize.
  repeat match goal with |- _ /\ _ => split end.
  - intros Key. unfold ListenersAt. rewrite lookup_empty. reflexivity.
  - unfold UnregisterListener. destruct (IsValid Handle); cbn [fst]; [| reflexivity].
    unfold UnregisterListener_Internal. rewrite lookup_empty. reflexivity.
  - unfold BroadcastGameplayMessage, BroadcastGameplayMessage_Internal.
    apply BroadcastFromTag_nobody. intros Key _. apply lookup_empty.
  - rewrite RegisterListener_Internal_handle. unfold CounterAt.
    rewrite lookup_empty. reflexivity.
Qed.

(** ** What a broadcast does to the registry *)

Section ChannelPreservation.

Variable StructIsAlive : UScriptStruct -> bool.
Variable Invoke :
  TFunctionId -> FGameplayTag -> UScriptStruct -> VoidPtr -> TListenerMap -> TListenerMap.
Variable Channel : FGameplayTag.
Variable MessageStructType : UScriptStruct.
Variable MessagePayload : VoidPtr.

Local Abbreviation ToListener :=
  (BroadcastToListener StructIsAlive Invoke Channel MessageStructType MessagePayload).
Local Abbreviation AtTag :=
  (BroadcastAtTag StructIsAlive Invoke Channel MessageStructType MessagePayload).
Local Abbreviation FromTag :=
  (BroadcastFromTag StructIsAlive Invoke Channel MessageStructType MessagePayload).
Local Abbreviation Verdict :=
  (EntryVerdict StructIsAlive Channel MessageStructType MessagePayload).

(** The only unregistration a broadcast performs is under the broadcast
    channel: what unregistering there and the callbacks keep, the
    broadcast keeps. *)
Variable Inv : TListenerMap -> Prop.
Hypothesis Inv_unregister :
  forall (m : TListenerMap) (k : Z),
    Inv m -> Inv (UnregisterListener_Internal m Channel k).
Hypothesis Inv_invoke :
  forall (Cb : TFunctionId) (C : FGameplayTag) (T : UScriptStruct) (P : VoidPtr)
         (m : TListenerMap),
    Inv m -> Inv (Invoke Cb C T P m).

Lemma BroadcastToListener_keeps (Tag : FGameplayTag) (b : bool)
    (State : TListenerMap * list Event)
    (Listener : FDanzmannGameplayMessagesListenerData) :
  Inv State.1 -> Inv (ToListener Tag b State Listener).1.
Proof.
  destruct State as [m Log]. cbn [fst]. intros Hm.
  unfold BroadcastToListener.
  repeat match goal with
         | |- context [if ?c then _ else _] => destruct c
         end; cbn [fst]; auto.
Qed.

Lemma BroadcastListeners_keeps (Tag : FGameplayTag) (b : bool)
    (Copy : list FDanzmannGameplayMessagesListenerData)
    (State : TListenerMap * list Event) :
  Inv State.1 -> Inv (foldl (ToListener Tag b) State Copy).1.
Proof.
  revert State. induction Copy as [| L Rest IH]; intros State HState.
  - exact HState.
  - cbn [foldl]. apply IH, BroadcastToListener_keeps, HState.
Qed.

Lemma BroadcastAtTag_keeps (Tag : FGameplayTag) (b : bool)
    (State : TListenerMap * list Event) :
  Inv State.1 -> Inv (AtTag Tag b State).1.
Proof.
  intros HState. unfold BroadcastAtTag.
  destruct (State.1 !! Tag) as [L |]; [| exact HState].
  apply BroadcastListeners_keeps, HState.
Qed.

Lemma BroadcastFromTag_keeps (Tag : FGameplayTag) (b : bool)
    (State : TListenerMap * list Event) :
  Inv State.1 -> Inv (FromTag Tag b State).1.
Proof.
  revert b State. induction Tag as [| Seg Parent IH]; intros b State HState.
  - exact HState.
  - cbn [BroadcastFromTag]. apply IH, BroadcastAtTag_keeps, HState.
Qed.

End ChannelPreservation.

Section QuietBroadcast.

Variable StructIsAlive : UScriptStruct -> bool.
Variable Invoke :
  TFunctionId -> FGameplayTag -> UScriptStruct -> VoidPtr -> TListenerMap -> TListenerMap.
Variable Channel : FGameplayTag.
Variable MessageStructType : UScriptStruct.
Variable MessagePayload : VoidPtr.

(** The callbacks do not reach the registry. *)
Hypothesis Quiet :
  forall (Cb : TFunctionId) (C : FGameplayTag) (T : UScriptStruct) (P : VoidPtr)
         (m : TListenerMap),
    Invoke Cb C T P m = m.

Local Abbreviation ToListener :=
  (BroadcastToListener StructIsAlive Invoke Channel MessageStructType MessagePayload).
Local Abbreviation AtTag :=
  (BroadcastAtTag StructIsAlive Invoke Channel MessageStructType MessagePayload).
Local Abbreviation FromTag :=
  (BroadcastFromTag StructIsAlive Invoke Channel MessageStructType MessagePayload).
Local Abbreviation Verdict :=
  (EntryVerdict StructIsAlive Channel MessageStructType MessagePayload).

(** Keys other than the broadcast channel keep what they store. *)
Lemma BroadcastFromTag_quiet_frame (Tag : FGameplayTag) (b : bool)
    (ListenerMap : TListenerMap) (Log : list Event) (Other : FGameplayTag) :
  Other <> Channel ->
  (FromTag Tag b (ListenerMap, Log)).1 !! Other = ListenerMap !! Other.
Proof.
  intros Hne.
  apply (BroadcastFromTag_keeps StructIsAlive Invoke Channel MessageStructType
           MessagePayload (fun m => m !! Other = ListenerMap !! Other)).
  - intros m k Hm. rewrite UnregisterListener_Internal_lookup_ne by congruence.
    exact Hm.
  - intros Cb C T P m Hm. rewrite Quiet. exact Hm.
  - reflexivity.
Qed.

Lemma BroadcastAtTag_quiet_frame (Tag : FGameplayTag) (b : bool)
    (ListenerMap : TListenerMap) (Log : list Event) (Other : FGameplayTag) :
  Other <> Channel ->
  (AtTag Tag b (ListenerMap, Log)).1 !! Other = ListenerMap !! Other.
Proof.
  intros Hne.
  apply (BroadcastAtTag_keeps StructIsAlive Invoke Channel MessageStructType
           MessagePayload (fun m => m !! Other = ListenerMap !! Other)).
  - intros m k Hm. rewrite UnregisterListener_Internal_lookup_ne by congruence.
    exact Hm.
  - intros Cb C T P m Hm. rewrite Quiet. exact Hm.
  - reflexivity.
Qed.

(** The list of the broadcast channel only loses entries. *)
Lemma BroadcastFromTag_quiet_shrinks (Tag : FGameplayTag) (b : bool)
    (ListenerMap : TListenerMap) (Log : list Event) :
  ListenersAt (FromTag Tag b (ListenerMap, Log)).1 Channel
  ⊆+ ListenersAt ListenerMap Channel.
Proof.
  apply (BroadcastFromTag_keeps StructIsAlive Invoke Channel MessageStructType
           MessagePayload
           (fun m => ListenersAt m Channel ⊆+ ListenersAt ListenerMap Channel)).
  - intros m k Hm. rewrite ListenersAt_unregister_eq.
    etransitivity; [apply RemainingAfter_submseteq | exact Hm].
  - intros Cb C T P m Hm. rewrite Quiet. exact Hm.
  - reflexivity.
Qed.

(** Above the channel the walk reads the lists the registry had before
    the broadcast. *)
Lemma BroadcastFromTag_quiet_trace_above (Tag : FGameplayTag)
    (Before : TListenerMap) :
  (length Tag < length Channel)%nat ->
  forall Current : TListenerMap,
    (forall Other, Other <> Channel -> Current !! Other = Before !! Other) ->
    (FromTag Tag false (Current, [])).2 =
    VisitedTags Tag ≫= (fun T => ListenersAt Before T ≫= Verdict T false).
Proof.
  induction Tag as [| Seg Parent IH]; intros Hlen Current Hframe.
  - reflexivity.
  - rewrite BroadcastFromTag_cons. cbn [snd VisitedTags]. rewrite bind_cons.
    assert (Hne : Seg :: Parent <> Channel) by (intros <-; lia).
    f_equal.
    + unfold ListenersAt. rewrite (Hframe _ Hne). reflexivity.
    + apply IH; [simpl in Hlen; lia |].
      intros Other HOther. rewrite BroadcastAtTag_quiet_frame by assumption.
      apply Hframe, HOther.
Qed.

(** The whole trace, from the lists stored before the broadcast. *)
Lemma BroadcastFromTag_quiet_trace (Tag : FGameplayTag) (ListenerMap : TListenerMap) :
  Tag = Channel ->
  (FromTag Tag true (ListenerMap, [])).2 =
  VisitedTags Tag
    ≫= (fun T => ListenersAt ListenerMap T ≫= Verdict T (bool_decide (T = Channel))).
Proof.
  intros HTag. destruct Tag as [| Seg Parent]; [reflexivity |].
  rewrite BroadcastFromTag_cons. cbn [snd VisitedTags].
  rewrite bind_cons. f_equal.
  - rewrite bool_decide_eq_true_2 by exact HTag. reflexivity.
  - rewrite (BroadcastFromTag_quiet_trace_above Parent ListenerMap).
    + apply Forall_bind_ext. rewrite Forall_forall. intros T HT.
      rewrite bool_decide_eq_false_2; [reflexivity |].
      intros HT'. rewrite HT', <- HTag in HT.
      apply VisitedTags_spec in HT as [_ Hsuf].
      exact (suffix_cons_not _ _ Hsuf).
    + rewrite <- HTag. simpl. lia.
    + intros Other HOther. apply BroadcastAtTag_quiet_frame, HOther.
Qed.

(** An entry that is not both let through by the level gate and stale
    leaves the registry alone. *)
Lemma BroadcastToListener_quiet_same (Tag : FGameplayTag) (b : bool)
    (ListenerMap : TListenerMap) (Log : list Event)
    (Listener : FDanzmannGameplayMessagesListenerData) :
  Eligible b Listener && Stale StructIsAlive Listener = false ->
  (ToListener Tag b (ListenerMap, Log) Listener).1 = ListenerMap.
Proof.
  unfold BroadcastToListener, Eligible, Stale. intros Hfresh.
  destruct (b || MatchCriteria_eqb (MatchCriteria Listener) PartialMatch);
    [| reflexivity].
  simpl in Hfresh. rewrite Hfresh.
  destruct (negb (bHasValidType Listener) || _); cbn [fst];
    [apply Quiet | reflexivity].
Qed.

Lemma BroadcastListeners_quiet_same (Tag : FGameplayTag) (b : bool)
    (Copy : list FDanzmannGameplayMessagesListenerData)
    (ListenerMap : TListenerMap) (Log : list Event) :
  Forall (fun L => Eligible b L && Stale StructIsAlive L = false) Copy ->
  (foldl (ToListener Tag b) (ListenerMap, Log) Copy).1 = ListenerMap.
Proof.
  intros Hall. revert Log. induction Hall as [| L Rest HL _ IH]; intros Log.
  - reflexivity.
  - cbn [foldl].
    destruct (ToListener Tag b (ListenerMap, Log) L) as [m' Log'] eqn:Hstep.
    assert (m' = ListenerMap) as ->.
    { change m' with (m', Log').1. rewrite <- Hstep.
      apply BroadcastToListener_quiet_same, HL. }
    apply IH.
Qed.

(** No stale entry let through along the chain: the registry is left as
    it was. *)
Lemma BroadcastFromTag_quiet_same (Tag : FGameplayTag) (b : bool)
    (ListenerMap : TListenerMap) (Log : list Event) :
  (forall T, T ∈ VisitedTags Tag ->
             Forall (fun L => Eligible (bool_decide (T = Tag) && b) L
                              && Stale StructIsAlive L = false)
               (ListenersAt ListenerMap T)) ->
  (FromTag Tag b (ListenerMap, Log)).1 = ListenerMap.
Proof.
  revert b Log. induction Tag as [| Seg Parent IH]; intros b Log Hall.
  - reflexivity.
  - cbn [BroadcastFromTag].
    assert (Hlevel : (AtTag (Seg :: Parent) b (ListenerMap, Log)).1 = ListenerMap).
    { unfold BroadcastAtTag. cbn [fst].
      pose proof (Hall (Seg :: Parent) ltac:(left)) as Hhere.
      rewrite bool_decide_eq_true_2 in Hhere by reflexivity.
      unfold ListenersAt in Hhere.
      destruct (ListenerMap !! (Seg :: Parent)) as [L |]; [| reflexivity].
      apply BroadcastListeners_quiet_same, Hhere. }
    destruct (AtTag (Seg :: Parent) b (ListenerMap, Log)) as [m' Log'].
    cbn [fst] in Hlevel. subst m'. apply IH.
    intros T HT. pose proof (Hall T ltac:(right; exact HT)) as HT'.
    rewrite bool_decide_eq_false_2 in HT'.
    + eapply Forall_impl; [exact HT' |]. simpl. intros L HL.
      unfold Eligible in *. rewrite andb_false_r. exact HL.
    + intros ->. apply VisitedTags_spec in HT as [_ Hsuf].
      exact (suffix_cons_not _ _ Hsuf).
Qed.

End QuietBroadcast.

(** An entry of a copied list that is to receive is called. *)
Lemma Verdict_receives (StructIsAlive : UScriptStruct -> bool)
    (Channel : FGameplayTag) (MessageStructType : UScriptStruct)
    (MessagePayload : VoidPtr) (Tag : FGameplayTag) (b : bool)
    (Copy : list FDanzmannGameplayMessagesListenerData)
    (Listener : FDanzmannGameplayMessagesListenerData) :
  Listener ∈ Copy ->
  Receives StructIsAlive MessageStructType b Listener = true ->
  CallbackInvoked Tag Listener Channel MessageStructType MessagePayload
  ∈ Copy ≫= EntryVerdict StructIsAlive Channel MessageStructType MessagePayload Tag b.
Proof.
  intros Hin Hrecv. apply list_elem_of_bind. exists Listener. split; [| exact Hin].
  unfold Receives in Hrecv. unfold EntryVerdict.
  apply andb_true_iff in Hrecv as [Hrecv Htype].
  apply andb_true_iff in Hrecv as [Helig Hfresh].
  apply negb_true_iff in Hfresh.
  rewrite Helig, Hfresh, Htype. left.
Qed.

(** X5 -- When the callbacks leave the registry alone, the trace of a
    broadcast is determined by the registry as it is before the
    broadcast: it is the verdicts on the stored entries, level by level
    over the channel and its ancestors, in stored order; purging a stale
    entry during the broadcast changes nothing of it. *)
Theorem quiet_broadcast_trace_from_stored_lists
    (StructIsAlive : UScriptStruct -> bool)
    (Invoke : TFunctionId -> FGameplayTag -> UScriptStruct -> VoidPtr ->
              TListenerMap -> TListenerMap)
    (ListenerMap : TListenerMap) (Channel : FGameplayTag)
    (MessageStructType : UScriptStruct) (MessagePayload : VoidPtr) :
  (forall Cb C T P (m : TListenerMap), Invoke Cb C T P m = m) ->
  (BroadcastGameplayMessage_Internal StructIsAlive Invoke ListenerMap Channel
     MessageStructType MessagePayload).2 =
  VisitedTags Channel
    ≫= (fun Tag =>
          ListenersAt ListenerMap Tag
            ≫= EntryVerdict StructIsAlive Channel MessageStructType MessagePayload
                 Tag (bool_decide (Tag = Channel))).
Proof.
  intros Hquiet. unfold BroadcastGameplayMessage_Internal.
  apply BroadcastFromTag_quiet_trace; [exact Hquiet | reflexivity].
Qed.

Lemma quiet_broadcast_trace_from_stored_lists_witness :
  (BroadcastGameplayMessage_Internal World.KillIsDead World.Quiet
     World.ParentAndChild World.TagAB World.Death 0).2 =
  VisitedTags World.TagAB
    ≫= (fun Tag =>
          ListenersAt World.ParentAndChild Tag
            ≫= EntryVerdict World.KillIsDead World.TagAB World.Death 0
                 Tag (bool_decide (Tag = World.TagAB))).
Proof.
  apply (quiet_broadcast_trace_from_stored_lists World.KillIsDead World.Quiet
           World.ParentAndChild World.TagAB World.Death 0).
  intros Cb C T P m. reflexivity.
Defined.

(** X6 -- When the callbacks leave the registry alone, a broadcast calls
    exactly the stored listeners of the channel and of its ancestors
    that pass the level gate, are not stale and accept the type: every
    such entry is called, and nothing else is. *)
Theorem quiet_broadcast_calls_exactly_the_receivers
    (StructIsAlive : UScriptStruct -> bool)
    (Invoke : TFunctionId -> FGameplayTag -> UScriptStruct -> VoidPtr ->
              TListenerMap -> TListenerMap)
    (ListenerMap : TListenerMap) (Channel : FGameplayTag)
    (MessageStructType : UScriptStruct) (MessagePayload : VoidPtr)
    (Tag : FGameplayTag) (Listener : FDanzmannGameplayMessagesListenerData) :
  (forall Cb C T P (m : TListenerMap), Invoke Cb C T P m = m) ->
  CallbackInvoked Tag Listener Channel MessageStructType MessagePayload
  ∈ (BroadcastGameplayMessage_Internal StructIsAlive Invoke ListenerMap Channel
       MessageStructType MessagePayload).2
  <-> IsAncestorOrSelf Tag Channel
      /\ Listener ∈ ListenersAt ListenerMap Tag
      /\ Receives StructIsAlive MessageStructType (bool_decide (Tag = Channel))
           Listener = true.
Proof.
  intros Hquiet. unfold BroadcastGameplayMessage_Internal.
  rewrite BroadcastFromTag_quiet_trace by (exact Hquiet || reflexivity).
  rewrite list_elem_of_bind. split.
  - intros (T & Hin & HT).
    apply Verdict_invoked in Hin as (-> & HL & Hrecv & _).
    apply VisitedTags_spec in HT. repeat split; assumption || apply HT.
  - intros (Hanc & HL & Hrecv). exists Tag. split.
    + apply Verdict_receives; assumption.
    + apply VisitedTags_spec, Hanc.
Qed.

Lemma quiet_broadcast_calls_exactly_the_receivers_witness :
  CallbackInvoked World.TagA
    {| HandleId := 1; Callback := 0%nat;
       GameplayMessageStructType := Some World.Kill;
       bHasValidType := true; MatchCriteria := PartialMatch |}
    World.TagABC World.Kill 0
  ∈ (BroadcastGameplayMessage_Internal World.AllAlive World.Quiet
       World.ParentAndChild World.TagABC World.Kill 0).2.
Proof.
  apply (quiet_broadcast_calls_exactly_the_receivers World.AllAlive World.Quiet
           World.ParentAndChild World.TagABC World.Kill 0).
  - intros Cb C T P m. reflexivity.
  - split; [| split].
    + split; [discriminate | exists ["C"; "B"]; reflexivity].
    + vm_compute. left.
    + reflexivity.
Defined.

(** X7 -- A listener registered through [RegisterListener] is called by
    the next broadcast on its channel whenever the broadcast type is
    its expected type or derived from it and the expected struct is
    alive, whatever the callbacks of other listeners do during that
    broadcast; its entry is typed, never a wildcard.  The channel is a
    valid tag. *)
Theorem registered_listener_receives_next_broadcast
    (StructIsAlive : UScriptStruct -> bool)
    (Invoke : TFunctionId -> FGameplayTag -> UScriptStruct -> VoidPtr ->
              TListenerMap -> TListenerMap)
    (ListenerMap : TListenerMap) (Tag : FGameplayTag)
    (Cb : TFunctionId) (Expected : UScriptStruct)
    (Crit : EDanzmannGameplayMessagesMatchCriteria)
    (MessageStruct : UScriptStruct) (GameplayMessage : VoidPtr) :
  Tag <> [] ->
  StructIsAlive Expected = true ->
  IsA MessageStruct Expected ->
  let Registered := RegisterListener ListenerMap Tag Cb Expected Crit in
  exists Entry,
    Entry ∈ ListenersAt Registered.1 Tag
    /\ HandleId Entry = Id Registered.2
    /\ Callback Entry = Cb
    /\ bHasValidType Entry = true
    /\ CallbackInvoked Tag Entry Tag MessageStruct GameplayMessage
       ∈ (BroadcastGameplayMessage StructIsAlive Invoke Registered.1 Tag
            MessageStruct GameplayMessage).2.
Proof.
  intros Hvalid Halive Hisa Registered. subst Registered.
  unfold RegisterListener, BroadcastGameplayMessage.
  eexists. split; [| split; [| split; [| split]]].
  - unfold ListenersAt. rewrite RegisterListener_Internal_lookup_eq.
    cbn [Listeners]. apply elem_of_app. right. left.
  - reflexivity.
  - reflexivity.
  - reflexivity.
  - destruct Tag as [| Seg Parent]; [contradiction |].
    unfold BroadcastGameplayMessage_Internal.
    rewrite BroadcastFromTag_cons. cbn [snd]. apply elem_of_app. left.
    apply Verdict_receives.
    + unfold ListenersAt. rewrite RegisterListener_Internal_lookup_eq.
      cbn [Listeners]. apply elem_of_app. right. left.
    + unfold Receives, Eligible, Stale, WeakPtrGet, WeakPtrIsValid.
      cbn [bHasValidType GameplayMessageStructType MatchCriteria].
      rewrite Halive. cbn [IsChildOf].
      apply IsChildOfStruct_IsA in Hisa. rewrite Hisa. reflexivity.
Qed.

Lemma registered_listener_receives_next_broadcast_witness :
  let Registered :=
    RegisterListener World.ParentAndChild World.TagAB 9%nat World.Death ExactMatch in
  exists Entry,
    Entry ∈ ListenersAt Registered.1 World.TagAB
    /\ HandleId Entry = Id Registered.2
    /\ Callback Entry = 9%nat
    /\ bHasValidType Entry = true
    /\ CallbackInvoked World.TagAB Entry World.TagAB World.HeroDeath 0
       ∈ (BroadcastGameplayMessage World.AllAlive World.UnregistersItself
            Registered.1 World.TagAB World.HeroDeath 0).2.
Proof.
  apply (registered_listener_receives_next_broadcast World.AllAlive
           World.UnregistersItself World.ParentAndChild World.TagAB 9%nat
           World.Death ExactMatch World.HeroDeath 0).
  - discriminate.
  - reflexivity.
  - apply IsA_derived, IsA_same.
Defined.

(** The counter of a channel that keeps its key survives
    unregistration. *)
Lemma CounterAt_unregister_internal_kept (ListenerMap : TListenerMap)
    (Tag : FGameplayTag) (k : Z) :
  is_Some (UnregisterListener_Internal ListenerMap Tag k !! Tag) ->
  is_Some (ListenerMap !! Tag)
  /\ CounterAt (UnregisterListener_Internal ListenerMap Tag k) Tag =
     CounterAt ListenerMap Tag.
Proof.
  intros [Stored HStored]. unfold CounterAt. rewrite HStored.
  apply UnregisterListener_Internal_lookup_eq in HStored as (L & HL & Hcnt & _).
  rewrite HL. split; [eexists; reflexivity | exact Hcnt].
Qed.

(** X8 -- When the callbacks leave the registry alone, a broadcast never
    adds a listener or issues an id: keys other than the broadcast
    channel keep their lists and counters, the channel's own list only
    loses entries and its counter stays while it keeps its key; and when
    no stale entry passes the level gate along the chain the registry is
    exactly as before. *)
Theorem quiet_broadcast_only_prunes_its_channel
    (StructIsAlive : UScriptStruct -> bool)
    (Invoke : TFunctionId -> FGameplayTag -> UScriptStruct -> VoidPtr ->
              TListenerMap -> TListenerMap)
    (ListenerMap : TListenerMap) (Channel : FGameplayTag)
    (MessageStructType : UScriptStruct) (MessagePayload : VoidPtr) :
  (forall Cb C T P (m : TListenerMap), Invoke Cb C T P m = m) ->
  let After :=
    (BroadcastGameplayMessage_Internal StructIsAlive Invoke ListenerMap Channel
       MessageStructType MessagePayload).1 in
  (forall Other, Other <> Channel -> After !! Other = ListenerMap !! Other)
  /\ ListenersAt After Channel ⊆+ ListenersAt ListenerMap Channel
  /\ (is_Some (After !! Channel) ->
      CounterAt After Channel = CounterAt ListenerMap Channel)
  /\ ((forall Tag Listener,
          IsAncestorOrSelf Tag Channel ->
          Listener ∈ ListenersAt ListenerMap Tag ->
          Eligible (bool_decide (Tag = Channel)) Listener = true ->
          Stale StructIsAlive Listener = false) ->
      After = ListenerMap).
Proof.
  intros Hquiet After. subst After. unfold BroadcastGameplayMessage_Internal.
  repeat match goal with |- _ /\ _ => split end.
  - intros Other Hne. apply BroadcastFromTag_quiet_frame; assumption.
  - apply BroadcastFromTag_quiet_shrinks, Hquiet.
  - apply (BroadcastFromTag_keeps StructIsAlive Invoke Channel MessageStructType
             MessagePayload
             (fun m => is_Some (m !! Channel) ->
                       is_Some (ListenerMap !! Channel)
                       /\ CounterAt m Channel = CounterAt ListenerMap Channel)).
    + intros m k Hm Hsome.
      apply CounterAt_unregister_internal_kept in Hsome as [Hsome ->].
      apply Hm, Hsome.
    + intros Cb C T P m Hm. rewrite Hquiet. exact Hm.
    + intros Hsome. split; [exact Hsome | reflexivity].
  - intros Hfresh. apply BroadcastFromTag_quiet_same; [exact Hquiet |].
    intros T HT. rewrite andb_true_r. rewrite Forall_forall. intros L HL.
    destruct (Eligible (bool_decide (T = Channel)) L) eqn:Helig; [| reflexivity].
    simpl. apply (Hfresh T L); [apply VisitedTags_spec, HT | exact HL | exact Helig].
Qed.

Lemma quiet_broadcast_only_prunes_its_channel_witness :
  (BroadcastGameplayMessage_Internal World.AllAlive World.Quiet
     World.ParentAndChild World.TagAB World.Death 0).1 = World.ParentAndChild.
Proof.
  refine (proj2 (proj2 (proj2 (quiet_broadcast_only_prunes_its_channel
                                 World.AllAlive World.Quiet World.ParentAndChild
                                 World.TagAB World.Death 0 _))) _).
  - intros Cb C T P m. reflexivity.
  - intros Tag Listener _ HL _. unfold Stale, World.AllAlive.
    unfold WeakPtrIsValid.
    assert (HTag : Tag = World.TagA \/ Tag = World.TagAB \/
                   ListenersAt World.ParentAndChild Tag = []).
    { unfold ListenersAt, World.ParentAndChild.
      destruct (decide (Tag = World.TagAB)) as [-> | HnAB]; [right; left; reflexivity |].
      destruct (decide (Tag = World.TagA)) as [-> | HnA]; [left; reflexivity |].
      right. right.
      rewrite RegisterListener_Internal_lookup_ne by congruence.
      rewrite RegisterListener_Internal_lookup_ne by congruence.
      rewrite lookup_empty. reflexivity. }
    destruct HTag as [-> | [-> | Hnil]].
    + vm_compute in HL. apply list_elem_of_singleton in HL. subst Listener.
      reflexivity.
    + vm_compute in HL. apply list_elem_of_singleton in HL. subst Listener.
      reflexivity.
    + rewrite Hnil in HL. inversion HL.
Defined.

(** ** Stale listeners of the broadcast channel *)

Section QuietPurge.

Variable StructIsAlive : UScriptStruct -> bool.
Variable Invoke :
  TFunctionId -> FGameplayTag -> UScriptStruct -> VoidPtr -> TListenerMap -> TListenerMap.
Variable Channel : FGameplayTag.
Variable MessageStructType : UScriptStruct.
Variable MessagePayload : VoidPtr.

Hypothesis Quiet :
  forall (Cb : TFunctionId) (C : FGameplayTag) (T : UScriptStruct) (P : VoidPtr)
         (m : TListenerMap),
    Invoke Cb C T P m = m.

(** While the inner loop runs over the copy of the channel's own list,
    every stale entry still stored is one the loop has yet to see. *)
Lemma BroadcastListeners_quiet_purges
    (Copy : list FDanzmannGameplayMessagesListenerData) :
  forall (ListenerMap : TListenerMap) (Log : list Event),
    NoDup (HandleId <$> ListenersAt ListenerMap Channel) ->
    (forall L, L ∈ ListenersAt ListenerMap Channel ->
               Stale StructIsAlive L = true -> L ∈ Copy) ->
    Forall (fun L => Stale StructIsAlive L = false)
      (ListenersAt
         (foldl (BroadcastToListener StructIsAlive Invoke Channel MessageStructType
                   MessagePayload Channel true)
                (ListenerMap, Log) Copy).1 Channel).
Proof.
  induction Copy as [| L0 Rest IH]; intros m Log Hnd Hpending.
  - cbn [foldl fst]. rewrite Forall_forall. intros L HL.
    destruct (Stale StructIsAlive L) eqn:Hs; [| reflexivity].
    specialize (Hpending L HL Hs). inversion Hpending.
  - cbn [foldl].
    destruct (Stale StructIsAlive L0) eqn:Hs0.
    + rewrite stale_listener_unregistered_on_channel by (reflexivity || exact Hs0).
      apply IH.
      * rewrite ListenersAt_unregister_eq. apply RemainingAfter_NoDup, Hnd.
      * rewrite ListenersAt_unregister_eq. intros L HL Hs.
        pose proof (RemainingAfter_id_gone (HandleId L0) _ Hnd) as Hgone.
        rewrite Forall_forall in Hgone. specialize (Hgone L HL).
        assert (HL' : L ∈ ListenersAt m Channel)
          by (eapply elem_of_submseteq; [exact HL | apply RemainingAfter_submseteq]).
        specialize (Hpending L HL' Hs).
        apply elem_of_cons in Hpending as [-> | Hrest]; [contradiction | exact Hrest].
    + destruct (BroadcastToListener StructIsAlive Invoke Channel MessageStructType
                  MessagePayload Channel true (m, Log) L0) as [m' Log'] eqn:Hstep.
      assert (m' = m) as ->.
      { change m' with (m', Log').1. rewrite <- Hstep.
        apply BroadcastToListener_quiet_same; [exact Quiet |].
        rewrite Hs0. apply andb_false_r. }
      apply IH; [exact Hnd |]. intros L HL Hs.
      specialize (Hpending L HL Hs).
      apply elem_of_cons in Hpending as [-> | Hrest]; [congruence | exact Hrest].
Qed.

End QuietPurge.

(** X9 -- When the callbacks leave the registry alone, a broadcast on a
    valid channel leaves no stale listener in that channel's own list:
    each one is found on the initial level and unregistered under the
    channel it is stored under.  Ids are distinct within each list. *)
Theorem quiet_broadcast_purges_stale_listeners_of_its_channel
    (StructIsAlive : UScriptStruct -> bool)
    (Invoke : TFunctionId -> FGameplayTag -> UScriptStruct -> VoidPtr ->
              TListenerMap -> TListenerMap)
    (ListenerMap : TListenerMap) (Channel : FGameplayTag)
    (MessageStructType : UScriptStruct) (MessagePayload : VoidPtr) :
  (forall Cb C T P (m : TListenerMap), Invoke Cb C T P m = m) ->
  Channel <> [] ->
  UniqueHandleIds ListenerMap ->
  Forall (fun L => Stale StructIsAlive L = false)
    (ListenersAt
       (BroadcastGameplayMessage_Internal StructIsAlive Invoke ListenerMap Channel
          MessageStructType MessagePayload).1 Channel).
Proof.
  intros Hquiet Hvalid Huniq. unfold BroadcastGameplayMessage_Internal.
  destruct Channel as [| Seg Parent] eqn:HChannel; [contradiction |].
  cbn [BroadcastFromTag].
  destruct (BroadcastAtTag StructIsAlive Invoke (Seg :: Parent) MessageStructType
              MessagePayload (Seg :: Parent) true (ListenerMap, []))
    as [m' Log'] eqn:Hlevel.
  eapply Forall_of_submseteq;
    [apply BroadcastFromTag_quiet_shrinks, Hquiet |].
  change m' with (m', Log').1. rewrite <- Hlevel.
  unfold BroadcastAtTag. cbn [fst].
  destruct (ListenerMap !! (Seg :: Parent)) as [L |] eqn:HL.
  - apply BroadcastListeners_quiet_purges.
    + exact Hquiet.
    + apply ListenersAt_Unique, Huniq.
    + intros E HE _. unfold ListenersAt in HE. rewrite HL in HE. exact HE.
  - cbn [fst]. unfold ListenersAt. rewrite HL. constructor.
Qed.

Lemma quiet_broadcast_purges_stale_listeners_of_its_channel_witness :
  Forall (fun L => Stale World.KillIsDead L = false)
    (ListenersAt
       (BroadcastGameplayMessage_Internal World.KillIsDead World.Quiet
          World.ParentAndChild World.TagA World.Death 0).1 World.TagA).
Proof.
  apply (quiet_broadcast_purges_stale_listeners_of_its_channel World.KillIsDead
           World.Quiet World.ParentAndChild World.TagA World.Death 0).
  - intros Cb C T P m. reflexivity.
  - discriminate.
  - exact ParentAndChild_Unique.
Defined.

(** ** Who is never called *)

(** X10 -- The empty tag is a dead letter box: registering under it is
    accepted and the listener is stored, but a broadcast on the empty
    tag leaves the loop at once, changing and logging nothing, and no
    broadcast on any channel ever calls a listener at the level of the
    empty tag. *)
Theorem listeners_on_the_empty_tag_are_never_called
    (StructIsAlive : UScriptStruct -> bool)
    (Invoke : TFunctionId -> FGameplayTag -> UScriptStruct -> VoidPtr ->
              TListenerMap -> TListenerMap)
    (ListenerMap : TListenerMap) (Tag : FGameplayTag)
    (MessageStructType : UScriptStruct) (MessagePayload : VoidPtr)
    (Cb : TFunctionId) (T : option UScriptStruct)
    (Crit : EDanzmannGameplayMessagesMatchCriteria) :
  let Registered := RegisterListener_Internal ListenerMap [] Cb T Crit in
  Channel Registered.2 = []
  /\ Cb ∈ Callback <$> ListenersAt Registered.1 []
  /\ BroadcastGameplayMessage_Internal StructIsAlive Invoke Registered.1 []
       MessageStructType MessagePayload = (Registered.1, [])
  /\ Forall (fun D => D.1 <> [])
       (Deliveries (BroadcastGameplayMessage_Internal StructIsAlive Invoke
                      Registered.1 Tag MessageStructType MessagePayload).2).
Proof.
  intros Registered. repeat match goal with |- _ /\ _ => split end.
  - reflexivity.
  - subst Registered. unfold ListenersAt at 1.
    rewrite RegisterListener_Internal_lookup_eq. cbn [Listeners].
    rewrite fmap_app. apply elem_of_app. right. left.
  - reflexivity.
  - unfold BroadcastGameplayMessage_Internal.
    eapply Forall_impl; [apply BroadcastFromTag_delivery_levels |].
    intros D [Hne _]. exact Hne.
Qed.

(** X11 -- Once a listener has been unregistered, no broadcast on its
    channel calls an entry of that channel with its handle id, whatever
    the callbacks do during the broadcast.  Ids are distinct within each
    list. *)
Theorem unregistered_listener_is_not_called_on_its_channel
    (StructIsAlive : UScriptStruct -> bool)
    (Invoke : TFunctionId -> FGameplayTag -> UScriptStruct -> VoidPtr ->
              TListenerMap -> TListenerMap)
    (ListenerMap : TListenerMap)
    (Handle : FDanzmannGameplayMessagesListenerHandle)
    (MessageStructType : UScriptStruct) (MessagePayload : VoidPtr) :
  UniqueHandleIds ListenerMap ->
  IsValid Handle = true ->
  Forall (fun D => ~ (D.1 = Channel Handle /\ HandleId D.2 = Id Handle))
    (Deliveries
       (BroadcastGameplayMessage_Internal StructIsAlive Invoke
          (UnregisterListener ListenerMap Handle).1 (Channel Handle)
          MessageStructType MessagePayload).2).
Proof.
  intros Huniq Hvalid. unfold UnregisterListener. rewrite Hvalid. cbn [fst].
  unfold BroadcastGameplayMessage_Internal.
  destruct (Channel Handle) as [| Seg Parent] eqn:HChannel; [constructor |].
  rewrite BroadcastFromTag_cons. cbn [snd]. unfold Deliveries.
  rewrite omap_app. apply Forall_app. split.
  - fold (Deliveries
            (ListenersAt (UnregisterListener_Internal ListenerMap (Seg :: Parent)
                            (Id Handle)) (Seg :: Parent)
               ≫= EntryVerdict StructIsAlive (Seg :: Parent) MessageStructType
                    MessagePayload (Seg :: Parent) true)).
    rewrite Deliveries_Verdict, ListenersAt_unregister_eq.
    rewrite Forall_forall. intros [T L] HD [_ Hid]. cbn [fst snd] in *.
    apply list_elem_of_fmap in HD as (L' & [= -> ->] & HL).
    apply list_elem_of_filter in HL as [_ HL].
    pose proof (RemainingAfter_id_gone (Id Handle) _
                  (ListenersAt_Unique _ (Seg :: Parent) Huniq)) as Hgone.
    rewrite Forall_forall in Hgone. exact (Hgone L' HL Hid).
  - eapply Forall_impl; [apply BroadcastFromTag_delivery_levels |].
    intros [T L] [_ Hsuf] [HT _]. cbn [fst] in *. subst T.
    exact (suffix_cons_not _ _ Hsuf).
Qed.

Lemma unregistered_listener_is_not_called_on_its_channel_witness :
  let Handle := {| Channel := World.TagAB; Id := 1 |} in
  Forall (fun D => ~ (D.1 = World.TagAB /\ HandleId D.2 = 1))
    (Deliveries
       (BroadcastGameplayMessage_Internal World.AllAlive World.RegistersOnParent
          (UnregisterListener World.ParentAndChild Handle).1 World.TagAB
          World.Death 0).2).
Proof.
  intros Handle.
  apply (unregistered_listener_is_not_called_on_its_channel World.AllAlive
           World.RegistersOnParent World.ParentAndChild Handle World.Death 0).
  - exact ParentAndChild_Unique.
  - reflexivity.
Defined.

(** ** What a typed callback is handed *)

(** Every callback invocation of the walk is for an entry that was to
    receive. *)
Lemma BroadcastFromTag_invoked_receives
    (StructIsAlive : UScriptStruct -> bool)
    (Invoke : TFunctionId -> FGameplayTag -> UScriptStruct -> VoidPtr ->
              TListenerMap -> TListenerMap)
    (Channel : FGameplayTag) (MessageStructType : UScriptStruct)
    (MessagePayload : VoidPtr) (Tag : FGameplayTag) :
  forall (b : bool) (ListenerMap : TListenerMap)
         (T : FGameplayTag) (L : FDanzmannGameplayMessagesListenerData)
         (C : FGameplayTag) (S : UScriptStruct) (P : VoidPtr),
    CallbackInvoked T L C S P
    ∈ (BroadcastFromTag StructIsAlive Invoke Channel MessageStructType
         MessagePayload Tag b (ListenerMap, [])).2 ->
    exists b', Receives StructIsAlive MessageStructType b' L = true.
Proof.
  induction Tag as [| Seg Parent IH]; intros b m T L C S P Hin.
  - inversion Hin.
  - rewrite BroadcastFromTag_cons in Hin. cbn [snd] in Hin.
    apply elem_of_app in Hin as [Hin | Hin].
    + apply Verdict_invoked in Hin as (_ & _ & Hrecv & _). exists b. exact Hrecv.
    + eapply IH, Hin.
Qed.

(** X12 -- The cast in the closure of [RegisterListener] is sound: a
    typed entry is only ever called with the struct type and payload of
    the broadcast, and that struct type is the entry's expected type or
    derived from it, the expected struct being alive at the call. *)
Theorem typed_listener_is_called_only_with_its_type
    (StructIsAlive : UScriptStruct -> bool)
    (Invoke : TFunctionId -> FGameplayTag -> UScriptStruct -> VoidPtr ->
              TListenerMap -> TListenerMap)
    (ListenerMap : TListenerMap) (Channel : FGameplayTag)
    (MessageStruct : UScriptStruct) (GameplayMessage : VoidPtr)
    (Tag : FGameplayTag) (Listener : FDanzmannGameplayMessagesListenerData)
    (C : FGameplayTag) (S : UScriptStruct) (P : VoidPtr) :
  CallbackInvoked Tag Listener C S P
  ∈ (BroadcastGameplayMessage StructIsAlive Invoke ListenerMap Channel
       MessageStruct GameplayMessage).2 ->
  bHasValidType Listener = true ->
  exists Expected,
    GameplayMessageStructType Listener = Some Expected
    /\ StructIsAlive Expected = true
    /\ IsA S Expected
    /\ S = MessageStruct /\ P = GameplayMessage /\ C = Channel.
Proof.
  unfold BroadcastGameplayMessage, BroadcastGameplayMessage_Internal.
  intros Hin Htyped.
  pose proof (BroadcastFromTag_invoked _ _ _ _ _ _ _ _ _ _ _ _ _ Hin)
    as (_ & _ & -> & -> & ->).
  apply BroadcastFromTag_invoked_receives in Hin as [b' Hrecv].
  unfold Receives, Stale, WeakPtrGet, WeakPtrIsValid in Hrecv.
  rewrite Htyped in Hrecv. cbn [negb andb orb] in Hrecv.
  apply andb_true_iff in Hrecv as [Hrecv Htype].
  apply andb_true_iff in Hrecv as [_ Halive].
  apply negb_true_iff, negb_false_iff in Halive.
  destruct (GameplayMessageStructType Listener) as [Expected |]; [| discriminate].
  rewrite Halive in Htype. cbn [IsChildOf] in Htype.
  exists Expected. repeat split; try reflexivity; try exact Halive.
  apply IsChildOfStruct_IsA, Htype.
Qed.

Lemma typed_listener_is_called_only_with_its_type_witness :
  exists Expected,
    Some World.Death = Some Expected
    /\ World.AllAlive Expected = true
    /\ IsA World.HeroDeath Expected
    /\ World.HeroDeath = World.HeroDeath /\ 0 = 0 /\ World.TagAB = World.TagAB.
Proof.
  apply (typed_listener_is_called_only_with_its_type World.AllAlive World.Quiet
           World.OneOnAB World.TagAB World.HeroDeath 0 World.TagAB
           {| HandleId := 1; Callback := 1%nat;
              GameplayMessageStructType := Some World.Death;
              bHasValidType := true; MatchCriteria := ExactMatch |}
           World.TagAB World.HeroDeath 0).
  - vm_compute. left.
  - reflexivity.
Defined.

(** ** Listeners bound to an object *)

(** X13 -- A listener registered with the member-function overload whose
    object has been destroyed is not unregistered by a broadcast: its
    closure is still called for every broadcast that reaches it, finds
    the weak pointer invalid and does nothing.  When all stored closures
    are of that kind and no stale struct type passes the level gate, the
    registry after the broadcast is the registry before it. *)
Theorem listeners_of_destroyed_objects_are_called_and_kept
    (StructIsAlive : UScriptStruct -> bool)
    (ObjectIsValid : UObject -> bool)
    (WeakListener : TFunctionId -> UObject)
    (MemberFunction :
       TFunctionId -> UObject -> FGameplayTag -> VoidPtr -> TListenerMap -> TListenerMap)
    (ListenerMap : TListenerMap) (Channel : FGameplayTag)
    (MessageStruct : UScriptStruct) (GameplayMessage : VoidPtr) :
  let Invoke :=
    fun Cb => GenericCallback
                (MemberFunctionCallback ObjectIsValid (WeakListener Cb)
                   (MemberFunction Cb)) in
  (forall Cb, ObjectIsValid (WeakListener Cb) = false) ->
  (forall Tag Listener,
      IsAncestorOrSelf Tag Channel ->
      Listener ∈ ListenersAt ListenerMap Tag ->
      Eligible (bool_decide (Tag = Channel)) Listener = true ->
      Stale StructIsAlive Listener = false) ->
  let Result :=
    BroadcastGameplayMessage StructIsAlive Invoke ListenerMap Channel
      MessageStruct GameplayMessage in
  Result.1 = ListenerMap
  /\ (forall Tag Listener,
        IsAncestorOrSelf Tag Channel ->
        Listener ∈ ListenersAt ListenerMap Tag ->
        Receives StructIsAlive MessageStruct (bool_decide (Tag = Channel))
          Listener = true ->
        CallbackInvoked Tag Listener Channel MessageStruct GameplayMessage
        ∈ Result.2).
Proof.
  intros Invoke Hdead Hfresh Result.
  assert (Hquiet : forall Cb C T P (m : TListenerMap), Invoke Cb C T P m = m).
  { intros Cb C T P m. subst Invoke. unfold GenericCallback, MemberFunctionCallback.
    rewrite Hdead. reflexivity. }
  subst Result. unfold BroadcastGameplayMessage, BroadcastGameplayMessage_Internal.
  split.
  - apply BroadcastFromTag_quiet_same; [exact Hquiet |].
    intros T HT. rewrite andb_true_r. rewrite Forall_forall. intros L HL.
    destruct (Eligible (bool_decide (T = Channel)) L) eqn:Helig; [| reflexivity].
    simpl. apply (Hfresh T L); [apply VisitedTags_spec, HT | exact HL | exact Helig].
  - intros Tag Listener Hanc HL Hrecv.
    rewrite BroadcastFromTag_quiet_trace by (exact Hquiet || reflexivity).
    apply list_elem_of_bind. exists Tag. split.
    + apply Verdict_receives; assumption.
    + apply VisitedTags_spec, Hanc.
Qed.

Lemma listeners_of_destroyed_objects_are_called_and_kept_witness :
  (BroadcastGameplayMessage World.AllAlive
     (fun Cb => GenericCallback
                  (MemberFunctionCallback (fun _ => false) Cb
                     (fun _ _ _ _ => ∅)))
     World.OneOnAB World.TagAB World.Death 0).1 = World.OneOnAB.
Proof.
  refine (proj1 (listeners_of_destroyed_objects_are_called_and_kept World.AllAlive
                   (fun _ => false) (fun Cb => Cb) (fun _ _ _ _ _ => ∅)
                   World.OneOnAB World.TagAB World.Death 0 _ _)).
  - intros Cb. reflexivity.
  - intros Tag Listener _ HL _. unfold Stale, WeakPtrIsValid, World.AllAlive.
    unfold ListenersAt, World.OneOnAB in HL.
    destruct (decide (Tag = World.TagAB)) as [-> | Hne].
    + vm_compute in HL. apply list_elem_of_singleton in HL. subst Listener.
      reflexivity.
    + rewrite RegisterListener_Internal_lookup_ne in HL by congruence.
      rewrite lookup_empty in HL. inversion HL.
Defined.

(** ** The order of a channel's listeners *)

Lemma IndexOfByPredicate_first {A : Type} (Pred : A -> bool) (Array : list A)
    (i : nat) (x : A) :
  Array !! i = Some x ->
  Pred x = true ->
  (forall j y, (j < i)%nat -> Array !! j = Some y -> Pred y = false) ->
  IndexOfByPredicate Pred Array = Some i.
Proof.
  revert i. induction Array as [| z rest IH]; intros i Hi Hx Hbefore.
  - discriminate.
  - destruct i as [| i]; simpl in *.
    + injection Hi as ->. rewrite Hx. reflexivity.
    + rewrite (Hbefore 0%nat z) by (lia || reflexivity).
      rewrite (IH i Hi Hx); [reflexivity |].
      intros j y Hj Hy. apply (Hbefore (S j) y); [lia | exact Hy].
Qed.

(** With distinct ids the entry a handle names is found where it is
    stored. *)
Lemma IndexOfByPredicate_by_id
    (Entries : list FDanzmannGameplayMessagesListenerData) (i : nat)
    (Entry : FDanzmannGameplayMessagesListenerData) :
  NoDup (HandleId <$> Entries) ->
  Entries !! i = Some Entry ->
  IndexOfByPredicate (fun Other => HandleId Other =? HandleId Entry) Entries = Some i.
Proof.
  intros Hnd Hi. apply (IndexOfByPredicate_first _ _ i Entry).
  - exact Hi.
  - apply Z.eqb_refl.
  - intros j y Hj Hy. apply Z.eqb_neq. intros Heq.
    assert (j = i); [| lia].
    eapply NoDup_lookup; [exact Hnd | |];
      rewrite list_lookup_fmap; [rewrite Hy | rewrite Hi]; simpl;
      [reflexivity | congruence].
Qed.

(** X14 -- Unregistering a listener that is not the last of its
    channel's list moves the last listener into its place: the list gets
    one shorter, the slot of the removed entry holds the entry that was
    last, and every other remaining slot is as before.  So the order in
    which a later broadcast calls the channel's listeners changes.  Ids
    are distinct within the list. *)
Theorem unregister_moves_the_last_listener_into_the_gap
    (ListenerMap : TListenerMap)
    (Handle : FDanzmannGameplayMessagesListenerHandle)
    (i : nat) (Entry Last : FDanzmannGameplayMessagesListenerData) :
  UniqueHandleIds ListenerMap ->
  IsValid Handle = true ->
  ListenersAt ListenerMap (Channel Handle) !! i = Some Entry ->
  HandleId Entry = Id Handle ->
  last (ListenersAt ListenerMap (Channel Handle)) = Some Last ->
  (i < length (ListenersAt ListenerMap (Channel Handle)) - 1)%nat ->
  let Before := ListenersAt ListenerMap (Channel Handle) in
  let After := ListenersAt (UnregisterListener ListenerMap Handle).1 (Channel Handle) in
  length After = (length Before - 1)%nat
  /\ After !! i = Some Last
  /\ (forall j, j <> i -> (j < length Before - 1)%nat -> After !! j = Before !! j).
Proof.
  intros Huniq Hvalid Hi Hid Hlast Hlt Before After.
  assert (HAfter : After = take (length Before - 1) (<[i := Last]> Before)).
  { subst After. unfold UnregisterListener. rewrite Hvalid. cbn [fst].
    rewrite ListenersAt_unregister_eq. fold Before. unfold RemainingAfter.
    rewrite <- Hid.
    rewrite (IndexOfByPredicate_by_id Before i Entry
               (ListenersAt_Unique _ _ Huniq) Hi).
    unfold RemoveAtSwap. fold Before in Hlast. rewrite Hlast. reflexivity. }
  rewrite HAfter. repeat match goal with |- _ /\ _ => split end.
  - rewrite length_take_le; [reflexivity |]. rewrite length_insert. lia.
  - rewrite lookup_take_lt by exact Hlt.
    apply list_lookup_insert_eq. fold Before in Hlt. lia.
  - intros j Hne Hj. rewrite lookup_take_lt by exact Hj.
    apply list_lookup_insert_ne. congruence.
Qed.

Lemma unregister_moves_the_last_listener_into_the_gap_witness :
  let Registry :=
    (RunOperations
       [OpRegister World.TagA 1%nat None ExactMatch;
        OpRegister World.TagA 2%nat None ExactMatch;
        OpRegister World.TagA 3%nat None ExactMatch] ∅).1 in
  Callback <$>
    ListenersAt (UnregisterListener Registry {| Channel := World.TagA; Id := 1 |}).1
      World.TagA !! 0%nat = Some 3%nat.
Proof.
  intros Registry.
  assert (Huniq : UniqueHandleIds Registry).
  { destruct (WellFormed_run
                [OpRegister World.TagA 1%nat None ExactMatch;
                 OpRegister World.TagA 2%nat None ExactMatch;
                 OpRegister World.TagA 3%nat None ExactMatch] 0 ∅)
      as (_ & Huniq & _); [vm_compute; discriminate | apply WellFormed_empty |].
    exact Huniq. }
  destruct (unregister_moves_the_last_listener_into_the_gap Registry
              {| Channel := World.TagA; Id := 1 |} 0%nat
              {| HandleId := 1; Callback := 1%nat; GameplayMessageStructType := None;
                 bHasValidType := false; MatchCriteria := ExactMatch |}
              {| HandleId := 3; Callback := 3%nat; GameplayMessageStructType := None;
                 bHasValidType := false; MatchCriteria := ExactMatch |}
              Huniq) as (_ & Hslot & _).
  - reflexivity.
  - vm_compute. reflexivity.
  - reflexivity.
  - vm_compute. reflexivity.
  - vm_compute. lia.
  - cbn [Channel] in Hslot. rewrite Hslot. reflexivity.
Defined.

(** X15 -- Listeners are stored in the order they were registered: a run
    of registrations appends the callbacks registered on a channel to
    that channel's list in the order of the calls, behind the entries
    the list held before; together with the level-by-level trace this is
    the order in which a broadcast calls them until a removal swaps. *)
Theorem registrations_are_stored_in_call_order
    (Tag : FGameplayTag) (Ops : list Operation) (ListenerMap : TListenerMap) :
  Forall (fun Op => match Op with OpRegister _ _ _ _ => True | _ => False end) Ops ->
  Callback <$> ListenersAt (RunOperations Ops ListenerMap).1 Tag =
  (Callback <$> ListenersAt ListenerMap Tag) ++ RegisteredCallbacks Tag Ops.
Proof.
  intros Hall. revert ListenerMap.
  induction Hall as [| Op Rest HOp _ IH]; intros m.
  - cbn. rewrite app_nil_r. reflexivity.
  - destruct Op as [C Cb T Crit | H]; [| contradiction].
    cbn [RunOperations ApplyOperation fst RegisteredCallbacks].
    rewrite IH. destruct (decide (C = Tag)) as [-> | Hne].
    + unfold ListenersAt at 1. rewrite RegisterListener_Internal_lookup_eq.
      cbn [Listeners]. rewrite fmap_app, <- app_assoc. reflexivity.
    + unfold ListenersAt at 1.
      rewrite RegisterListener_Internal_lookup_ne by exact Hne. reflexivity.
Qed.

Lemma registrations_are_stored_in_call_order_witness :
  Callback <$>
    ListenersAt
      (RunOperations
         [OpRegister World.TagAB 5%nat None ExactMatch;
          OpRegister World.TagA 6%nat None ExactMatch;
          OpRegister World.TagAB 7%nat (Some World.Kill) PartialMatch]
         World.OneOnAB).1 World.TagAB = [1%nat; 5%nat; 7%nat].
Proof.
  apply (registrations_are_stored_in_call_order World.TagAB
           [OpRegister World.TagAB 5%nat None ExactMatch;
            OpRegister World.TagA 6%nat None ExactMatch;
            OpRegister World.TagAB 7%nat (Some World.Kill) PartialMatch]
           World.OneOnAB).
  repeat constructor.
Defined.

(** ** Invariants of the registry *)

(** X16 -- Every registry reached from the empty one by fewer than
    [INT32_MAX] registrations and unregistrations stores no empty list,
    has pairwise distinct handle ids within each list, every id between
    1 and the counter of its list, and every counter between 0 and the
    number of operations. *)
Theorem operations_keep_the_registry_well_formed (Ops : list Operation) :
  Z.of_nat (length Ops) < INT32_MAX ->
  let Reached := (RunOperations Ops ∅).1 in
  PresenceInvariant Reached
  /\ UniqueHandleIds Reached
  /\ IdsWithinCounter Reached
  /\ (forall Tag, 0 <= CounterAt Reached Tag <= Z.of_nat (length Ops)).
Proof.
  intros Hlen Reached.
  destruct (WellFormed_run Ops 0 ∅) as (Hne & Huniq & Hwithin & Hcnt);
    [lia | apply WellFormed_empty |].
  repeat match goal with |- _ /\ _ => split end; try assumption.
  apply PresenceInvariant_NoEmptyList, Hne.
Qed.

Lemma operations_keep_the_registry_well_formed_witness :
  UniqueHandleIds
    (RunOperations
       [OpRegister World.TagA 1%nat None ExactMatch;
        OpRegister World.TagA 2%nat None ExactMatch;
        OpUnregister {| Channel := World.TagA; Id := 1 |};
        OpRegister World.TagA 3%nat None ExactMatch] ∅).1.
Proof.
  refine (proj1 (proj2 (operations_keep_the_registry_well_formed
                          [OpRegister World.TagA 1%nat None ExactMatch;
                           OpRegister World.TagA 2%nat None ExactMatch;
                           OpUnregister {| Channel := World.TagA; Id := 1 |};
                           OpRegister World.TagA 3%nat None ExactMatch] _))).
  vm_compute. reflexivity.
Defined.

(** X17 -- A broadcast keeps handle ids pairwise distinct within each
    list and within the counters of their lists, provided its callbacks
    do: purging a stale entry only removes an entry and never touches a
    counter. *)
Theorem broadcast_keeps_ids_distinct_and_within_counters
    (StructIsAlive : UScriptStruct -> bool)
    (Invoke : TFunctionId -> FGameplayTag -> UScriptStruct -> VoidPtr ->
              TListenerMap -> TListenerMap)
    (ListenerMap : TListenerMap) (Channel : FGameplayTag)
    (MessageStructType : UScriptStruct) (MessagePayload : VoidPtr) :
  (forall Cb C T P (m : TListenerMap),
      UniqueHandleIds m /\ IdsWithinCounter m ->
      UniqueHandleIds (Invoke Cb C T P m) /\ IdsWithinCounter (Invoke Cb C T P m)) ->
  UniqueHandleIds ListenerMap ->
  IdsWithinCounter ListenerMap ->
  let After :=
    (BroadcastGameplayMessage_Internal StructIsAlive Invoke ListenerMap Channel
       MessageStructType MessagePayload).1 in
  UniqueHandleIds After /\ IdsWithinCounter After.
Proof.
  intros Hinvoke Huniq Hwithin After. subst After.
  unfold BroadcastGameplayMessage_Internal.
  apply (BroadcastFromTag_keeps StructIsAlive Invoke Channel MessageStructType
           MessagePayload (fun m => UniqueHandleIds m /\ IdsWithinCounter m)).
  - intros m k [Hu Hw]. split.
    + apply UnregisterListener_Internal_Unique, Hu.
    + apply UnregisterListener_Internal_Within, Hw.
  - exact Hinvoke.
  - split; assumption.
Qed.

Lemma broadcast_keeps_ids_distinct_and_within_counters_witness :
  let After :=
    (BroadcastGameplayMessage_Internal World.KillIsDead World.UnregistersItself
       World.ParentAndChild World.TagAB World.Death 0).1 in
  UniqueHandleIds After /\ IdsWithinCounter After.
Proof.
  apply (broadcast_keeps_ids_distinct_and_within_counters World.KillIsDead
           World.UnregistersItself World.ParentAndChild World.TagAB World.Death 0).
  - intros Cb C T P m [Hu Hw]. unfold World.UnregistersItself.
    destruct Cb as [| [| Cb]]; try (split; assumption).
    split; [apply UnregisterListener_Unique, Hu | apply UnregisterListener_Within, Hw].
  - exact ParentAndChild_Unique.
  - exact ParentAndChild_Within.
Defined.

(** * The whole broadcast, level by level, for arbitrary callbacks *)

(** The trace of the walk is, level by level, the verdicts on the list
    stored under the level when the walk reaches it. *)
Lemma BroadcastFromTag_trace_by_copies
    (StructIsAlive : UScriptStruct -> bool)
    (Invoke : TFunctionId -> FGameplayTag -> UScriptStruct -> VoidPtr ->
              TListenerMap -> TListenerMap)
    (Channel : FGameplayTag) (MessageStructType : UScriptStruct)
    (MessagePayload : VoidPtr) (From : FGameplayTag) :
  forall (b : bool) (ListenerMap : TListenerMap),
    (BroadcastFromTag StructIsAlive Invoke Channel MessageStructType MessagePayload
       From b (ListenerMap, [])).2 =
    VisitedTags From
      ≫= (fun Tag =>
            ListenersAt
              (RegistryOnReaching StructIsAlive Invoke Channel MessageStructType
                 MessagePayload From b ListenerMap Tag) Tag
              ≫= EntryVerdict StructIsAlive Channel MessageStructType MessagePayload
                   Tag (bool_decide (Tag = From) && b)).
Proof.
  induction From as [| Seg Parent IH]; intros b m.
  - reflexivity.
  - rewrite BroadcastFromTag_cons. cbn [snd VisitedTags]. rewrite bind_cons.
    f_equal.
    + cbn [RegistryOnReaching]. rewrite decide_True by reflexivity.
      rewrite bool_decide_eq_true_2 by reflexivity. reflexivity.
    + rewrite IH. apply Forall_bind_ext. rewrite Forall_forall. intros T HT.
      assert (Hne : Seg :: Parent <> T).
      { intros <-. apply VisitedTags_spec in HT as [_ Hsuf].
        exact (suffix_cons_not _ _ Hsuf). }
      cbn [RegistryOnReaching]. rewrite decide_False by exact Hne.
      rewrite (bool_decide_eq_false_2 (T = Seg :: Parent)) by congruence.
      rewrite andb_false_r. reflexivity.
Qed.

(** The trace of a broadcast, by the copies of its levels. *)
Lemma Broadcast_trace_by_copies
    (StructIsAlive : UScriptStruct -> bool)
    (Invoke : TFunctionId -> FGameplayTag -> UScriptStruct -> VoidPtr ->
              TListenerMap -> TListenerMap)
    (ListenerMap : TListenerMap) (Channel : FGameplayTag)
    (MessageStructType : UScriptStruct) (MessagePayload : VoidPtr) :
  (BroadcastGameplayMessage_Internal StructIsAlive Invoke ListenerMap Channel
     MessageStructType MessagePayload).2 =
  VisitedTags Channel
    ≫= (fun Tag =>
          CopyAt StructIsAlive Invoke ListenerMap Channel MessageStructType
            MessagePayload Tag
            ≫= EntryVerdict StructIsAlive Channel MessageStructType MessagePayload
                 Tag (bool_decide (Tag = Channel))).
Proof.
  unfold BroadcastGameplayMessage_Internal, CopyAt.
  rewrite BroadcastFromTag_trace_by_copies.
  apply Forall_bind_ext. rewrite Forall_forall. intros T _.
  rewrite andb_true_r. reflexivity.
Qed.

(** The copy of the channel's own level is the list stored before the
    broadcast. *)
Lemma CopyAt_channel
    (StructIsAlive : UScriptStruct -> bool)
    (Invoke : TFunctionId -> FGameplayTag -> UScriptStruct -> VoidPtr ->
              TListenerMap -> TListenerMap)
    (ListenerMap : TListenerMap) (Channel : FGameplayTag)
    (MessageStructType : UScriptStruct) (MessagePayload : VoidPtr) :
  CopyAt StructIsAlive Invoke ListenerMap Channel MessageStructType MessagePayload
    Channel = ListenersAt ListenerMap Channel.
Proof.
  unfold CopyAt. destruct Channel; cbn [RegistryOnReaching]; [reflexivity |].
  rewrite decide_True by reflexivity. reflexivity.
Qed.

(** The copy of the direct parent is the list the channel's own level
    has left there. *)
Lemma CopyAt_direct_parent
    (StructIsAlive : UScriptStruct -> bool)
    (Invoke : TFunctionId -> FGameplayTag -> UScriptStruct -> VoidPtr ->
              TListenerMap -> TListenerMap)
    (ListenerMap : TListenerMap) (Seg Seg' : string) (Grand : FGameplayTag)
    (MessageStructType : UScriptStruct) (MessagePayload : VoidPtr) :
  CopyAt StructIsAlive Invoke ListenerMap (Seg :: Seg' :: Grand) MessageStructType
    MessagePayload (Seg' :: Grand) =
  ListenersAt
    (BroadcastAtTag StructIsAlive Invoke (Seg :: Seg' :: Grand) MessageStructType
       MessagePayload (Seg :: Seg' :: Grand) true (ListenerMap, [])).1
    (Seg' :: Grand).
Proof.
  unfold CopyAt. cbn [RegistryOnReaching].
  rewrite decide_False.
  - rewrite decide_True by reflexivity. reflexivity.
  - intros Heq. apply (f_equal length) in Heq. simpl in Heq. lia.
Qed.

(** Who is called, by the copies of the levels. *)
Lemma Broadcast_invoked_iff
    (StructIsAlive : UScriptStruct -> bool)
    (Invoke : TFunctionId -> FGameplayTag -> UScriptStruct -> VoidPtr ->
              TListenerMap -> TListenerMap)
    (ListenerMap : TListenerMap) (Channel : FGameplayTag)
    (MessageStructType : UScriptStruct) (MessagePayload : VoidPtr)
    (Tag : FGameplayTag) (Listener : FDanzmannGameplayMessagesListenerData) :
  CallbackInvoked Tag Listener Channel MessageStructType MessagePayload
  ∈ (BroadcastGameplayMessage_Internal StructIsAlive Invoke ListenerMap Channel
       MessageStructType MessagePayload).2
  <-> IsAncestorOrSelf Tag Channel
      /\ Listener ∈ CopyAt StructIsAlive Invoke ListenerMap Channel
                      MessageStructType MessagePayload Tag
      /\ Receives StructIsAlive MessageStructType (bool_decide (Tag = Channel))
           Listener = true.
Proof.
  rewrite Broadcast_trace_by_copies, list_elem_of_bind. split.
  - intros (T & Hin & HT).
    apply Verdict_invoked in Hin as (-> & HL & Hrecv & _).
    apply VisitedTags_spec in HT. repeat split; assumption || apply HT.
  - intros (Hanc & HL & Hrecv). exists Tag. split.
    + apply Verdict_receives; assumption.
    + apply VisitedTags_spec, Hanc.
Qed.

(** The type test of the inner loop says what [Compatible] says, for an
    entry that is not stale. *)
Lemma type_test_Compatible (StructIsAlive : UScriptStruct -> bool)
    (MessageStructType : UScriptStruct)
    (Listener : FDanzmannGameplayMessagesListenerData) :
  Stale StructIsAlive Listener = false ->
  negb (bHasValidType Listener)
  || IsChildOf MessageStructType
       (WeakPtrGet StructIsAlive (GameplayMessageStructType Listener)) = true
  <-> Compatible MessageStructType Listener.
Proof.
  unfold Stale, Compatible. intros Hfresh.
  destruct (bHasValidType Listener) eqn:Hvalid; simpl in *.
  - apply negb_false_iff in Hfresh. unfold WeakPtrGet. rewrite Hfresh.
    destruct (GameplayMessageStructType Listener) as [Expected |];
      [| discriminate]. simpl. rewrite IsChildOfStruct_IsA. split.
    + intros Hisa. right. exists Expected. split; [reflexivity | exact Hisa].
    + intros [Hfalse | (E & [= <-] & Hisa)]; [discriminate | exact Hisa].
  - split; [intros _; left; reflexivity | reflexivity].
Qed.

(** A type-mismatch error in the verdicts of a copied list. *)
Lemma Verdict_mismatch (StructIsAlive : UScriptStruct -> bool)
    (Channel : FGameplayTag) (MessageStructType : UScriptStruct)
    (MessagePayload : VoidPtr) (Tag : FGameplayTag) (b : bool)
    (Copy : list FDanzmannGameplayMessagesListenerData)
    (Listener : FDanzmannGameplayMessagesListenerData) :
  Listener ∈ Copy ->
  Eligible b Listener = true ->
  Stale StructIsAlive Listener = false ->
  ~ Compatible MessageStructType Listener ->
  ErrorTypeMismatch Channel MessageStructType Tag (GameplayMessageStructType Listener)
  ∈ Copy ≫= EntryVerdict StructIsAlive Channel MessageStructType MessagePayload Tag b.
Proof.
  intros Hin Helig Hfresh Hnot. apply list_elem_of_bind. exists Listener.
  split; [| exact Hin]. unfold EntryVerdict. rewrite Helig, Hfresh.
  destruct (negb (bHasValidType Listener) || _) eqn:Hg.
  - exfalso. apply Hnot, (type_test_Compatible StructIsAlive); assumption.
  - left.
Qed.

(** C2 -- In a broadcast of payload type P on a channel, take any level
    the walk visits and any entry of the list copied there that passes
    the level gate and is not stale.  If the entry is a wildcard or P is
    its expected type or derived from it, its callback is invoked with
    (channel, P, payload): the invocation is in the trace and the step
    hands the registry to the callback.  Otherwise the callback is not
    invoked anywhere in the broadcast, a type-mismatch error naming the
    channel, P, the level and the expected type is in the trace, and the
    step leaves the registry as it was.  A mismatch stops nothing: the
    trace of the broadcast is the verdicts on every entry of every
    level's copy, the channel first and then each ancestor up to the
    root. *)
Theorem type_gate_decides_delivery
    (StructIsAlive : UScriptStruct -> bool)
    (Invoke : TFunctionId -> FGameplayTag -> UScriptStruct -> VoidPtr ->
              TListenerMap -> TListenerMap)
    (ListenerMap : TListenerMap) (Channel : FGameplayTag)
    (MessageStructType : UScriptStruct) (MessagePayload : VoidPtr) :
  let Trace :=
    (BroadcastGameplayMessage_Internal StructIsAlive Invoke ListenerMap Channel
       MessageStructType MessagePayload).2 in
  let Copy :=
    CopyAt StructIsAlive Invoke ListenerMap Channel MessageStructType
      MessagePayload in
  Trace =
    VisitedTags Channel
      ≫= (fun Tag =>
            Copy Tag
              ≫= EntryVerdict StructIsAlive Channel MessageStructType MessagePayload
                   Tag (bool_decide (Tag = Channel)))
  /\ (forall Tag Listener,
        IsAncestorOrSelf Tag Channel ->
        Listener ∈ Copy Tag ->
        Eligible (bool_decide (Tag = Channel)) Listener = true ->
        Stale StructIsAlive Listener = false ->
        (Compatible MessageStructType Listener ->
         CallbackInvoked Tag Listener Channel MessageStructType MessagePayload
         ∈ Trace)
        /\ (~ Compatible MessageStructType Listener ->
            ErrorTypeMismatch Channel MessageStructType Tag
              (GameplayMessageStructType Listener) ∈ Trace
            /\ forall Tag' C S P, CallbackInvoked Tag' Listener C S P ∉ Trace))
  /\ (forall Tag b (Current : TListenerMap) Log Listener,
        Eligible b Listener = true ->
        Stale StructIsAlive Listener = false ->
        (Compatible MessageStructType Listener ->
         BroadcastToListener StructIsAlive Invoke Channel MessageStructType
           MessagePayload Tag b (Current, Log) Listener =
         (Invoke (Callback Listener) Channel MessageStructType MessagePayload Current,
          Log ++ [CallbackInvoked Tag Listener Channel MessageStructType
                    MessagePayload]))
        /\ (~ Compatible MessageStructType Listener ->
            BroadcastToListener StructIsAlive Invoke Channel MessageStructType
              MessagePayload Tag b (Current, Log) Listener =
            (Current,
             Log ++ [ErrorTypeMismatch Channel MessageStructType Tag
                       (GameplayMessageStructType Listener)]))).
Proof.
  intros Trace Copy.
  assert (HTrace : Trace =
            VisitedTags Channel
              ≫= (fun Tag =>
                    Copy Tag
                      ≫= EntryVerdict StructIsAlive Channel MessageStructType
                           MessagePayload Tag (bool_decide (Tag = Channel))))
    by apply Broadcast_trace_by_copies.
  split; [exact HTrace |]. split.
  - intros Tag Listener Hanc Hin Helig Hfresh. split.
    + intros Hcompat. apply Broadcast_invoked_iff.
      split; [exact Hanc |]. split; [exact Hin |].
      unfold Receives. rewrite Helig, Hfresh.
      apply (type_test_Compatible StructIsAlive) in Hcompat; [| exact Hfresh].
      rewrite Hcompat. reflexivity.
    + intros Hnot. split.
      * rewrite HTrace. apply list_elem_of_bind. exists Tag. split.
        -- apply Verdict_mismatch; assumption.
        -- apply VisitedTags_spec, Hanc.
      * intros Tag' C S P Hin'. subst Trace.
        unfold BroadcastGameplayMessage_Internal in Hin'.
        apply BroadcastFromTag_invoked_receives in Hin' as [b' Hrecv].
        unfold Receives in Hrecv.
        apply andb_true_iff in Hrecv as [_ Htype].
        apply Hnot, (type_test_Compatible StructIsAlive); assumption.
  - intros Tag b Current Log Listener Helig Hfresh.
    unfold BroadcastToListener. unfold Eligible in Helig. rewrite Helig.
    unfold Stale in Hfresh. rewrite Hfresh.
    pose proof (type_test_Compatible StructIsAlive MessageStructType Listener)
      as Hgate. unfold Stale in Hgate. specialize (Hgate Hfresh).
    destruct (negb (bHasValidType Listener) || _) eqn:Hg.
    + split; [reflexivity |]. intros Hnot. exfalso. apply Hnot, Hgate. reflexivity.
    + split; [| reflexivity]. intros Hcompat. apply Hgate in Hcompat. discriminate.
Qed.

Lemma type_gate_decides_delivery_witness :
  let Mismatched :=
    {| HandleId := 1; Callback := 0%nat;
       GameplayMessageStructType := Some World.Kill;
       bHasValidType := true; MatchCriteria := PartialMatch |} in
  let Trace :=
    (BroadcastGameplayMessage_Internal World.AllAlive World.Quiet
       World.ParentAndChild World.TagAB World.Death 0).2 in
  ErrorTypeMismatch World.TagAB World.Death World.TagA (Some World.Kill) ∈ Trace
  /\ forall Tag' C S P, CallbackInvoked Tag' Mismatched C S P ∉ Trace.
Proof.
  intros Mismatched Trace.
  refine (proj2 (proj1 (proj2 (type_gate_decides_delivery World.AllAlive World.Quiet
                                 World.ParentAndChild World.TagAB World.Death 0))
                   World.TagA Mismatched _ _ _ _) _).
  - split; [discriminate | exists ["B"]; reflexivity].
  - vm_compute. left.
  - reflexivity.
  - reflexivity.
  - intros [Hwild | (Expected & [= <-] & Hisa)]; [discriminate | inversion Hisa].
Defined.

(** C3 -- At every level the walk reaches, the list of the level is
    copied before any callback of the level runs, and the events of the
    level are the verdicts on that copy, entry by entry in order,
    whatever the callbacks of the level do to the registry.  The copy
    of the channel's own level is the list stored before the broadcast,
    so a listener registered on the channel during the broadcast is not
    called and every entry of the copy that is to receive is called
    once.  The copy of an ancestor is taken when the walk reaches it,
    from the registry the lower levels have left: on the direct parent
    exactly the entries stored there after the channel's own callbacks
    ran are called, so a PartialMatch listener a callback has registered
    there receives the broadcast in flight and one a callback has
    removed does not. *)
Theorem level_events_come_from_its_copy
    (StructIsAlive : UScriptStruct -> bool)
    (Invoke : TFunctionId -> FGameplayTag -> UScriptStruct -> VoidPtr ->
              TListenerMap -> TListenerMap)
    (MessageStructType : UScriptStruct) (MessagePayload : VoidPtr) :
  (forall (Channel Tag : FGameplayTag) (b : bool) (ListenerMap : TListenerMap)
          (Log : list Event),
      (BroadcastAtTag StructIsAlive Invoke Channel MessageStructType MessagePayload
         Tag b (ListenerMap, Log)).2 =
      Log ++ (ListenersAt ListenerMap Tag
                ≫= EntryVerdict StructIsAlive Channel MessageStructType
                     MessagePayload Tag b))
  /\ (forall (Seg : string) (Parent : FGameplayTag) (ListenerMap : TListenerMap),
        let Channel := Seg :: Parent in
        let Initial :=
          ListenersAt ListenerMap Channel
            ≫= EntryVerdict StructIsAlive Channel MessageStructType MessagePayload
                 Channel true in
        exists Rest,
          (BroadcastGameplayMessage_Internal StructIsAlive Invoke ListenerMap
             Channel MessageStructType MessagePayload).2 = Initial ++ Rest
          /\ Deliveries Initial =
             (fun L => (Channel, L)) <$>
               filter (fun L => Receives StructIsAlive MessageStructType true L = true)
                 (ListenersAt ListenerMap Channel)
          /\ Forall (fun D => IsAncestorOrSelf D.1 Parent /\ D.1 <> Channel)
               (Deliveries Rest))
  /\ (forall (ListenerMap : TListenerMap) (Channel : FGameplayTag),
        let Trace :=
          (BroadcastGameplayMessage_Internal StructIsAlive Invoke ListenerMap
             Channel MessageStructType MessagePayload).2 in
        let Copy :=
          CopyAt StructIsAlive Invoke ListenerMap Channel MessageStructType
            MessagePayload in
        Trace =
          VisitedTags Channel
            ≫= (fun Tag =>
                  Copy Tag
                    ≫= EntryVerdict StructIsAlive Channel MessageStructType
                         MessagePayload Tag (bool_decide (Tag = Channel)))
        /\ Copy Channel = ListenersAt ListenerMap Channel
        /\ (forall Tag Listener,
              CallbackInvoked Tag Listener Channel MessageStructType MessagePayload
              ∈ Trace
              <-> IsAncestorOrSelf Tag Channel
                  /\ Listener ∈ Copy Tag
                  /\ Receives StructIsAlive MessageStructType
                       (bool_decide (Tag = Channel)) Listener = true))
  /\ (forall (ListenerMap : TListenerMap) (Seg Seg' : string) (Grand : FGameplayTag)
             (Listener : FDanzmannGameplayMessagesListenerData),
        let Channel := Seg :: Seg' :: Grand in
        let DirectParent := Seg' :: Grand in
        let AfterChannelLevel :=
          (BroadcastAtTag StructIsAlive Invoke Channel MessageStructType
             MessagePayload Channel true (ListenerMap, [])).1 in
        CallbackInvoked DirectParent Listener Channel MessageStructType MessagePayload
        ∈ (BroadcastGameplayMessage_Internal StructIsAlive Invoke ListenerMap
             Channel MessageStructType MessagePayload).2
        <-> Listener ∈ ListenersAt AfterChannelLevel DirectParent
            /\ Receives StructIsAlive MessageStructType false Listener = true).
Proof.
  split; [| split; [| split]].
  - intros Channel Tag b m Log. rewrite BroadcastAtTag_split. reflexivity.
  - intros Seg Parent m Channel Initial.
    unfold BroadcastGameplayMessage_Internal. subst Channel.
    rewrite BroadcastFromTag_cons. cbn [snd].
    eexists. split; [reflexivity |]. split; [apply Deliveries_Verdict |].
    eapply Forall_impl; [apply BroadcastFromTag_delivery_levels |].
    intros [T L] Hanc. cbn [fst] in *. split; [exact Hanc |].
    intros ->. destruct Hanc as [_ Hsuf]. exact (suffix_cons_not _ _ Hsuf).
  - intros m Channel Trace Copy. split; [apply Broadcast_trace_by_copies |].
    split; [apply CopyAt_channel |].
    intros Tag Listener. apply Broadcast_invoked_iff.
  - intros m Seg Seg' Grand Listener Channel DirectParent AfterChannelLevel.
    rewrite Broadcast_invoked_iff.
    subst Channel DirectParent AfterChannelLevel.
    rewrite CopyAt_direct_parent.
    rewrite (bool_decide_eq_false_2 (Seg' :: Grand = Seg :: Seg' :: Grand)).
    + split.
      * intros (_ & HL & Hrecv). split; assumption.
      * intros (HL & Hrecv). split; [| split; assumption].
        split; [discriminate | exists [Seg]; reflexivity].
    + intros Heq. apply (f_equal length) in Heq. simpl in Heq. lia.
Qed.

Lemma level_events_come_from_its_copy_witness :
  let Registered :=
    {| HandleId := 1; Callback := 7%nat; GameplayMessageStructType := None;
       bHasValidType := false; MatchCriteria := PartialMatch |} in
  ListenersAt World.OneOnAB World.TagA = []
  /\ CallbackInvoked World.TagA Registered World.TagAB World.Death 0
     ∈ (BroadcastGameplayMessage_Internal World.AllAlive World.RegistersOnParent
          World.OneOnAB World.TagAB World.Death 0).2.
Proof.
  intros Registered. split; [vm_compute; reflexivity |].
  apply (proj2 (proj2 (proj2 (level_events_come_from_its_copy World.AllAlive
                                World.RegistersOnParent World.Death 0)))
           World.OneOnAB "B"%string "A"%string [] Registered).
  split.
  - vm_compute. left.
  - reflexivity.
Defined.

(** ** At most one call per listener, for callbacks that register *)

Lemma Deliveries_bind {A : Type} (f : A -> list Event) (l : list A) :
  Deliveries (l ≫= f) = l ≫= (fun x => Deliveries (f x)).
Proof.
  unfold Deliveries. induction l as [| x rest IH]; [reflexivity |].
  rewrite !bind_cons, omap_app, IH. reflexivity.
Qed.

(** The callback invocations of a broadcast: for each level in turn, the
    entries of its copy that are to receive, in the order of the copy. *)
Lemma Broadcast_deliveries_by_copies
    (StructIsAlive : UScriptStruct -> bool)
    (Invoke : TFunctionId -> FGameplayTag -> UScriptStruct -> VoidPtr ->
              TListenerMap -> TListenerMap)
    (ListenerMap : TListenerMap) (Channel : FGameplayTag)
    (MessageStructType : UScriptStruct) (MessagePayload : VoidPtr) :
  Deliveries
    (BroadcastGameplayMessage_Internal StructIsAlive Invoke ListenerMap Channel
       MessageStructType MessagePayload).2 =
  VisitedTags Channel
    ≫= (fun Tag =>
          pair Tag <$>
            filter (fun L => Receives StructIsAlive MessageStructType
                               (bool_decide (Tag = Channel)) L = true)
              (CopyAt StructIsAlive Invoke ListenerMap Channel MessageStructType
                 MessagePayload Tag)).
Proof.
  rewrite Broadcast_trace_by_copies, Deliveries_bind.
  apply Forall_bind_ext. rewrite Forall_forall. intros T _.
  apply Deliveries_Verdict.
Qed.

(** Blocks labelled by pairwise distinct tags, each without repetition,
    have no repetition together. *)
Lemma NoDup_tagged_blocks {A : Type} (Tags : list (list string))
    (Block : list string -> list A) :
  NoDup Tags ->
  (forall T, T ∈ Tags -> NoDup (Block T)) ->
  NoDup (Tags ≫= (fun T => pair T <$> Block T)).
Proof.
  induction 1 as [| T Rest HT Hnd IH]; intros Hblocks.
  - constructor.
  - rewrite bind_cons. apply NoDup_app. split; [| split].
    + apply (NoDup_fmap_2 _). apply Hblocks. left.
    + intros [T' x] Hin Hin'.
      apply list_elem_of_fmap in Hin as (y & [= -> ->] & _).
      apply list_elem_of_bind in Hin' as (T'' & Hin' & HT'').
      apply list_elem_of_fmap in Hin' as (z & [= <- _] & _).
      contradiction.
    + apply IH. intros T' HT'. apply Hblocks. right. exact HT'.
Qed.

Lemma fmap_tagged_blocks (Tags : list (list string))
    (Block : list string -> list FDanzmannGameplayMessagesListenerData) :
  (fun D : list string * FDanzmannGameplayMessagesListenerData =>
     (D.1, HandleId D.2)) <$> (Tags ≫= (fun T => pair T <$> Block T)) =
  Tags ≫= (fun T => pair T <$> (HandleId <$> Block T)).
Proof.
  induction Tags as [| T Rest IH]; [reflexivity |].
  rewrite !bind_cons, fmap_app, IH. f_equal.
  induction (Block T) as [| L Ls IHL]; [reflexivity |].
  cbn [fmap list_fmap] in *. rewrite IHL. reflexivity.
Qed.

(** C10 -- Within one broadcast no listener entry, named by the key it
    is stored under and its handle id, is called more than once: the
    keys the walk visits are pairwise distinct, and at each key the
    callback invocations are entries of the level's copy, each position
    of the copy inspected once and in order.  The handle ids are
    pairwise distinct in each list at the moment the walk copies it, as
    they are in every registry the operations build; nothing is asked
    of what the callbacks do, so they may register and unregister. *)
Theorem each_listener_invoked_at_most_once
    (StructIsAlive : UScriptStruct -> bool)
    (Invoke : TFunctionId -> FGameplayTag -> UScriptStruct -> VoidPtr ->
              TListenerMap -> TListenerMap)
    (ListenerMap : TListenerMap) (Channel : FGameplayTag)
    (MessageStructType : UScriptStruct) (MessagePayload : VoidPtr) :
  (forall Tag, Tag ∈ VisitedTags Channel ->
     NoDup (HandleId <$>
              CopyAt StructIsAlive Invoke ListenerMap Channel MessageStructType
                MessagePayload Tag)) ->
  let Calls :=
    Deliveries (BroadcastGameplayMessage_Internal StructIsAlive Invoke
                  ListenerMap Channel MessageStructType MessagePayload).2 in
  NoDup ((fun D => (D.1, HandleId D.2)) <$> Calls)
  /\ NoDup (VisitedTags Channel)
  /\ Calls =
     VisitedTags Channel
       ≫= (fun Tag =>
             pair Tag <$>
               filter (fun L => Receives StructIsAlive MessageStructType
                                  (bool_decide (Tag = Channel)) L = true)
                 (CopyAt StructIsAlive Invoke ListenerMap Channel
                    MessageStructType MessagePayload Tag))
  /\ CopyAt StructIsAlive Invoke ListenerMap Channel MessageStructType
       MessagePayload Channel = ListenersAt ListenerMap Channel.
Proof.
  intros Hcopies Calls.
  assert (HCalls := Broadcast_deliveries_by_copies StructIsAlive Invoke ListenerMap
                      Channel MessageStructType MessagePayload).
  fold Calls in HCalls.
  split; [| split; [apply VisitedTags_NoDup | split; [exact HCalls | apply CopyAt_channel]]].
  rewrite HCalls.
  rewrite fmap_tagged_blocks. apply NoDup_tagged_blocks; [apply VisitedTags_NoDup |].
  intros T HT. eapply sublist_NoDup; [apply Hcopies, HT |].
  apply fmap_sublist, sublist_filter.
Qed.

Lemma each_listener_invoked_at_most_once_witness :
  let Calls :=
    Deliveries (BroadcastGameplayMessage_Internal World.AllAlive
                  World.RegistersOnParent World.OneOnAB World.TagAB
                  World.Death 0).2 in
  length Calls = 2%nat
  /\ NoDup ((fun D => (D.1, HandleId D.2)) <$> Calls).
Proof.
  intros Calls. split; [vm_compute; reflexivity |].
  apply (each_listener_invoked_at_most_once World.AllAlive World.RegistersOnParent
           World.OneOnAB World.TagAB World.Death 0).
  intros Tag HTag.
  apply elem_of_cons in HTag as [-> | HTag];
    [| apply elem_of_cons in HTag as [-> | HTag]; [| inversion HTag]].
  - vm_compute. apply NoDup_singleton.
  - vm_compute. apply NoDup_singleton.
Defined.

(** ** Callbacks that register and unregister keep the copies distinct *)

Section GradedInvariant.

Variable StructIsAlive : UScriptStruct -> bool.
Variable Invoke :
  TFunctionId -> FGameplayTag -> UScriptStruct -> VoidPtr -> TListenerMap -> TListenerMap.
Variable Channel : FGameplayTag.
Variable MessageStructType : UScriptStruct.
Variable MessagePayload : VoidPtr.

Local Abbreviation ToListener :=
  (BroadcastToListener StructIsAlive Invoke Channel MessageStructType MessagePayload).
Local Abbreviation AtTag :=
  (BroadcastAtTag StructIsAlive Invoke Channel MessageStructType MessagePayload).
Local Abbreviation FromTag :=
  (BroadcastFromTag StructIsAlive Invoke Channel MessageStructType MessagePayload).
Local Abbreviation Verdict :=
  (EntryVerdict StructIsAlive Channel MessageStructType MessagePayload).

(** A property of the registry graded by the number of callbacks called
    so far: purging keeps the grade, a call raises it by one, and calls
    are allowed below [Limit]. *)
Variable Graded : nat -> TListenerMap -> Prop.
Variable Limit : nat.
Hypothesis Graded_unregister :
  forall (n : nat) (m : TListenerMap) (k : Z),
    Graded n m -> Graded n (UnregisterListener_Internal m Channel k).
Hypothesis Graded_invoke :
  forall (n : nat) (Cb : TFunctionId) (C : FGameplayTag) (T : UScriptStruct)
         (P : VoidPtr) (m : TListenerMap),
    (n < Limit)%nat -> Graded n m -> Graded (S n) (Invoke Cb C T P m).

Lemma BroadcastToListener_graded (Tag : FGameplayTag) (b : bool)
    (ListenerMap : TListenerMap) (Log : list Event)
    (Listener : FDanzmannGameplayMessagesListenerData) (n : nat) :
  Graded n ListenerMap ->
  (n + length (Deliveries (Verdict Tag b Listener)) <= Limit)%nat ->
  Graded (n + length (Deliveries (Verdict Tag b Listener)))
    (ToListener Tag b (ListenerMap, Log) Listener).1.
Proof.
  intros HG. unfold BroadcastToListener, EntryVerdict, Eligible, Stale.
  destruct (b || MatchCriteria_eqb (MatchCriteria Listener) PartialMatch);
    [| cbn; rewrite Nat.add_0_r; intros _; exact HG].
  destruct (bHasValidType Listener
            && negb (WeakPtrIsValid StructIsAlive (GameplayMessageStructType Listener))).
  - cbn. rewrite Nat.add_0_r. intros _. apply Graded_unregister, HG.
  - destruct (negb (bHasValidType Listener) || _); cbn.
    + rewrite Nat.add_1_r. intros Hle. apply Graded_invoke; [lia | exact HG].
    + rewrite Nat.add_0_r. intros _. exact HG.
Qed.

Lemma BroadcastListeners_graded (Tag : FGameplayTag) (b : bool)
    (Copy : list FDanzmannGameplayMessagesListenerData) :
  forall (ListenerMap : TListenerMap) (Log : list Event) (n : nat),
    Graded n ListenerMap ->
    (n + length (Deliveries (Copy ≫= Verdict Tag b)) <= Limit)%nat ->
    Graded (n + length (Deliveries (Copy ≫= Verdict Tag b)))
      (foldl (ToListener Tag b) (ListenerMap, Log) Copy).1.
Proof.
  induction Copy as [| L Rest IH]; intros m Log n HG.
  - cbn. rewrite Nat.add_0_r. intros _. exact HG.
  - rewrite bind_cons. unfold Deliveries. rewrite omap_app, length_app.
    fold (Deliveries (Verdict Tag b L)). fold (Deliveries (Rest ≫= Verdict Tag b)).
    intros Hle. cbn [foldl].
    destruct (ToListener Tag b (m, Log) L) as [m1 Log1] eqn:Hstep.
    rewrite Nat.add_assoc. apply IH; [| lia].
    change m1 with (m1, Log1).1. rewrite <- Hstep.
    apply BroadcastToListener_graded; [exact HG | lia].
Qed.

Lemma BroadcastAtTag_graded (Tag : FGameplayTag) (b : bool)
    (ListenerMap : TListenerMap) (Log : list Event) (n : nat) :
  Graded n ListenerMap ->
  (n + length (Deliveries (ListenersAt ListenerMap Tag ≫= Verdict Tag b)) <= Limit)%nat ->
  Graded (n + length (Deliveries (ListenersAt ListenerMap Tag ≫= Verdict Tag b)))
    (AtTag Tag b (ListenerMap, Log)).1.
Proof.
  intros HG. unfold BroadcastAtTag, ListenersAt. cbn [fst].
  destruct (ListenerMap !! Tag) as [L |].
  - apply BroadcastListeners_graded, HG.
  - cbn. rewrite Nat.add_0_r. intros _. exact HG.
Qed.

(** Every registry the walk copies a list from has some grade. *)
Lemma RegistryOnReaching_graded (From : FGameplayTag) :
  forall (b : bool) (ListenerMap : TListenerMap) (n : nat),
    Graded n ListenerMap ->
    (n + length (Deliveries (FromTag From b (ListenerMap, [])).2) <= Limit)%nat ->
    forall Target,
      exists n',
        Graded n'
          (RegistryOnReaching StructIsAlive Invoke Channel MessageStructType
             MessagePayload From b ListenerMap Target).
Proof.
  induction From as [| Seg Parent IH]; intros b m n HG Hle Target.
  - exists n. exact HG.
  - cbn [RegistryOnReaching].
    destruct (decide (Seg :: Parent = Target)) as [_ | _]; [exists n; exact HG |].
    rewrite BroadcastFromTag_cons in Hle. cbn [snd] in Hle.
    unfold Deliveries in Hle. rewrite omap_app, length_app in Hle.
    fold (Deliveries (ListenersAt m (Seg :: Parent) ≫= Verdict (Seg :: Parent) b))
      in Hle.
    apply (IH false _
             (n + length (Deliveries (ListenersAt m (Seg :: Parent)
                                        ≫= Verdict (Seg :: Parent) b)))%nat).
    + apply BroadcastAtTag_graded; [exact HG | lia].
    + unfold Deliveries at 2. lia.
Qed.

End GradedInvariant.

Lemma WellFormed_weaken (Bound Bound' : Z) (ListenerMap : TListenerMap) :
  Bound <= Bound' -> WellFormed Bound ListenerMap -> WellFormed Bound' ListenerMap.
Proof.
  intros Hle (Hne & Huniq & Hwithin & Hcnt). repeat split; try assumption.
  - apply Hcnt.
  - specialize (Hcnt Tag). lia.
Qed.

Lemma WellFormed_unregister_internal (Bound : Z) (ListenerMap : TListenerMap)
    (Tag : FGameplayTag) (k : Z) :
  WellFormed Bound ListenerMap ->
  WellFormed Bound (UnregisterListener_Internal ListenerMap Tag k).
Proof.
  intros (Hne & Huniq & Hwithin & Hcnt).
  assert (Hcases : forall Key,
             CounterAt (UnregisterListener_Internal ListenerMap Tag k) Key =
               CounterAt ListenerMap Key
             \/ CounterAt (UnregisterListener_Internal ListenerMap Tag k) Key = 0).
  { intros Key. destruct (decide (Tag = Key)) as [<- | Hdiff].
    - destruct (UnregisterListener_Internal ListenerMap Tag k !! Tag)
        as [Stored |] eqn:HS.
      + left. apply CounterAt_unregister_internal_kept. exists Stored. exact HS.
      + right. unfold CounterAt. rewrite HS. reflexivity.
    - left. unfold CounterAt.
      rewrite UnregisterListener_Internal_lookup_ne by assumption. reflexivity. }
  repeat split.
  - apply UnregisterListener_Internal_NoEmptyList, Hne.
  - apply UnregisterListener_Internal_Unique, Huniq.
  - apply UnregisterListener_Internal_Within, Hwithin.
  - destruct (Hcases Tag0) as [-> | ->]; [apply Hcnt | lia].
  - specialize (Hcnt Tag0). destruct (Hcases Tag0) as [-> | ->]; lia.
Qed.

(** When the callbacks are scripts of at most [Scripts] registrations
    and unregistrations each, the registry is one the operations build
    and the counters have room for the calls of the broadcast, every
    list the walk copies has pairwise distinct handle ids. *)
Lemma scripted_callbacks_keep_copies_distinct
    (StructIsAlive : UScriptStruct -> bool)
    (Script : TFunctionId -> FGameplayTag -> UScriptStruct -> VoidPtr ->
              TListenerMap -> list Operation)
    (Scripts : nat) (Bound : Z)
    (ListenerMap : TListenerMap) (Channel : FGameplayTag)
    (MessageStructType : UScriptStruct) (MessagePayload : VoidPtr) :
  (forall Cb C T P m, (length (Script Cb C T P m) <= Scripts)%nat) ->
  WellFormed Bound ListenerMap ->
  Bound
  + Z.of_nat Scripts
    * Z.of_nat (length (Deliveries
                          (BroadcastGameplayMessage_Internal StructIsAlive
                             (ScriptedInvoke Script) ListenerMap Channel
                             MessageStructType MessagePayload).2))
  <= INT32_MAX ->
  forall Tag,
    NoDup (HandleId <$>
             CopyAt StructIsAlive (ScriptedInvoke Script) ListenerMap Channel
               MessageStructType MessagePayload Tag).
Proof.
  intros Hshort Hwf Hroom Tag. unfold CopyAt.
  destruct (RegistryOnReaching_graded StructIsAlive (ScriptedInvoke Script) Channel
              MessageStructType MessagePayload
              (fun n m => WellFormed (Bound + Z.of_nat Scripts * Z.of_nat n) m)
              (length (Deliveries
                         (BroadcastGameplayMessage_Internal StructIsAlive
                            (ScriptedInvoke Script) ListenerMap Channel
                            MessageStructType MessagePayload).2)))
    with (From := Channel) (b := true) (ListenerMap := ListenerMap) (n := 0%nat)
         (Target := Tag)
    as [n' (_ & Huniq & _)].
  - intros n m k Hm. apply WellFormed_unregister_internal, Hm.
  - intros n Cb C T P m Hn Hm. unfold ScriptedInvoke.
    apply (WellFormed_weaken
             (Bound + Z.of_nat Scripts * Z.of_nat n
              + Z.of_nat (length (Script Cb C T P m)))).
    + specialize (Hshort Cb C T P m). nia.
    + apply WellFormed_run; [| exact Hm].
      specialize (Hshort Cb C T P m). nia.
  - replace (Bound + Z.of_nat Scripts * Z.of_nat 0) with Bound by lia. exact Hwf.
  - unfold BroadcastGameplayMessage_Internal. lia.
  - apply ListenersAt_Unique, Huniq.
Qed.

(** [World.RegistersOnParent] is such a callback. *)
Lemma RegistersOnParent_scripted (Cb : TFunctionId) (C : FGameplayTag)
    (T : UScriptStruct) (P : VoidPtr) (ListenerMap : TListenerMap) :
  World.RegistersOnParent Cb C T P ListenerMap =
  ScriptedInvoke World.RegistersOnParentScript Cb C T P ListenerMap.
Proof. destruct Cb as [| [| Cb]]; reflexivity. Qed.
